(** * AllPassAgent: ingestion pipeline and retrieval / rerank / fusion core

    A shallow embedding of the TypeScript sources

    - the reranker, imported as [@/lib/reranker]
      ([src/unnamed/part_006])                      (module [Reranker])
    - [src/src/app/api/chat/route.ts]               (module [Chat])
    - [src/src/lib/recommendation-engine.ts]        (module [Recommendation])
    - [src/src/lib/document-parser.ts]              (module [DocumentParser])
    - the file-backed queue, imported as [../lib/file-queue]
      ([src/unnamed/part_008])                      (module [FileQueue])
    - [src/src/workers/file-processor.ts]           (module [Worker])

    followed by the properties proved about them.

    Conventions of the embedding.
    - A JavaScript string is the list of its UTF-16 code units ([N]).
    - A JavaScript number that carries a score is a rational ([Q]): the
      arithmetic of the sources is read over exact numbers.  Lengths, indices
      and counters are [nat] or [Z].
    - [try { .. } catch { .. }] is explicit: a computation that may throw
      returns a [Result], and a handler consumes the [Throw] case.
    - Calls that leave the process (HTTP, database, regular-expression engine
      beyond the fragment modelled here) are inputs of the model. *)

From Stdlib Require Import String Ascii List NArith ZArith QArith Qminmax.
From Stdlib Require Import Bool Arith Lia Lqa Sorted Permutation.
Import ListNotations.
Close Scope Q_scope.
Open Scope nat_scope.

(* ====================================================================== *)
(** * Part I. The embedding                                               *)
(* ====================================================================== *)

(** ** JavaScript primitives used by the sources *)

Module JS.

Definition jsstring := list N.

(** *** String literals

    Literals are written as Rocq strings (UTF-8 bytes) and decoded to code
    units, so that ["你好"] is the two code units U+4F60 U+597D. *)

Definition utf16 (cp : N) : list N :=
  if (cp <? 65536)%N then [cp]
  else [(55296 + (cp - 65536) / 1024)%N; (56320 + (cp - 65536) mod 1024)%N].

Fixpoint utf8_decode (bs : list N) (pending : nat) (acc : N) : list N :=
  match bs with
  | [] => []
  | b :: bs' =>
    if (b <? 128)%N then b :: utf8_decode bs' 0 0%N
    else if (b <? 192)%N then
      let acc' := (acc * 64 + (b - 128))%N in
      match pending with
      | 0 => utf8_decode bs' 0 0%N
      | 1 => utf16 acc' ++ utf8_decode bs' 0 0%N
      | S n => utf8_decode bs' n acc'
      end
    else if (b <? 224)%N then utf8_decode bs' 1 (b - 192)%N
    else if (b <? 240)%N then utf8_decode bs' 2 (b - 224)%N
    else utf8_decode bs' 3 (b - 240)%N
  end.

Definition js (s : string) : jsstring :=
  utf8_decode (map N_of_ascii (list_ascii_of_string s)) 0 0%N.

Fixpoint streq (a b : jsstring) : bool :=
  match a, b with
  | [], [] => true
  | x :: a', y :: b' => (x =? y)%N && streq a' b'
  | _, _ => false
  end.

(** *** White space: [String.prototype.trim] and the class [\s] *)

Definition isWhiteSpace (c : N) : bool :=
  ((9 <=? c) && (c <=? 13) || (c =? 32) || (c =? 160) || (c =? 5760)
   || (8192 <=? c) && (c <=? 8202) || (c =? 8232) || (c =? 8233)
   || (c =? 8239) || (c =? 8287) || (c =? 12288) || (c =? 65279))%N.

Fixpoint trimStart (s : jsstring) : jsstring :=
  match s with
  | [] => []
  | c :: s' => if isWhiteSpace c then trimStart s' else s
  end.

Definition trimEnd (s : jsstring) : jsstring := rev (trimStart (rev s)).

Definition trim (s : jsstring) : jsstring := trimEnd (trimStart s).

(** [s.replace(/\s+/g, ' ')]: every maximal run of white space becomes one
    space.  [in_run] tells whether the previous code unit was white space. *)
Fixpoint replace_ws_runs (s : jsstring) (in_run : bool) : jsstring :=
  match s with
  | [] => []
  | c :: s' =>
    if isWhiteSpace c
    then (if in_run then replace_ws_runs s' true
          else 32%N :: replace_ws_runs s' true)
    else c :: replace_ws_runs s' false
  end.

(** *** [toLowerCase]

    [String.prototype.toLowerCase] is the default case conversion of
    Unicode, without locale: the string is read as code points (a high
    surrogate followed by a low surrogate is one code point, a lone
    surrogate stands for itself), every code point is replaced by its
    lowercase mapping, and the result is written back as code units.  Two
    mappings are not one code point to one code point: U+0130 becomes
    U+0069 U+0307, and U+03A3 becomes U+03C2 at the end of a word (after a
    cased letter and not before one, case-ignorable code points set aside)
    and U+03C3 elsewhere.  The tables are those of Unicode 14.0. *)

Definition isHighSurrogate (c : N) : bool := ((55296 <=? c) && (c <=? 56319))%N.

Definition isLowSurrogate (c : N) : bool := ((56320 <=? c) && (c <=? 57343))%N.

Fixpoint codePoints (s : jsstring) : list N :=
  match s with
  | [] => []
  | h :: s' =>
    match s' with
    | l :: s'' =>
      if isHighSurrogate h && isLowSurrogate l
      then (65536 + (h - 55296) * 1024 + (l - 56320))%N :: codePoints s''
      else h :: codePoints s'
    | [] => [h]
    end
  end.

(** The lowercase mappings: [(first, last, step, target)] maps the code
    points [first], [first + step], .. up to [last] to [target],
    [target + step], ..  *)
Definition lowerRuns : list (N * N * N * N) :=
  [
   (65, 90, 1, 97); (192, 214, 1, 224); (216, 222, 1, 248);
   (256, 302, 2, 257); (306, 310, 2, 307); (313, 327, 2, 314);
   (330, 374, 2, 331); (376, 376, 1, 255); (377, 381, 2, 378);
   (385, 385, 1, 595); (386, 388, 2, 387); (390, 390, 1, 596);
   (391, 391, 1, 392); (393, 394, 1, 598); (395, 395, 1, 396);
   (398, 398, 1, 477); (399, 399, 1, 601); (400, 400, 1, 603);
   (401, 401, 1, 402); (403, 403, 1, 608); (404, 404, 1, 611);
   (406, 406, 1, 617); (407, 407, 1, 616); (408, 408, 1, 409);
   (412, 412, 1, 623); (413, 413, 1, 626); (415, 415, 1, 629);
   (416, 420, 2, 417); (422, 422, 1, 640); (423, 423, 1, 424);
   (425, 425, 1, 643); (428, 428, 1, 429); (430, 430, 1, 648);
   (431, 431, 1, 432); (433, 434, 1, 650); (435, 437, 2, 436);
   (439, 439, 1, 658); (440, 440, 1, 441); (444, 444, 1, 445);
   (452, 452, 1, 454); (453, 453, 1, 454); (455, 455, 1, 457);
   (456, 456, 1, 457); (458, 458, 1, 460); (459, 475, 2, 460);
   (478, 494, 2, 479); (497, 497, 1, 499); (498, 500, 2, 499);
   (502, 502, 1, 405); (503, 503, 1, 447); (504, 542, 2, 505);
   (544, 544, 1, 414); (546, 562, 2, 547); (570, 570, 1, 11365);
   (571, 571, 1, 572); (573, 573, 1, 410); (574, 574, 1, 11366);
   (577, 577, 1, 578); (579, 579, 1, 384); (580, 580, 1, 649);
   (581, 581, 1, 652); (582, 590, 2, 583); (880, 882, 2, 881);
   (886, 886, 1, 887); (895, 895, 1, 1011); (902, 902, 1, 940);
   (904, 906, 1, 941); (908, 908, 1, 972); (910, 911, 1, 973);
   (913, 929, 1, 945); (931, 939, 1, 963); (975, 975, 1, 983);
   (984, 1006, 2, 985); (1012, 1012, 1, 952); (1015, 1015, 1, 1016);
   (1017, 1017, 1, 1010); (1018, 1018, 1, 1019); (1021, 1023, 1, 891);
   (1024, 1039, 1, 1104); (1040, 1071, 1, 1072); (1120, 1152, 2, 1121);
   (1162, 1214, 2, 1163); (1216, 1216, 1, 1231); (1217, 1229, 2, 1218);
   (1232, 1326, 2, 1233); (1329, 1366, 1, 1377); (4256, 4293, 1, 11520);
   (4295, 4295, 1, 11559); (4301, 4301, 1, 11565); (5024, 5103, 1, 43888);
   (5104, 5109, 1, 5112); (7312, 7354, 1, 4304); (7357, 7359, 1, 4349);
   (7680, 7828, 2, 7681); (7838, 7838, 1, 223); (7840, 7934, 2, 7841);
   (7944, 7951, 1, 7936); (7960, 7965, 1, 7952); (7976, 7983, 1, 7968);
   (7992, 7999, 1, 7984); (8008, 8013, 1, 8000); (8025, 8031, 2, 8017);
   (8040, 8047, 1, 8032); (8072, 8079, 1, 8064); (8088, 8095, 1, 8080);
   (8104, 8111, 1, 8096); (8120, 8121, 1, 8112); (8122, 8123, 1, 8048);
   (8124, 8124, 1, 8115); (8136, 8139, 1, 8050); (8140, 8140, 1, 8131);
   (8152, 8153, 1, 8144); (8154, 8155, 1, 8054); (8168, 8169, 1, 8160);
   (8170, 8171, 1, 8058); (8172, 8172, 1, 8165); (8184, 8185, 1, 8056);
   (8186, 8187, 1, 8060); (8188, 8188, 1, 8179); (8486, 8486, 1, 969);
   (8490, 8490, 1, 107); (8491, 8491, 1, 229); (8498, 8498, 1, 8526);
   (8544, 8559, 1, 8560); (8579, 8579, 1, 8580); (9398, 9423, 1, 9424);
   (11264, 11311, 1, 11312); (11360, 11360, 1, 11361);
   (11362, 11362, 1, 619); (11363, 11363, 1, 7549); (11364, 11364, 1, 637);
   (11367, 11371, 2, 11368); (11373, 11373, 1, 593); (11374, 11374, 1, 625);
   (11375, 11375, 1, 592); (11376, 11376, 1, 594); (11378, 11378, 1, 11379);
   (11381, 11381, 1, 11382); (11390, 11391, 1, 575);
   (11392, 11490, 2, 11393); (11499, 11501, 2, 11500);
   (11506, 11506, 1, 11507); (42560, 42604, 2, 42561);
   (42624, 42650, 2, 42625); (42786, 42798, 2, 42787);
   (42802, 42862, 2, 42803); (42873, 42875, 2, 42874);
   (42877, 42877, 1, 7545); (42878, 42886, 2, 42879);
   (42891, 42891, 1, 42892); (42893, 42893, 1, 613);
   (42896, 42898, 2, 42897); (42902, 42920, 2, 42903);
   (42922, 42922, 1, 614); (42923, 42923, 1, 604); (42924, 42924, 1, 609);
   (42925, 42925, 1, 620); (42926, 42926, 1, 618); (42928, 42928, 1, 670);
   (42929, 42929, 1, 647); (42930, 42930, 1, 669); (42931, 42931, 1, 43859);
   (42932, 42946, 2, 42933); (42948, 42948, 1, 42900);
   (42949, 42949, 1, 642); (42950, 42950, 1, 7566); (42951, 42953, 2, 42952);
   (42960, 42960, 1, 42961); (42966, 42968, 2, 42967);
   (42997, 42997, 1, 42998); (65313, 65338, 1, 65345);
   (66560, 66599, 1, 66600); (66736, 66771, 1, 66776);
   (66928, 66938, 1, 66967); (66940, 66954, 1, 66979);
   (66956, 66962, 1, 66995); (66964, 66965, 1, 67003);
   (68736, 68786, 1, 68800); (71840, 71871, 1, 71872);
   (93760, 93791, 1, 93792); (125184, 125217, 1, 125218)
  ]%N.

(** The code points with the property Case_Ignorable. *)
Definition caseIgnorableRanges : list (N * N) :=
  [
   (39, 39); (46, 46); (58, 58); (94, 94); (96, 96); (168, 168); (173, 173);
   (175, 175); (180, 180); (183, 184); (688, 879); (884, 885); (890, 890);
   (900, 901); (903, 903); (1155, 1161); (1369, 1369); (1375, 1375);
   (1425, 1469); (1471, 1471); (1473, 1474); (1476, 1477); (1479, 1479);
   (1524, 1524); (1536, 1541); (1552, 1562); (1564, 1564); (1600, 1600);
   (1611, 1631); (1648, 1648); (1750, 1757); (1759, 1768); (1770, 1773);
   (1807, 1807); (1809, 1809); (1840, 1866); (1958, 1968); (2027, 2037);
   (2042, 2042); (2045, 2045); (2070, 2093); (2137, 2139); (2184, 2184);
   (2192, 2193); (2200, 2207); (2249, 2306); (2362, 2362); (2364, 2364);
   (2369, 2376); (2381, 2381); (2385, 2391); (2402, 2403); (2417, 2417);
   (2433, 2433); (2492, 2492); (2497, 2500); (2509, 2509); (2530, 2531);
   (2558, 2558); (2561, 2562); (2620, 2620); (2625, 2626); (2631, 2632);
   (2635, 2637); (2641, 2641); (2672, 2673); (2677, 2677); (2689, 2690);
   (2748, 2748); (2753, 2757); (2759, 2760); (2765, 2765); (2786, 2787);
   (2810, 2815); (2817, 2817); (2876, 2876); (2879, 2879); (2881, 2884);
   (2893, 2893); (2901, 2902); (2914, 2915); (2946, 2946); (3008, 3008);
   (3021, 3021); (3072, 3072); (3076, 3076); (3132, 3132); (3134, 3136);
   (3142, 3144); (3146, 3149); (3157, 3158); (3170, 3171); (3201, 3201);
   (3260, 3260); (3263, 3263); (3270, 3270); (3276, 3277); (3298, 3299);
   (3328, 3329); (3387, 3388); (3393, 3396); (3405, 3405); (3426, 3427);
   (3457, 3457); (3530, 3530); (3538, 3540); (3542, 3542); (3633, 3633);
   (3636, 3642); (3654, 3662); (3761, 3761); (3764, 3772); (3782, 3782);
   (3784, 3789); (3864, 3865); (3893, 3893); (3895, 3895); (3897, 3897);
   (3953, 3966); (3968, 3972); (3974, 3975); (3981, 3991); (3993, 4028);
   (4038, 4038); (4141, 4144); (4146, 4151); (4153, 4154); (4157, 4158);
   (4184, 4185); (4190, 4192); (4209, 4212); (4226, 4226); (4229, 4230);
   (4237, 4237); (4253, 4253); (4348, 4348); (4957, 4959); (5906, 5908);
   (5938, 5939); (5970, 5971); (6002, 6003); (6068, 6069); (6071, 6077);
   (6086, 6086); (6089, 6099); (6103, 6103); (6109, 6109); (6155, 6159);
   (6211, 6211); (6277, 6278); (6313, 6313); (6432, 6434); (6439, 6440);
   (6450, 6450); (6457, 6459); (6679, 6680); (6683, 6683); (6742, 6742);
   (6744, 6750); (6752, 6752); (6754, 6754); (6757, 6764); (6771, 6780);
   (6783, 6783); (6823, 6823); (6832, 6862); (6912, 6915); (6964, 6964);
   (6966, 6970); (6972, 6972); (6978, 6978); (7019, 7027); (7040, 7041);
   (7074, 7077); (7080, 7081); (7083, 7085); (7142, 7142); (7144, 7145);
   (7149, 7149); (7151, 7153); (7212, 7219); (7222, 7223); (7288, 7293);
   (7376, 7378); (7380, 7392); (7394, 7400); (7405, 7405); (7412, 7412);
   (7416, 7417); (7468, 7530); (7544, 7544); (7579, 7679); (8125, 8125);
   (8127, 8129); (8141, 8143); (8157, 8159); (8173, 8175); (8189, 8190);
   (8203, 8207); (8216, 8217); (8228, 8228); (8231, 8231); (8234, 8238);
   (8288, 8292); (8294, 8303); (8305, 8305); (8319, 8319); (8336, 8348);
   (8400, 8432); (11388, 11389); (11503, 11505); (11631, 11631);
   (11647, 11647); (11744, 11775); (11823, 11823); (12293, 12293);
   (12330, 12333); (12337, 12341); (12347, 12347); (12441, 12446);
   (12540, 12542); (40981, 40981); (42232, 42237); (42508, 42508);
   (42607, 42610); (42612, 42621); (42623, 42623); (42652, 42655);
   (42736, 42737); (42752, 42785); (42864, 42864); (42888, 42890);
   (42994, 42996); (43000, 43001); (43010, 43010); (43014, 43014);
   (43019, 43019); (43045, 43046); (43052, 43052); (43204, 43205);
   (43232, 43249); (43263, 43263); (43302, 43309); (43335, 43345);
   (43392, 43394); (43443, 43443); (43446, 43449); (43452, 43453);
   (43471, 43471); (43493, 43494); (43561, 43566); (43569, 43570);
   (43573, 43574); (43587, 43587); (43596, 43596); (43632, 43632);
   (43644, 43644); (43696, 43696); (43698, 43700); (43703, 43704);
   (43710, 43711); (43713, 43713); (43741, 43741); (43756, 43757);
   (43763, 43764); (43766, 43766); (43867, 43871); (43881, 43883);
   (44005, 44005); (44008, 44008); (44013, 44013); (64286, 64286);
   (64434, 64450); (65024, 65039); (65043, 65043); (65056, 65071);
   (65106, 65106); (65109, 65109); (65279, 65279); (65287, 65287);
   (65294, 65294); (65306, 65306); (65342, 65342); (65344, 65344);
   (65392, 65392); (65438, 65439); (65507, 65507); (65529, 65531);
   (66045, 66045); (66272, 66272); (66422, 66426); (67456, 67461);
   (67463, 67504); (67506, 67514); (68097, 68099); (68101, 68102);
   (68108, 68111); (68152, 68154); (68159, 68159); (68325, 68326);
   (68900, 68903); (69291, 69292); (69446, 69456); (69506, 69509);
   (69633, 69633); (69688, 69702); (69744, 69744); (69747, 69748);
   (69759, 69761); (69811, 69814); (69817, 69818); (69821, 69821);
   (69826, 69826); (69837, 69837); (69888, 69890); (69927, 69931);
   (69933, 69940); (70003, 70003); (70016, 70017); (70070, 70078);
   (70089, 70092); (70095, 70095); (70191, 70193); (70196, 70196);
   (70198, 70199); (70206, 70206); (70367, 70367); (70371, 70378);
   (70400, 70401); (70459, 70460); (70464, 70464); (70502, 70508);
   (70512, 70516); (70712, 70719); (70722, 70724); (70726, 70726);
   (70750, 70750); (70835, 70840); (70842, 70842); (70847, 70848);
   (70850, 70851); (71090, 71093); (71100, 71101); (71103, 71104);
   (71132, 71133); (71219, 71226); (71229, 71229); (71231, 71232);
   (71339, 71339); (71341, 71341); (71344, 71349); (71351, 71351);
   (71453, 71455); (71458, 71461); (71463, 71467); (71727, 71735);
   (71737, 71738); (71995, 71996); (71998, 71998); (72003, 72003);
   (72148, 72151); (72154, 72155); (72160, 72160); (72193, 72202);
   (72243, 72248); (72251, 72254); (72263, 72263); (72273, 72278);
   (72281, 72283); (72330, 72342); (72344, 72345); (72752, 72758);
   (72760, 72765); (72767, 72767); (72850, 72871); (72874, 72880);
   (72882, 72883); (72885, 72886); (73009, 73014); (73018, 73018);
   (73020, 73021); (73023, 73029); (73031, 73031); (73104, 73105);
   (73109, 73109); (73111, 73111); (73459, 73460); (78896, 78904);
   (92912, 92916); (92976, 92982); (92992, 92995); (94031, 94031);
   (94095, 94111); (94176, 94177); (94179, 94180); (110576, 110579);
   (110581, 110587); (110589, 110590); (113821, 113822); (113824, 113827);
   (118528, 118573); (118576, 118598); (119143, 119145); (119155, 119170);
   (119173, 119179); (119210, 119213); (119362, 119364); (121344, 121398);
   (121403, 121452); (121461, 121461); (121476, 121476); (121499, 121503);
   (121505, 121519); (122880, 122886); (122888, 122904); (122907, 122913);
   (122915, 122916); (122918, 122922); (123184, 123197); (123566, 123566);
   (123628, 123631); (125136, 125142); (125252, 125259); (127995, 127999);
   (917505, 917505); (917536, 917631); (917760, 917999)
  ]%N.

(** The cased code points (Lowercase, Uppercase or titlecase letters) that
    are not case-ignorable. *)
Definition casedRanges : list (N * N) :=
  [
   (65, 90); (97, 122); (170, 170); (181, 181); (186, 186); (192, 214);
   (216, 246); (248, 442); (444, 447); (452, 659); (661, 687); (880, 883);
   (886, 887); (891, 893); (895, 895); (902, 902); (904, 906); (908, 908);
   (910, 929); (931, 1013); (1015, 1153); (1162, 1327); (1329, 1366);
   (1376, 1416); (4256, 4293); (4295, 4295); (4301, 4301); (4304, 4346);
   (4349, 4351); (5024, 5109); (5112, 5117); (7296, 7304); (7312, 7354);
   (7357, 7359); (7424, 7467); (7531, 7543); (7545, 7578); (7680, 7957);
   (7960, 7965); (7968, 8005); (8008, 8013); (8016, 8023); (8025, 8025);
   (8027, 8027); (8029, 8029); (8031, 8061); (8064, 8116); (8118, 8124);
   (8126, 8126); (8130, 8132); (8134, 8140); (8144, 8147); (8150, 8155);
   (8160, 8172); (8178, 8180); (8182, 8188); (8450, 8450); (8455, 8455);
   (8458, 8467); (8469, 8469); (8473, 8477); (8484, 8484); (8486, 8486);
   (8488, 8488); (8490, 8493); (8495, 8500); (8505, 8505); (8508, 8511);
   (8517, 8521); (8526, 8526); (8544, 8575); (8579, 8580); (9398, 9449);
   (11264, 11387); (11390, 11492); (11499, 11502); (11506, 11507);
   (11520, 11557); (11559, 11559); (11565, 11565); (42560, 42605);
   (42624, 42651); (42786, 42863); (42865, 42887); (42891, 42894);
   (42896, 42954); (42960, 42961); (42963, 42963); (42965, 42969);
   (42997, 42998); (43002, 43002); (43824, 43866); (43872, 43880);
   (43888, 43967); (64256, 64262); (64275, 64279); (65313, 65338);
   (65345, 65370); (66560, 66639); (66736, 66771); (66776, 66811);
   (66928, 66938); (66940, 66954); (66956, 66962); (66964, 66965);
   (66967, 66977); (66979, 66993); (66995, 67001); (67003, 67004);
   (68736, 68786); (68800, 68850); (71840, 71903); (93760, 93823);
   (119808, 119892); (119894, 119964); (119966, 119967); (119970, 119970);
   (119973, 119974); (119977, 119980); (119982, 119993); (119995, 119995);
   (119997, 120003); (120005, 120069); (120071, 120074); (120077, 120084);
   (120086, 120092); (120094, 120121); (120123, 120126); (120128, 120132);
   (120134, 120134); (120138, 120144); (120146, 120485); (120488, 120512);
   (120514, 120538); (120540, 120570); (120572, 120596); (120598, 120628);
   (120630, 120654); (120656, 120686); (120688, 120712); (120714, 120744);
   (120746, 120770); (120772, 120779); (122624, 122633); (122635, 122654);
   (125184, 125251); (127280, 127305); (127312, 127337); (127344, 127369)
  ]%N.

Fixpoint lowerMapping (runs : list (N * N * N * N)) (cp : N) : option N :=
  match runs with
  | [] => None
  | (first, last, step, target) :: rest =>
    if ((first <=? cp) && (cp <=? last) && ((cp - first) mod step =? 0))%N
    then Some (target + (cp - first))%N
    else lowerMapping rest cp
  end.

Fixpoint inRanges (ranges : list (N * N)) (cp : N) : bool :=
  match ranges with
  | [] => false
  | (first, last) :: rest =>
    ((first <=? cp) && (cp <=? last))%N || inRanges rest cp
  end.

Definition isCaseIgnorable (cp : N) : bool := inRanges caseIgnorableRanges cp.

Definition isCased (cp : N) : bool := inRanges casedRanges cp.

(** The first code point of [cps] that is not case-ignorable is cased. *)
Fixpoint nextIsCased (cps : list N) : bool :=
  match cps with
  | [] => false
  | c :: rest => if isCaseIgnorable c then nextIsCased rest else isCased c
  end.

(** [before] holds the code points already read, the last one first. *)
Fixpoint lowerPoints (before cps : list N) : list N :=
  match cps with
  | [] => []
  | c :: rest =>
    (if (c =? 931)%N
     then (if nextIsCased before && negb (nextIsCased rest)
           then [962%N] else [963%N])
     else if (c =? 304)%N then [105; 775]%N
     else match lowerMapping lowerRuns c with
          | Some l => [l]
          | None => [c]
          end)
    ++ lowerPoints (c :: before) rest
  end.

Definition toLowerCase (s : jsstring) : jsstring :=
  flat_map utf16 (lowerPoints [] (codePoints s)).

(** [!s]: a string is falsy exactly when it is empty. *)
Definition isEmpty (s : jsstring) : bool :=
  match s with
  | [] => true
  | _ :: _ => false
  end.

(** *** Prefixes, slices, searching *)

Fixpoint startsWith (p s : jsstring) : bool :=
  match p, s with
  | [], _ => true
  | x :: p', y :: s' => (x =? y)%N && startsWith p' s'
  | _ :: _, [] => false
  end.

Definition endsWith (p s : jsstring) : bool := startsWith (rev p) (rev s).

(** [s.slice(start, end)] and [s.substring(start, end)] for
    [0 <= start], [0 <= end]. *)
Definition slice (start end_ : nat) (s : jsstring) : jsstring :=
  firstn (end_ - start) (skipn start s).

(** [s.slice(start)] *)
Definition sliceFrom (start : nat) (s : jsstring) : jsstring := skipn start s.

Fixpoint includes (p s : jsstring) : bool :=
  startsWith p s || match s with [] => false | _ :: s' => includes p s' end.

(** [s.lastIndexOf(c, pos)] for a one-unit search string: the greatest index
    [i <= max(pos, 0)] with [s[i] = c], or [-1]. *)
Fixpoint lastIndexOf_scan (c : N) (s : jsstring) (i pos best : Z) : Z :=
  match s with
  | [] => best
  | x :: s' =>
    if (i <=? pos)%Z
    then lastIndexOf_scan c s' (i + 1)%Z pos (if (x =? c)%N then i else best)
    else best
  end.

Definition lastIndexOf (c : N) (s : jsstring) (pos : Z) : Z :=
  lastIndexOf_scan c s 0%Z (Z.max 0 pos) (-1)%Z.

(** *** Splitting and joining *)

(** [s.split(sep)] for a one-unit separator. *)
Fixpoint split_aux (sep : N) (s cur : jsstring) : list jsstring :=
  match s with
  | [] => [rev cur]
  | c :: s' =>
    if (c =? sep)%N then rev cur :: split_aux sep s' []
    else split_aux sep s' (c :: cur)
  end.

Definition split (sep : N) (s : jsstring) : list jsstring := split_aux sep s [].

(** [s.split(/[...]+/)]: the separators are the maximal non-empty runs of
    code units of the class [p]; a leading or trailing run yields an empty
    first or last field, as in JavaScript. *)
Fixpoint split_runs_aux (p : N -> bool) (s cur : jsstring) (in_run : bool)
  : list jsstring :=
  match s with
  | [] => [rev cur]
  | c :: s' =>
    if p c
    then (if in_run then split_runs_aux p s' cur true
          else rev cur :: split_runs_aux p s' [] true)
    else split_runs_aux p s' (c :: cur) false
  end.

Definition split_runs (p : N -> bool) (s : jsstring) : list jsstring :=
  split_runs_aux p s [] false.

Fixpoint join (sep : jsstring) (l : list jsstring) : jsstring :=
  match l with
  | [] => []
  | x :: l' => match l' with [] => x | _ :: _ => x ++ sep ++ join sep l' end
  end.

(** *** Arrays *)

(** [a.slice(-n)]: [-0] is [0], so [slice(-0)] is the whole array. *)
Definition slice_last {A} (n : nat) (l : list A) : list A :=
  match n with
  | 0 => l
  | _ => skipn (length l - n) l
  end.

(** [a.sort(cmp)].  The sort of ECMAScript 2019 is stable, so for a
    comparator that orders by a key the result is the stable insertion sort:
    [x] stays in front of the first [y] with [cmp x y <= 0]. *)
Fixpoint sort_insert {A} (cmp : A -> A -> Q) (x : A) (l : list A) : list A :=
  match l with
  | [] => [x]
  | y :: l' =>
    if Qle_bool (cmp x y) 0 then x :: y :: l' else y :: sort_insert cmp x l'
  end.

Fixpoint sort {A} (cmp : A -> A -> Q) (l : list A) : list A :=
  match l with
  | [] => []
  | x :: l' => sort_insert cmp x (sort cmp l')
  end.

(** *** [parseInt(s, 10)]; [None] is [NaN]. *)

Definition isDigit (c : N) : bool := ((48 <=? c) && (c <=? 57))%N.

Fixpoint digits_value (s : jsstring) (acc : Z) : Z :=
  match s with
  | [] => acc
  | c :: s' =>
    if isDigit c then digits_value s' (acc * 10 + Z.of_N (c - 48))%Z else acc
  end.

Definition parseInt10 (s : jsstring) : option Z :=
  let t := trimStart s in
  let '(neg, t') :=
    match t with
    | 45%N :: r => (true, r)
    | 43%N :: r => (false, r)
    | _ => (false, t)
    end in
  match t' with
  | c :: _ =>
    if isDigit c
    then Some (if neg : bool then (- digits_value t' 0)%Z else digits_value t' 0%Z)
    else None
  | [] => None
  end.

(** [`${n}`] for a non-negative integer. *)
Fixpoint uint_units (d : Decimal.uint) : jsstring :=
  match d with
  | Decimal.Nil => []
  | Decimal.D0 d' => 48%N :: uint_units d'
  | Decimal.D1 d' => 49%N :: uint_units d'
  | Decimal.D2 d' => 50%N :: uint_units d'
  | Decimal.D3 d' => 51%N :: uint_units d'
  | Decimal.D4 d' => 52%N :: uint_units d'
  | Decimal.D5 d' => 53%N :: uint_units d'
  | Decimal.D6 d' => 54%N :: uint_units d'
  | Decimal.D7 d' => 55%N :: uint_units d'
  | Decimal.D8 d' => 56%N :: uint_units d'
  | Decimal.D9 d' => 57%N :: uint_units d'
  end.

Definition numberToString (n : nat) : jsstring := uint_units (Nat.to_uint n).

Definition Qltb (x y : Q) : bool := negb (Qle_bool y x).

(** *** Exceptions *)

Inductive Result (A : Type) : Type :=
| Ok (a : A)
| Throw.
Arguments Ok {A} a.
Arguments Throw {A}.

Definition bind {A B} (c : Result A) (k : A -> Result B) : Result B :=
  match c with
  | Ok a => k a
  | Throw => Throw
  end.

(** [try { body } catch { handler }] *)
Definition try_catch {A} (body handler : Result A) : Result A :=
  match body with
  | Ok a => Ok a
  | Throw => handler
  end.

Fixpoint mapM {A B} (f : A -> Result B) (l : list A) : Result (list B) :=
  match l with
  | [] => Ok []
  | x :: l' => bind (f x) (fun y => bind (mapM f l') (fun ys => Ok (y :: ys)))
  end.

End JS.

Notation "x <- c ;; k" := (JS.bind c (fun x => k))
  (at level 61, c at next level, right associativity).

Import JS.

(** ** [src/lib/reranker.ts] *)

Module Reranker.

Record SearchMatch := {
  sm_content : jsstring;
  sm_filename : jsstring;
  sm_document_id : option jsstring;
  sm_page : option Z;
  sm_page_type : option jsstring;
  sm_score : Q
}.

Record RerankResult := {
  rr_content : jsstring;
  rr_filename : jsstring;
  rr_document_id : option jsstring;
  rr_page : option Z;
  rr_page_type : option jsstring;
  rr_score : Q;
  rr_originalScore : Q;
  rr_rerankScore : Q
}.

(** The comparator [(a, b) => b.score - a.score]. *)
Definition byScoreDesc (a b : RerankResult) : Q := (rr_score b - rr_score a)%Q.

(** *** [new RegExp(word, 'g')] and [content.match(..)]

    The query words are used as regular-expression sources, unescaped.  Two
    classes of sources are modelled exactly:
    - a source without syntax characters is a literal: its matches are the
      successive non-overlapping occurrences, and the empty source matches
      once at every position, the end included;
    - a source that begins with a quantifier ([*], [+] or [?]) is rejected
      by the constructor (nothing to repeat).
    Every other source is left to [regexp_other], an input of the model. *)

Inductive RegExpOutcome :=
| Matches (n : nat)
| SyntaxError.

Definition isSyntaxCharacter (c : N) : bool :=
  existsb (N.eqb c) [94; 36; 92; 46; 42; 43; 63; 40; 41; 91; 93; 123; 125; 124]%N.

Definition isQuantifierStart (c : N) : bool :=
  existsb (N.eqb c) [42; 43; 63]%N.

Definition isLiteralSource (word : jsstring) : bool :=
  forallb (fun c => negb (isSyntaxCharacter c)) word.

Fixpoint literal_matches (w s : jsstring) (skip : nat) : nat :=
  match s with
  | [] => match skip with 0 => if startsWith w [] then 1 else 0 | S _ => 0 end
  | _ :: s' =>
    match skip with
    | S k => literal_matches w s' k
    | 0 =>
      if startsWith w s then S (literal_matches w s' (length w - 1))
      else literal_matches w s' 0
    end
  end.

Section Engine.

Variable regexp_other : jsstring -> jsstring -> RegExpOutcome.

(** [(content.match(new RegExp(word, 'g')) || []).length] *)
Definition match_count (word content : jsstring) : RegExpOutcome :=
  if isLiteralSource word then Matches (literal_matches word content 0)
  else
    match word with
    | c :: _ => if isQuantifierStart c then SyntaxError else regexp_other word content
    | [] => regexp_other word content
    end.

(** [queryWords.reduce((score, word) => score + occurrences, 0)] *)
Fixpoint occurrences (content : jsstring) (queryWords : list jsstring) (score : nat)
  : Result nat :=
  match queryWords with
  | [] => Ok score
  | word :: rest =>
    match match_count word content with
    | Matches n => occurrences content rest (score + n)
    | SyntaxError => Throw
    end
  end.

Definition ratio (a b : nat) : Q := (inject_Z (Z.of_nat a) / inject_Z (Z.of_nat b))%Q.

(** The callback of [matches.map] in [rerankBySimilarity]. *)
Definition scoreMatch (queryWords : list jsstring) (m : SearchMatch)
  : Result RerankResult :=
  let content := toLowerCase (sm_content m) in
  total <- occurrences content queryWords 0 ;;
  let keywordScore := ratio total (length queryWords) in
  let lengthScore := Qmin 1 (ratio (length (sm_content m)) 1000) in
  let combinedScore :=
    ((sm_score m * 0.5) + (keywordScore * 0.3) + (lengthScore * 0.2))%Q in
  Ok {| rr_content := sm_content m;
        rr_filename := sm_filename m;
        rr_document_id := sm_document_id m;
        rr_page := sm_page m;
        rr_page_type := sm_page_type m;
        rr_score := combinedScore;
        rr_originalScore := sm_score m;
        rr_rerankScore := combinedScore |}.

(** The callback of the [catch] branch: the candidate unchanged. *)
Definition unscored (m : SearchMatch) : RerankResult :=
  {| rr_content := sm_content m;
     rr_filename := sm_filename m;
     rr_document_id := sm_document_id m;
     rr_page := sm_page m;
     rr_page_type := sm_page_type m;
     rr_score := sm_score m;
     rr_originalScore := sm_score m;
     rr_rerankScore := sm_score m |}.

Definition queryWordsOf (query : jsstring) : list jsstring :=
  split_runs isWhiteSpace (toLowerCase query).

(** The [try] block of [rerankBySimilarity]. *)
Definition rerankBySimilarity_try (query : jsstring) (matches : list SearchMatch)
  (topK : nat) : Result (list RerankResult) :=
  let queryWords := queryWordsOf query in
  scoredMatches <- mapM (scoreMatch queryWords) matches ;;
  Ok (firstn topK (sort byScoreDesc scoredMatches)).

Definition rerankBySimilarity (query : jsstring) (matches : list SearchMatch)
  (topK : nat) : Result (list RerankResult) :=
  try_catch
    (rerankBySimilarity_try query matches topK)
    (Ok (map unscored (firstn topK matches))).

(** *** The rerank endpoint *)

Record RerankItem := {
  index : Z;
  relevance_score : Q
}.

(** What the environment answers to the call of [rerankWithBGE]. *)
Inductive RerankEndpoint :=
| NoApiKey                                   (* SILICONFLOW_API_KEY unset *)
| FetchRejects                               (* fetch or response.json() rejects *)
| NotOk (status : nat)                       (* !response.ok *)
| Json (results : option (list RerankItem)). (* result.results when an array *)

(** The body of the request; [top_k] is the only place where [topK] enters
    the primary path. *)
Record RerankRequest := {
  req_query : jsstring;
  req_documents : list jsstring;
  req_top_k : nat
}.

Definition rerankRequest (query : jsstring) (matches : list SearchMatch)
  (topK : nat) : RerankRequest :=
  {| req_query := query;
     req_documents := map sm_content matches;
     req_top_k := Nat.min topK (length matches) |}.

(** [matches[item.index]] *)
Definition at_index (matches : list SearchMatch) (i : Z) : option SearchMatch :=
  if (i <? 0)%Z then None else nth_error matches (Z.to_nat i).

(** [x || y] on numbers *)
Definition orElse (x y : Q) : Q := if Qeq_bool x 0 then y else x.

(** The loop [for (const item of result.results)]. *)
Fixpoint collect (matches : list SearchMatch) (items : list RerankItem)
  : list RerankResult :=
  match items with
  | [] => []
  | item :: rest =>
    match at_index matches (index item) with
    | Some originalMatch =>
      let combinedScore :=
        ((sm_score originalMatch * 0.3) + (relevance_score item * 0.7))%Q in
      {| rr_content := sm_content originalMatch;
         rr_filename := sm_filename originalMatch;
         rr_document_id := sm_document_id originalMatch;
         rr_page := sm_page originalMatch;
         rr_page_type := sm_page_type originalMatch;
         rr_score := combinedScore;
         rr_originalScore := sm_score originalMatch;
         rr_rerankScore := orElse (relevance_score item) (sm_score originalMatch) |}
      :: collect matches rest
    | None => collect matches rest
    end
  end.

(** The [try] block of [rerankWithBGE]. *)
Definition rerankWithBGE_try (endpoint : RerankEndpoint) (query : jsstring)
  (matches : list SearchMatch) (topK : nat) : Result (list RerankResult) :=
  match matches with
  | [] => Ok []
  | _ :: _ =>
    match endpoint with
    | NoApiKey => rerankBySimilarity query matches topK
    | FetchRejects => Throw
    | NotOk _ => rerankBySimilarity query matches topK
    | Json results =>
      let rerankedResults :=
        match results with
        | Some items => collect matches items
        | None => []
        end in
      if length rerankedResults =? 0
      then rerankBySimilarity query matches topK
      else Ok (sort byScoreDesc rerankedResults)
    end
  end.

Definition rerankWithBGE (endpoint : RerankEndpoint) (query : jsstring)
  (matches : list SearchMatch) (topK : nat) : Result (list RerankResult) :=
  try_catch
    (rerankWithBGE_try endpoint query matches topK)
    (rerankBySimilarity query matches topK).

End Engine.

End Reranker.

(** ** [src/lib/recommendation-engine.ts] *)

Module Recommendation.

Record RecommendedQuestion := {
  id : jsstring;
  question : jsstring;
  category : jsstring;
  relevanceScore : Q;
  context : jsstring;
  source : option jsstring
}.

Record Message := {
  role : jsstring;
  msg_content : jsstring
}.

Record ConversationContext := {
  currentMessage : jsstring;
  previousMessages : list Message;
  topics : list jsstring;
  userIntent : jsstring
}.

Record RecommendationConfig := {
  maxRecommendations : nat;
  diversityThreshold : Q;
  relevanceThreshold : Q;
  categories : list jsstring
}.

(** The defaults of the constructor; [recommendationEngine] is built from
    them. *)
Definition defaultConfig : RecommendationConfig :=
  {| maxRecommendations := 3;
     diversityThreshold := 0.7;
     relevanceThreshold := 0.6;
     categories := [js "基础概念"; js "实践操作"; js "案例分析";
                    js "深入学习"; js "相关主题"] |}.

(** The value built by [analyzeContext]. *)
Record Analysis := {
  keywords : list jsstring;
  an_topics : list jsstring;
  intent : jsstring;
  conversationDepth : nat;
  lastUserMessage : jsstring
}.

Record SourceDoc := {
  sd_filename : jsstring;
  sd_content : jsstring
}.

Definition categoryWeights : list (jsstring * Q) :=
  [(js "基础概念", 0.8%Q); (js "实践操作", 0.9%Q); (js "案例分析", 0.85%Q);
   (js "深入学习", 0.75%Q); (js "相关主题", 0.7%Q)].

Fixpoint lookupWeight (table : list (jsstring * Q)) (key : jsstring) : option Q :=
  match table with
  | [] => None
  | (k, w) :: rest => if streq k key then Some w else lookupWeight rest key
  end.

Definition calculateRelevanceScore (q : RecommendedQuestion) (analysis : Analysis) : Q :=
  let keywordMatches :=
    length (filter (fun keyword =>
                      includes (toLowerCase keyword) (toLowerCase (question q)))
                   (keywords analysis)) in
  let score := (relevanceScore q + inject_Z (Z.of_nat keywordMatches) * 0.1)%Q in
  let weight :=
    match lookupWeight categoryWeights (category q) with
    | Some w => w
    | None => 0.7%Q
    end in
  Qmin (score * weight) 1.0.

Definition withScore (q : RecommendedQuestion) (s : Q) : RecommendedQuestion :=
  {| id := id q; question := question q; category := category q;
     relevanceScore := s; context := context q; source := source q |}.

Definition scoreQuestions (questions : list RecommendedQuestion) (analysis : Analysis)
  : list RecommendedQuestion :=
  sort (fun a b => (relevanceScore b - relevanceScore a)%Q)
       (map (fun q => withScore q (calculateRelevanceScore q analysis)) questions).

(** [Set.prototype.has] and [add] on a set of strings kept in insertion
    order. *)
Definition set_has (s : list jsstring) (x : jsstring) : bool := existsb (streq x) s.

Definition set_add (s : list jsstring) (x : jsstring) : list jsstring :=
  if set_has s x then s else s ++ [x].

Section Engine.

Variable config : RecommendationConfig.

(** The loop of [applyDiversityFilter]; the state is
    [(filtered, usedCategories)]. *)
Definition diversityStep (st : list RecommendedQuestion * list jsstring)
  (q : RecommendedQuestion) : list RecommendedQuestion * list jsstring :=
  let '(filtered, usedCategories) := st in
  if Qle_bool (relevanceThreshold config) (relevanceScore q)
  then
    if negb (set_has usedCategories (category q))
       || (length usedCategories <? length (categories config))
    then (filtered ++ [q], set_add usedCategories (category q))
    else st
  else st.

Definition applyDiversityFilter (questions : list RecommendedQuestion)
  : list RecommendedQuestion :=
  fst (fold_left diversityStep questions ([], [])).

(** The two steps that reach the embedding service, the vector index and
    the identifier generator are inputs: each returns or throws. *)
Variable analyzeContext : ConversationContext -> Result Analysis.
Variable generateCandidateQuestions :
  Analysis -> option (list SourceDoc) -> Result (list RecommendedQuestion).

(** The identifiers drawn by [uuidv4()] in the fallback. *)
Variable uuidv4 : nat -> jsstring.

Definition getFallbackRecommendations : list RecommendedQuestion :=
  [ {| id := uuidv4 0;
       question := js "电子商务的基本概念是什么？";
       category := js "基础概念";
       relevanceScore := 0.6;
       context := js "基础电商知识";
       source := None |};
    {| id := uuidv4 1;
       question := js "如何开始电商运营？";
       category := js "实践操作";
       relevanceScore := 0.6;
       context := js "电商运营入门";
       source := None |};
    {| id := uuidv4 2;
       question := js "直播电商有哪些优势？";
       category := js "相关主题";
       relevanceScore := 0.6;
       context := js "直播电商知识";
       source := None |} ].

(** The [try] block of [generateRecommendations]. *)
Definition generateRecommendations_try (context : ConversationContext)
  (sources : option (list SourceDoc)) : Result (list RecommendedQuestion) :=
  contextAnalysis <- analyzeContext context ;;
  candidateQuestions <- generateCandidateQuestions contextAnalysis sources ;;
  let scoredQuestions := scoreQuestions candidateQuestions contextAnalysis in
  let diverseQuestions := applyDiversityFilter scoredQuestions in
  Ok (firstn (maxRecommendations config) diverseQuestions).

Definition generateRecommendations (context : ConversationContext)
  (sources : option (list SourceDoc)) : Result (list RecommendedQuestion) :=
  try_catch
    (generateRecommendations_try context sources)
    (Ok getFallbackRecommendations).

End Engine.

End Recommendation.

(** ** [src/app/api/chat/route.ts] *)

Module Chat.

Import Reranker Recommendation.

(** *** Candidate gathering *)

(** [topK] of the primary index query, of the multimedia search and of the
    rerank call. *)
Definition queryTopK : nat := 15.
Definition multimediaTopK : nat := 8.
Definition rerankTopK : nat := 3.

Definition similarityFloor : Q := 0.6.

Inductive MetaPage :=
| PageNumber (n : Z)
| PageString (s : jsstring)
| PageOther.

Record Metadata := {
  md_full_content : option jsstring;
  md_filename : option jsstring;
  md_document_id : option jsstring;
  md_page : MetaPage;
  md_page_type : option jsstring
}.

Record PineconeMatch := {
  pm_score : option Q;
  pm_metadata : option Metadata
}.

(** [String(match.metadata?.field || '')] *)
Definition metaString (field : Metadata -> option jsstring) (m : PineconeMatch)
  : jsstring :=
  match pm_metadata m with
  | Some md => match field md with Some s => s | None => [] end
  | None => []
  end.

(** [match.score || 0] *)
Definition scoreOrZero (m : PineconeMatch) : Q :=
  match pm_score m with
  | Some s => s
  | None => 0
  end.

Definition pageOf (m : PineconeMatch) : option Z :=
  match pm_metadata m with
  | Some md =>
    match md_page md with
    | PageNumber n => Some n
    | PageString s =>
      match parseInt10 s with
      | Some n => if (n =? 0)%Z then None else Some n
      | None => None
      end
    | PageOther => None
    end
  | None => None
  end.

(** The predicate of the filter: [(match.score || 0) > 0.6]. *)
Definition aboveFloor (m : PineconeMatch) : bool :=
  Qltb similarityFloor (scoreOrZero m).

Definition toSearchMatch (m : PineconeMatch) : SearchMatch :=
  {| sm_content := metaString md_full_content m;
     sm_filename := metaString md_filename m;
     sm_document_id := Some (metaString md_document_id m);
     sm_page := pageOf m;
     sm_page_type := Some (metaString md_page_type m);
     sm_score := scoreOrZero m |}.

(** [searchResults.matches?.filter(..).map(..) || []] *)
Definition searchMatches (matches : option (list PineconeMatch)) : list SearchMatch :=
  match matches with
  | Some ms => map toSearchMatch (filter aboveFloor ms)
  | None => []
  end.

(** *** [buildEnhancedQuery] *)

Definition isDialogueRole (m : Message) : bool :=
  streq (role m) (js "user") || streq (role m) (js "assistant").

Definition shorten (m : Message) : jsstring :=
  if 200 <? length (msg_content m) then slice 0 100 (msg_content m)
  else msg_content m.

Definition buildEnhancedQuery (currentMessage : jsstring)
  (conversationHistory : list Message) : jsstring :=
  let recentMessages :=
    join (js " ") (map shorten (filter isDialogueRole (slice_last 6 conversationHistory))) in
  match trim recentMessages with
  | [] => currentMessage
  | _ :: _ =>
    let contextQuery := recentMessages ++ js " " ++ currentMessage in
    if 500 <? length contextQuery then slice 0 500 contextQuery ++ js "..."
    else contextQuery
  end.

(** *** Contexts *)

Record MultimediaResult := {
  mr_summary : option jsstring;
  mr_content : jsstring;
  mr_filename : jsstring;
  mr_score : Q;
  mr_file_type : jsstring;
  mr_content_type : jsstring;
  mr_page : option Z;
  mr_page_type : option jsstring
}.

Record MultimediaContext := {
  mc_content : jsstring;
  mc_filename : jsstring;
  mc_score : Q;
  mc_type : jsstring;
  mc_contentType : jsstring
}.

(** [relevantContext] copies the fields of the rerank results, so it is the
    list of rerank results itself. *)
Definition relevantContextOf (rerankedResults : list RerankResult) : list RerankResult :=
  rerankedResults.

(** [result.summary || result.content] *)
Definition summaryOrContent (r : MultimediaResult) : jsstring :=
  match mr_summary r with
  | Some (c :: s) => c :: s
  | _ => mr_content r
  end.

Definition multimediaContextOf (multimediaResults : list MultimediaResult)
  : list MultimediaContext :=
  map (fun result =>
         {| mc_content := summaryOrContent result;
            mc_filename := mr_filename result;
            mc_score := (mr_score result * 1.2)%Q;
            mc_type := mr_file_type result;
            mc_contentType := mr_content_type result |})
      multimediaResults.

(** *** Fusion of the sources *)

(** [`${index + 1}`] and [`M${index + 1}`] *)
Inductive ReferenceId :=
| DocumentRef (n : nat)
| MultimediaRef (n : nat).

(** [''], [' 第N页'] and [' 第N段'] *)
Inductive PageInfo :=
| NoPageInfo
| PageLabel (n : Z)
| ParagraphLabel (n : Z).

Record Source := {
  src_filename : jsstring;
  src_content : jsstring;
  src_score : Q;
  src_originalScore : option Q;
  src_rerankScore : option Q;
  src_type : jsstring;
  src_contentType : option jsstring;
  src_isMultimedia : bool;
  src_referenceId : ReferenceId;
  src_page : option Z;
  src_page_type : option jsstring;
  src_pageInfo : PageInfo
}.

(** [content.substring(0, 200) + '...'] *)
Definition snippet (content : jsstring) : jsstring := slice 0 200 content ++ js "...".

(** [if (page) ..]: a page is truthy when it is a non-zero number. *)
Definition truthyPage (page : option Z) : option Z :=
  match page with
  | Some n => if (n =? 0)%Z then None else Some n
  | None => None
  end.

Definition documentPageInfo (ctx : RerankResult) : PageInfo :=
  match truthyPage (rr_page ctx) with
  | Some n =>
    match rr_page_type ctx with
    | Some t => if streq t (js "chunk") then ParagraphLabel n else PageLabel n
    | None => PageLabel n
    end
  | None => NoPageInfo
  end.

Definition documentSource (entry : nat * RerankResult) : Source :=
  let '(index, ctx) := entry in
  {| src_filename := rr_filename ctx;
     src_content := snippet (rr_content ctx);
     src_score := rr_score ctx;
     src_originalScore := Some (rr_originalScore ctx);
     src_rerankScore := Some (rr_rerankScore ctx);
     src_type := js "document";
     src_contentType := None;
     src_isMultimedia := false;
     src_referenceId := DocumentRef (index + 1);
     src_page := rr_page ctx;
     src_page_type := rr_page_type ctx;
     src_pageInfo := documentPageInfo ctx |}.

Definition multimediaSource (entry : nat * (MultimediaContext * MultimediaResult))
  : Source :=
  let '(index, (ctx, originalResult)) := entry in
  {| src_filename := mc_filename ctx;
     src_content := snippet (mc_content ctx);
     src_score := mc_score ctx;
     src_originalScore := None;
     src_rerankScore := None;
     src_type := mc_type ctx;
     src_contentType := Some (mc_contentType ctx);
     src_isMultimedia := true;
     src_referenceId := MultimediaRef (index + 1);
     src_page := mr_page originalResult;
     src_page_type := mr_page_type originalResult;
     src_pageInfo :=
       match truthyPage (mr_page originalResult) with
       | Some n => PageLabel n
       | None => NoPageInfo
       end |}.

(** A JavaScript [Map] keyed by strings: the entries in insertion order;
    [set] on a present key replaces the value in place. *)
Definition JSMap (V : Type) : Type := list (jsstring * V).

Fixpoint map_get {V} (m : JSMap V) (k : jsstring) : option V :=
  match m with
  | [] => None
  | (k', v) :: m' => if streq k' k then Some v else map_get m' k
  end.

Fixpoint map_set {V} (m : JSMap V) (k : jsstring) (v : V) : JSMap V :=
  match m with
  | [] => [(k, v)]
  | (k', v') :: m' =>
    if streq k' k then (k', v) :: m' else (k', v') :: map_set m' k v
  end.

Definition map_values {V} (m : JSMap V) : list V := map snd m.

(** The body shared by the two [forEach] loops:
    [if (!uniqueSources.has(filename) || uniqueSources.get(filename).score < ctx.score)
       uniqueSources.set(filename, entry)]. *)
Definition keepHigher (uniqueSources : JSMap Source) (entry : Source) : JSMap Source :=
  match map_get uniqueSources (src_filename entry) with
  | None => map_set uniqueSources (src_filename entry) entry
  | Some present =>
    if Qltb (src_score present) (src_score entry)
    then map_set uniqueSources (src_filename entry) entry
    else uniqueSources
  end.

Definition indexed {A} (l : list A) : list (nat * A) := combine (seq 0 (length l)) l.

Definition documentEntries (relevantContext : list RerankResult) : list Source :=
  map documentSource (indexed relevantContext).

Definition multimediaEntries (multimediaResults : list MultimediaResult) : list Source :=
  map multimediaSource
      (indexed (combine (multimediaContextOf multimediaResults) multimediaResults)).

Definition uniqueSourcesOf (relevantContext : list RerankResult)
  (multimediaResults : list MultimediaResult) : JSMap Source :=
  fold_left keepHigher (multimediaEntries multimediaResults)
            (fold_left keepHigher (documentEntries relevantContext) []).

(** [Array.from(uniqueSources.values()).sort((a, b) => b.score - a.score)] *)
Definition allSources (relevantContext : list RerankResult)
  (multimediaResults : list MultimediaResult) : list Source :=
  sort (fun a b => (src_score b - src_score a)%Q)
       (map_values (uniqueSourcesOf relevantContext multimediaResults)).

(** *** The event stream *)

Record BriefSource := {
  bs_filename : jsstring;
  bs_content : jsstring;
  bs_score : Q
}.

Inductive SourcesPayload :=
| FusedSources (l : list Source)
| ContextSources (l : list BriefSource).

Record FinalData := {
  sources : SourcesPayload;
  recommendations : list RecommendedQuestion;
  hasRelevantContext : bool;
  multimediaCount : nat
}.

(** The two shapes written to the client: [{type: 'content', ..}] and
    [{type: 'final', ..}]. *)
Inductive Event :=
| ContentEvent (content : jsstring)
| FinalEvent (data : FinalData).

Inductive ControllerCall :=
| Enqueue (e : Event)
| CloseStream.

(** Code that writes to the controller and may throw: it extends the calls
    made so far and returns or throws. *)
Definition Stream (A : Type) : Type :=
  list ControllerCall -> list ControllerCall * Result A.

Definition sret {A} (a : A) : Stream A := fun calls => (calls, Ok a).

Definition sbind {A B} (c : Stream A) (k : A -> Stream B) : Stream B :=
  fun calls =>
    match c calls with
    | (calls', Ok a) => k a calls'
    | (calls', Throw) => (calls', Throw)
    end.

Definition sthrow {A} : Stream A := fun calls => (calls, Throw).

Definition lift {A} (r : Result A) : Stream A := fun calls => (calls, r).

Definition enqueue (e : Event) : Stream unit :=
  fun calls => (calls ++ [Enqueue e], Ok tt).

Definition close : Stream unit :=
  fun calls => (calls ++ [CloseStream], Ok tt).

Definition stry {A} (body handler : Stream A) : Stream A :=
  fun calls =>
    match body calls with
    | (calls', Ok a) => (calls', Ok a)
    | (calls', Throw) => handler calls'
    end.

Notation "x <~ c ;; k" := (sbind c (fun x => k))
  (at level 61, c at next level, right associativity).

Fixpoint foldS {A B} (f : B -> A -> Stream B) (l : list A) (b : B) : Stream B :=
  match l with
  | [] => sret b
  | x :: l' => b' <~ f b x ;; foldS f l' b'
  end.

(** What the completion service does once the response is open:
    [response.body] may be missing; otherwise [reader.read()] yields chunks
    and then resolves with [done] or rejects. *)
Inductive Ending :=
| ReadDone
| ReadRejects.

Inductive Upstream :=
| NoBody
| Body (chunks : list jsstring) (ending : Ending).

Definition defaultContent : jsstring := js "你好！我是AI助手，很高兴为您服务。".

Definition apology : jsstring := js "抱歉，AI服务暂时不可用，请稍后重试。".

Section Start.

(** [JSON.parse(data).choices?.[0]?.delta?.content] as a string; [None]
    when the parse throws or the field is missing.  The parser is an input
    of the model. *)
Variable delta_content : jsstring -> option jsstring.

(** The inputs of the recommendation engine (see [Recommendation]). *)
Variable analyzeContext : ConversationContext -> Result Analysis.
Variable generateCandidateQuestions :
  Analysis -> option (list SourceDoc) -> Result (list RecommendedQuestion).
Variable uuidv4 : nat -> jsstring.

Variable message : jsstring.
Variable conversationHistory : list Message.
Variable relevantContext : list RerankResult.
Variable multimediaResults : list MultimediaResult.

(** The payload selected from one line, when the line carries one. *)
Definition dataOf (line : jsstring) : option jsstring :=
  if startsWith (js "data: ") line then
    let data := sliceFrom 6 line in
    if streq data (js "[DONE]") then None else Some data
  else if startsWith (js "{") (trim line) && endsWith (js "}") (trim line)
  then Some (trim line)
  else None.

(** The body of [for (const line of lines)]. *)
Definition processLine (aiResponse line : jsstring) : Stream jsstring :=
  match dataOf line with
  | None => sret aiResponse
  | Some data =>
    if isEmpty (trim data) then sret aiResponse
    else
      match delta_content data with
      | Some (c :: content) =>
        _ <~ enqueue (ContentEvent (c :: content)) ;;
        sret (aiResponse ++ c :: content)
      | _ => sret aiResponse
      end
  end.

(** The body of [while (true)] for one chunk that was read. *)
Definition processChunk (aiResponse chunk : jsstring) : Stream jsstring :=
  if isEmpty (trim chunk) then sret aiResponse
  else foldS processLine (split 10%N chunk) aiResponse.

Definition readAll (upstream : Upstream) : Stream jsstring :=
  match upstream with
  | NoBody => sthrow
  | Body chunks ending =>
    aiResponse <~ foldS processChunk chunks [] ;;
    match ending with
    | ReadDone => sret aiResponse
    | ReadRejects => sthrow
    end
  end.

Definition conversationContext : ConversationContext :=
  {| currentMessage := message;
     previousMessages := slice_last 5 conversationHistory;
     topics := [];
     userIntent := [] |}.

Definition recommend : Result (list RecommendedQuestion) :=
  generateRecommendations defaultConfig analyzeContext generateCandidateQuestions
    uuidv4 conversationContext
    (Some (map (fun ctx => {| sd_filename := rr_filename ctx;
                              sd_content := rr_content ctx |})
               relevantContext)).

Definition finalData (recommendations : list RecommendedQuestion) : FinalData :=
  {| sources := FusedSources (allSources relevantContext multimediaResults);
     recommendations := recommendations;
     hasRelevantContext :=
       (0 <? length relevantContext)
       || (0 <? length (multimediaContextOf multimediaResults));
     multimediaCount := length (multimediaContextOf multimediaResults) |}.

Definition errorFinalData : FinalData :=
  {| sources :=
       ContextSources
         (map (fun ctx => {| bs_filename := rr_filename ctx;
                             bs_content := snippet (rr_content ctx);
                             bs_score := rr_score ctx |})
              relevantContext);
     recommendations := [];
     hasRelevantContext := 0 <? length relevantContext;
     multimediaCount := 0 |}.

(** The [try] block of [start(controller)]. *)
Definition start_try (upstream : Upstream) : Stream unit :=
  aiResponse <~ readAll upstream ;;
  _ <~ (if isEmpty (trim aiResponse)
        then enqueue (ContentEvent defaultContent)
        else sret tt) ;;
  recommendations <~ lift recommend ;;
  _ <~ enqueue (FinalEvent (finalData recommendations)) ;;
  close.

(** The [catch] block of [start(controller)]. *)
Definition start_catch : Stream unit :=
  _ <~ enqueue (ContentEvent apology) ;;
  _ <~ enqueue (FinalEvent errorFinalData) ;;
  close.

(** The calls made on the controller by [start], in order. *)
Definition start (upstream : Upstream) : list ControllerCall :=
  fst (stry (start_try upstream) start_catch []).

(** The end of [POST], from the call of the completion service on: the
    call may reject, or resolve with a status that is OK or not; only an OK
    response opens the event stream, the other two end in the outer [catch]
    with a JSON answer of status 500. *)
Inductive Completion :=
| CompletionRejects
| CompletionResponse (ok : bool) (upstream : Upstream).

Inductive Response :=
| JsonError (status : nat)
| EventStream (calls : list ControllerCall).

Definition respond (completion : Completion) : Response :=
  match completion with
  | CompletionRejects => JsonError 500
  | CompletionResponse false _ => JsonError 500
  | CompletionResponse true upstream => EventStream (start upstream)
  end.

End Start.

End Chat.

(** ** [src/lib/document-parser.ts]: the page-aware [chunkText] *)

Module DocumentParser.

Record Page := {
  pg_pageNumber : Z;
  pg_content : jsstring;
  pg_startChar : Z;
  pg_endChar : Z
}.

Record ChunkWithPage := {
  content : jsstring;
  pageNumber : option Z;
  startChar : Z;
  endChar : Z;
  chunkIndex : nat
}.

(** The class [[.!?]]. *)
Definition isTerminator (c : N) : bool := ((c =? 46) || (c =? 33) || (c =? 63))%N.

(** [text.split(/[.!?]+/).filter(s => s.trim().length > 0)] *)
Definition sentencesOf (text : jsstring) : list jsstring :=
  filter (fun s => 0 <? length (trim s)) (split_runs isTerminator text).

(** [words.slice(-Math.floor(overlap / 10))] with [words = currentChunk.split(' ')] *)
Definition overlapWordsOf (overlap : nat) (currentChunk : jsstring) : list jsstring :=
  slice_last (overlap / 10) (split 32%N currentChunk).

Definition len (s : jsstring) : Z := Z.of_nat (length s).

(** [currentChunk += (currentChunk ? ' ' : '') + sentence] *)
Definition extend (currentChunk sentence : jsstring) : jsstring :=
  currentChunk ++ (if isEmpty currentChunk then [] else js " ") ++ sentence.

(** [currentChunk = overlapWords.join(' ') + ' ' + sentence] *)
Definition reseed (overlapWords : list jsstring) (sentence : jsstring) : jsstring :=
  join (js " ") overlapWords ++ js " " ++ sentence.

(** *** Without page information *)

Record PlainState := {
  ps_chunks : list ChunkWithPage;
  ps_currentChunk : jsstring;
  ps_chunkIndex : nat;
  ps_currentPos : Z
}.

(** The body of [for (const sentence of sentences)]. *)
Definition plainStep (chunkSize overlap : nat) (st : PlainState) (sentence : jsstring)
  : PlainState :=
  let trimmedSentence := trim sentence in
  let currentChunk := ps_currentChunk st in
  let currentPos := ps_currentPos st in
  if (chunkSize <? length currentChunk + length trimmedSentence)
     && (0 <? length currentChunk)
  then
    {| ps_chunks :=
         ps_chunks st ++
         [ {| content := trim currentChunk;
              pageNumber := None;
              startChar := (currentPos - len currentChunk)%Z;
              endChar := (currentPos - 1)%Z;
              chunkIndex := ps_chunkIndex st |} ];
       ps_currentChunk := reseed (overlapWordsOf overlap currentChunk) trimmedSentence;
       ps_chunkIndex := S (ps_chunkIndex st);
       ps_currentPos := (currentPos + len trimmedSentence + 1)%Z |}
  else
    {| ps_chunks := ps_chunks st;
       ps_currentChunk := extend currentChunk trimmedSentence;
       ps_chunkIndex := ps_chunkIndex st;
       ps_currentPos := (currentPos + len trimmedSentence + 1)%Z |}.

Definition plainFlush (st : PlainState) : list ChunkWithPage :=
  if isEmpty (trim (ps_currentChunk st)) then ps_chunks st
  else
    ps_chunks st ++
    [ {| content := trim (ps_currentChunk st);
         pageNumber := None;
         startChar := (ps_currentPos st - len (ps_currentChunk st))%Z;
         endChar := (ps_currentPos st - 1)%Z;
         chunkIndex := ps_chunkIndex st |} ].

Definition chunkPlain (text : jsstring) (chunkSize overlap : nat) : list ChunkWithPage :=
  plainFlush
    (fold_left (plainStep chunkSize overlap) (sentencesOf text)
       {| ps_chunks := []; ps_currentChunk := []; ps_chunkIndex := 0;
          ps_currentPos := 0 |}).

(** *** With page information *)

(** The state across pages is [(chunks, chunkIndex)]; inside a large page the
    loop over its sentences adds [currentChunk] and [chunkStartChar]. *)
Record PageState := {
  gs_chunks : list ChunkWithPage;
  gs_chunkIndex : nat;
  gs_currentChunk : jsstring;
  gs_chunkStartChar : Z
}.

(** The body of [for (let i = 0; i < sentences.length; i++)]. *)
Definition pageSentenceStep (chunkSize overlap : nat) (page : Page) (st : PageState)
  (raw : jsstring) : PageState :=
  let sentence := trim raw in
  let currentChunk := gs_currentChunk st in
  if (chunkSize <? length currentChunk + length sentence)
     && (0 <? length currentChunk)
  then
    let chunkEndChar := (gs_chunkStartChar st + len currentChunk - 1)%Z in
    let overlapWords := overlapWordsOf overlap currentChunk in
    {| gs_chunks :=
         gs_chunks st ++
         [ {| content := trim currentChunk;
              pageNumber := Some (pg_pageNumber page);
              startChar := gs_chunkStartChar st;
              endChar := chunkEndChar;
              chunkIndex := gs_chunkIndex st |} ];
       gs_chunkIndex := S (gs_chunkIndex st);
       gs_currentChunk := reseed overlapWords sentence;
       gs_chunkStartChar := (chunkEndChar - len (join (js " ") overlapWords))%Z |}
  else
    {| gs_chunks := gs_chunks st;
       gs_chunkIndex := gs_chunkIndex st;
       gs_currentChunk := extend currentChunk sentence;
       gs_chunkStartChar := gs_chunkStartChar st |}.

(** The body of [for (const page of pages)]; the state is
    [(chunks, chunkIndex)]. *)
Definition pageStep (chunkSize overlap : nat)
  (acc : list ChunkWithPage * nat) (page : Page) : list ChunkWithPage * nat :=
  let '(chunks, chunkIndex) := acc in
  let pageText := pg_content page in
  if length pageText <=? chunkSize then
    (chunks ++
     [ {| content := pageText;
          pageNumber := Some (pg_pageNumber page);
          startChar := pg_startChar page;
          endChar := pg_endChar page;
          chunkIndex := chunkIndex |} ],
     S chunkIndex)
  else
    let st :=
      fold_left (pageSentenceStep chunkSize overlap page) (sentencesOf pageText)
        {| gs_chunks := chunks; gs_chunkIndex := chunkIndex;
           gs_currentChunk := []; gs_chunkStartChar := pg_startChar page |} in
    if isEmpty (trim (gs_currentChunk st)) then (gs_chunks st, gs_chunkIndex st)
    else
      (gs_chunks st ++
       [ {| content := trim (gs_currentChunk st);
            pageNumber := Some (pg_pageNumber page);
            startChar := gs_chunkStartChar st;
            endChar := pg_endChar page;
            chunkIndex := gs_chunkIndex st |} ],
       S (gs_chunkIndex st)).

Definition chunkPaged (pages : list Page) (chunkSize overlap : nat)
  : list ChunkWithPage :=
  fst (fold_left (pageStep chunkSize overlap) pages ([], 0)).

(** [chunkText(text, chunkSize = 1000, overlap = 200, pages?)] *)
Definition chunkText (text : jsstring) (chunkSize overlap : nat)
  (pages : option (list Page)) : list ChunkWithPage :=
  match pages with
  | Some (p :: ps) => chunkPaged (p :: ps) chunkSize overlap
  | _ => chunkPlain text chunkSize overlap
  end.

Definition defaultChunkSize : nat := 1000.
Definition defaultOverlap : nat := 200.

End DocumentParser.

(** ** [src/lib/file-queue.ts]: the file-backed queues *)

Module FileQueue.

Inductive QueueName :=
| FILE_PROCESSING
| EMBEDDING
| VECTOR_STORAGE.

(** The metadata attached to a chunk along the pipeline: the fields set by
    the chunker, then the ones added by [processFile] and
    [processEmbedding]. *)
Record Metadata := {
  chunkIndex : nat;
  totalChunks : nat;
  md_length : nat;
  startPosition : option nat;
  endPosition : option nat;
  md_documentId : option jsstring;
  md_fileName : option jsstring;
  md_fileType : option jsstring;
  md_userId : option jsstring;
  md_content : option jsstring
}.

Record Chunk := {
  chunk_id : jsstring;
  chunk_content : jsstring;
  chunk_metadata : Metadata
}.

Record Vector := {
  vec_id : jsstring;
  vec_values : option (list Q);
  vec_metadata : Metadata
}.

(** The three task interfaces share [id], [documentId], [createdAt],
    [retryCount?] and [maxRetries?]; they differ by their payload. *)
Inductive Payload :=
| FileProcessingPayload (userId fileName fileType blobUrl : jsstring)
| EmbeddingPayload (chunks : list Chunk)
| VectorStoragePayload (vectors : list Vector).

Record Task := {
  id : jsstring;
  documentId : jsstring;
  payload : Payload;
  createdAt : jsstring;
  retryCount : option nat;
  maxRetries : option nat
}.

(** The content of the directory [.queue]: one JSON array per queue. *)
Record Queues := {
  fileProcessing : list Task;
  embedding : list Task;
  vectorStorage : list Task
}.

Definition emptyQueues : Queues :=
  {| fileProcessing := []; embedding := []; vectorStorage := [] |}.

Definition readQueue (queueName : QueueName) (qs : Queues) : list Task :=
  match queueName with
  | FILE_PROCESSING => fileProcessing qs
  | EMBEDDING => embedding qs
  | VECTOR_STORAGE => vectorStorage qs
  end.

Definition writeQueue (queueName : QueueName) (items : list Task) (qs : Queues)
  : Queues :=
  match queueName with
  | FILE_PROCESSING =>
    {| fileProcessing := items; embedding := embedding qs;
       vectorStorage := vectorStorage qs |}
  | EMBEDDING =>
    {| fileProcessing := fileProcessing qs; embedding := items;
       vectorStorage := vectorStorage qs |}
  | VECTOR_STORAGE =>
    {| fileProcessing := fileProcessing qs; embedding := embedding qs;
       vectorStorage := items |}
  end.

Definition pushToQueue (queueName : QueueName) (task : Task) (qs : Queues) : Queues :=
  writeQueue queueName (readQueue queueName qs ++ [task]) qs.

Definition popFromQueue (queueName : QueueName) (qs : Queues) : option Task * Queues :=
  match readQueue queueName qs with
  | [] => (None, qs)
  | task :: items => (Some task, writeQueue queueName items qs)
  end.


(** [task.retryCount || 0] *)
Definition retryCountOr0 (task : Task) : nat :=
  match retryCount task with
  | Some n => n
  | None => 0
  end.

(** [task.maxRetries || 3]: an absent bound and the bound [0] both read as
    [3]. *)
Definition maxRetriesOr3 (task : Task) : nat :=
  match maxRetries task with
  | Some (S n) => S n
  | _ => 3
  end.

Definition withRetry (task : Task) (rc : option nat) (mr : option nat) : Task :=
  {| id := id task; documentId := documentId task; payload := payload task;
     createdAt := createdAt task; retryCount := rc; maxRetries := mr |}.

(** [{ ...task, retryCount: task.retryCount || 0, maxRetries: task.maxRetries || 3 }] *)
Definition taskWithDefaults (task : Task) : Task :=
  withRetry task (Some (retryCountOr0 task)) (Some (maxRetriesOr3 task)).

Definition pushFileProcessingTask (task : Task) (qs : Queues) : Queues :=
  pushToQueue FILE_PROCESSING (taskWithDefaults task) qs.

Definition pushEmbeddingTask (task : Task) (qs : Queues) : Queues :=
  pushToQueue EMBEDDING (taskWithDefaults task) qs.

Definition pushVectorStorageTask (task : Task) (qs : Queues) : Queues :=
  pushToQueue VECTOR_STORAGE (taskWithDefaults task) qs.

Definition popFileProcessingTask (qs : Queues) : option Task * Queues :=
  popFromQueue FILE_PROCESSING qs.

Definition popEmbeddingTask (qs : Queues) : option Task * Queues :=
  popFromQueue EMBEDDING qs.

Definition popVectorStorageTask (qs : Queues) : option Task * Queues :=
  popFromQueue VECTOR_STORAGE qs.

(** [retryFailedTask(queueName, task)]: the boolean returned and the queues
    afterwards. *)
Definition retryFailedTask (queueName : QueueName) (task : Task) (qs : Queues)
  : bool * Queues :=
  let retryCount' := retryCountOr0 task + 1 in
  let maxRetries' := maxRetriesOr3 task in
  if retryCount' <=? maxRetries'
  then
    let retryTask := withRetry task (Some retryCount') (maxRetries task) in
    (true, pushToQueue queueName retryTask qs)
  else (false, qs).

End FileQueue.

(** ** [src/workers/file-processor.ts] *)

Module Worker.

Import FileQueue.

(** *** The character-window [chunkText] *)

Definition chunkMetadata (chunkIndex totalChunks length : nat)
  (startPosition endPosition : option nat) : Metadata :=
  {| chunkIndex := chunkIndex;
     totalChunks := totalChunks;
     md_length := length;
     startPosition := startPosition;
     endPosition := endPosition;
     md_documentId := None;
     md_fileName := None;
     md_fileType := None;
     md_userId := None;
     md_content := None |}.

(** [`chunk_${chunkIndex}`] *)
Definition chunkName (chunkIndex : nat) : jsstring :=
  js "chunk_" ++ numberToString chunkIndex.

Definition num (n : nat) : Q := inject_Z (Z.of_nat n).

(** The value of [end] after the search for a break point. *)
Definition windowEnd (cleanText : jsstring) (chunkSize start : nat) : nat :=
  let end_ := start + chunkSize in
  if end_ <? length cleanText then
    let lastPeriod := lastIndexOf 46%N cleanText (Z.of_nat end_) in
    let lastNewline := lastIndexOf 10%N cleanText (Z.of_nat end_) in
    let lastSpace := lastIndexOf 32%N cleanText (Z.of_nat end_) in
    let breakPoint := Z.max (Z.max lastPeriod lastNewline) lastSpace in
    if Qltb (num start + num chunkSize * 0.5)%Q (inject_Z breakPoint)
    then Z.to_nat (breakPoint + 1)
    else end_
  else end_.

(** [start = Math.max(end - overlap, start + 1)].  On naturals the
    difference stops at [0], which is below [start + 1] like the negative
    difference it stands for. *)
Definition nextStart (end_ overlap start : nat) : nat :=
  Nat.max (end_ - overlap) (start + 1).

(** The loop [while (start < cleanText.length)].  [fuel] bounds the number
    of iterations; [None] means the bound was reached with the condition
    still true. *)
Fixpoint windowLoop (fuel : nat) (cleanText : jsstring) (chunkSize overlap : nat)
  (start chunkIndex : nat) (chunks : list Chunk) : option (list Chunk) :=
  if start <? length cleanText then
    match fuel with
    | 0 => None
    | S fuel' =>
      let end_ := windowEnd cleanText chunkSize start in
      let chunkContent := trim (slice start end_ cleanText) in
      if 0 <? length chunkContent then
        windowLoop fuel' cleanText chunkSize overlap
          (nextStart end_ overlap start) (chunkIndex + 1)
          (chunks ++
           [ {| chunk_id := chunkName chunkIndex;
                chunk_content := chunkContent;
                chunk_metadata :=
                  chunkMetadata chunkIndex 0 (length chunkContent)
                    (Some start) (Some end_) |} ])
      else
        windowLoop fuel' cleanText chunkSize overlap
          (nextStart end_ overlap start) chunkIndex chunks
    end
  else Some chunks.

(** [chunk.metadata.totalChunks = chunks.length] *)
Definition setTotalChunks (total : nat) (chunk : Chunk) : Chunk :=
  let m := chunk_metadata chunk in
  {| chunk_id := chunk_id chunk;
     chunk_content := chunk_content chunk;
     chunk_metadata :=
       {| chunkIndex := chunkIndex m;
          totalChunks := total;
          md_length := md_length m;
          startPosition := startPosition m;
          endPosition := endPosition m;
          md_documentId := md_documentId m;
          md_fileName := md_fileName m;
          md_fileType := md_fileType m;
          md_userId := md_userId m;
          md_content := md_content m |} |}.

(** [text.replace(/\s+/g, ' ').trim()] *)
Definition cleanTextOf (text : jsstring) : jsstring :=
  trim (replace_ws_runs text false).

(** [chunkText(text, chunkSize = 1000, overlap = 200)]; the loop is given
    [cleanText.length] iterations. *)
Definition chunkText (text : jsstring) (chunkSize overlap : nat)
  : option (list Chunk) :=
  let cleanText := cleanTextOf text in
  if length cleanText <=? chunkSize then
    Some [ {| chunk_id := chunkName 0;
              chunk_content := cleanText;
              chunk_metadata :=
                chunkMetadata 0 1 (length cleanText) None None |} ]
  else
    match windowLoop (length cleanText) cleanText chunkSize overlap 0 0 [] with
    | Some chunks => Some (map (setTotalChunks (length chunks)) chunks)
    | None => None
    end.

(** *** Documents *)

Inductive Status :=
| pending
| processing
| completed
| failed.

(** A record of the collection [knowledge_docs]; the text of the error is
    not modelled, only that one was stored. *)
Record Document := {
  status : Status;
  hasError : bool;
  chunksCount : option nat;
  vectorsCount : option nat
}.

(** The collection, keyed by [_id]. *)
Definition Database := list (jsstring * Document).

Fixpoint findOne (db : Database) (docId : jsstring) : option Document :=
  match db with
  | [] => None
  | (k, d) :: db' => if streq k docId then Some d else findOne db' docId
  end.

(** [collection.updateOne({ _id }, { $set: .. })]: the first record with
    that [_id], if any. *)
Fixpoint updateOne (db : Database) (docId : jsstring) (set : Document -> Document)
  : Database :=
  match db with
  | [] => []
  | (k, d) :: db' =>
    if streq k docId then (k, set d) :: db' else (k, d) :: updateOne db' docId set
  end.

Definition setProcessing (chunks : nat) (d : Document) : Document :=
  {| status := processing; hasError := hasError d;
     chunksCount := Some chunks; vectorsCount := vectorsCount d |}.

Definition setFailed (d : Document) : Document :=
  {| status := failed; hasError := true;
     chunksCount := chunksCount d; vectorsCount := vectorsCount d |}.

Definition setCompleted (vectors : nat) (d : Document) : Document :=
  {| status := completed; hasError := hasError d;
     chunksCount := chunksCount d; vectorsCount := Some vectors |}.

(** *** The environment

    Every call that leaves the process is an input, indexed by the number
    of the worker iteration in which it is made: it returns or throws. *)
Record Env := {
  download : nat -> jsstring -> Result (list N);
  parsePDF : nat -> list N -> Result jsstring;
  parseWord : nat -> list N -> Result jsstring;
  parseImage : nat -> list N -> Result jsstring;
  decodeText : list N -> jsstring;
  (* the three database writes: [true] when [getDatabase] and [updateOne]
     both resolve *)
  writeProcessing : nat -> bool;
  writeFailed : nat -> bool;
  writeCompleted : nat -> bool;
  (* [batchEmbeddings(texts)]: the vectors of all batches, or a throw when
     the call for one batch fails *)
  batchEmbeddings : nat -> list jsstring -> Result (list (list Q));
  upsert : nat -> list Vector -> Result unit;
  dateNow : nat -> jsstring;
  isoNow : nat -> jsstring
}.

(** A handler returns the queues and the database it leaves, and whether it
    returned or threw. *)
Definition Outcome : Type := Queues * Database * Result unit.

Definition parseByType (env : Env) (now : nat) (fileType : jsstring)
  (fileBuffer : list N) : Result jsstring :=
  if streq fileType (js "application/pdf") then parsePDF env now fileBuffer
  else if includes (js "word") fileType || includes (js "document") fileType
  then parseWord env now fileBuffer
  else if startsWith (js "image/") fileType then parseImage env now fileBuffer
  else if streq fileType (js "text/plain") then Ok (decodeText env fileBuffer)
  else Throw.

Definition tagChunk (task : Task) (fileName fileType userId : jsstring)
  (chunk : Chunk) : Chunk :=
  let m := chunk_metadata chunk in
  {| chunk_id := chunk_id chunk;
     chunk_content := chunk_content chunk;
     chunk_metadata :=
       {| chunkIndex := chunkIndex m;
          totalChunks := totalChunks m;
          md_length := md_length m;
          startPosition := startPosition m;
          endPosition := endPosition m;
          md_documentId := Some (documentId task);
          md_fileName := Some fileName;
          md_fileType := Some fileType;
          md_userId := Some userId;
          md_content := md_content m |} |}.

(** The [catch] block shared by [processFile] and [processVectorStorage]:
    try to store the status [failed], swallow a failure of that write, and
    throw the error again. *)
Definition markFailedAndRethrow (env : Env) (now : nat) (task : Task)
  (qs : Queues) (db : Database) : Outcome :=
  (qs,
   if writeFailed env now then updateOne db (documentId task) setFailed else db,
   Throw).

Definition processFile (env : Env) (now : nat) (task : Task)
  (qs : Queues) (db : Database) : Outcome :=
  match payload task with
  | FileProcessingPayload userId fileName fileType blobUrl =>
    let parsed :=
      (if isEmpty blobUrl then Throw
       else
         fileBuffer <- download env now blobUrl ;;
         content <- parseByType env now fileType fileBuffer ;;
         match chunkText content 1000 200 with
         | Some chunks => Ok chunks
         | None => Throw
         end) in
    match parsed with
    | Throw => markFailedAndRethrow env now task qs db
    | Ok chunks =>
      if writeProcessing env now then
        let db' := updateOne db (documentId task) (setProcessing (length chunks)) in
        let embeddingTask :=
          {| id := js "embedding_" ++ documentId task ++ js "_" ++ dateNow env now;
             documentId := documentId task;
             payload :=
               EmbeddingPayload (map (tagChunk task fileName fileType userId) chunks);
             createdAt := isoNow env now;
             retryCount := None;
             maxRetries := None |} in
        (pushEmbeddingTask embeddingTask qs, db', Ok tt)
      else markFailedAndRethrow env now task qs db
    end
  | _ => markFailedAndRethrow env now task qs db
  end.

Definition withContent (chunk : Chunk) (docId : jsstring) : Metadata :=
  let m := chunk_metadata chunk in
  {| chunkIndex := chunkIndex m;
     totalChunks := totalChunks m;
     md_length := md_length m;
     startPosition := startPosition m;
     endPosition := endPosition m;
     md_documentId := Some docId;
     md_fileName := md_fileName m;
     md_fileType := md_fileType m;
     md_userId := md_userId m;
     md_content := Some (chunk_content chunk) |}.

(** [processEmbedding]: its [catch] block logs and throws again; it does
    not write to the database. *)
Definition processEmbedding (env : Env) (now : nat) (task : Task)
  (qs : Queues) (db : Database) : Outcome :=
  match payload task with
  | EmbeddingPayload chunks =>
    let texts := map chunk_content chunks in
    match batchEmbeddings env now texts with
    | Throw => (qs, db, Throw)
    | Ok embeddings =>
      let vectors :=
        map (fun entry : nat * Chunk =>
               let '(index, chunk) := entry in
               {| vec_id := documentId task ++ js "_" ++ chunk_id chunk;
                  vec_values := nth_error embeddings index;
                  vec_metadata := withContent chunk (documentId task) |})
            (combine (seq 0 (length chunks)) chunks) in
      let vectorTask :=
        {| id := js "vector_" ++ documentId task ++ js "_" ++ dateNow env now;
           documentId := documentId task;
           payload := VectorStoragePayload vectors;
           createdAt := isoNow env now;
           retryCount := None;
           maxRetries := None |} in
      (pushVectorStorageTask vectorTask qs, db, Ok tt)
    end
  | _ => (qs, db, Throw)
  end.

Definition processVectorStorage (env : Env) (now : nat) (task : Task)
  (qs : Queues) (db : Database) : Outcome :=
  match payload task with
  | VectorStoragePayload vectors =>
    match upsert env now vectors with
    | Throw => markFailedAndRethrow env now task qs db
    | Ok _ =>
      if writeCompleted env now
      then (qs, updateOne db (documentId task) (setCompleted (length vectors)), Ok tt)
      else markFailedAndRethrow env now task qs db
    end
  | _ => markFailedAndRethrow env now task qs db
  end.

(** *** The worker loop *)

(** What the loop writes to the console about a task. *)
Inductive LogEntry :=
| Found (queueName : QueueName) (taskId : jsstring)
| Done (queueName : QueueName) (taskId : jsstring)
| Failed (queueName : QueueName) (taskId : jsstring)
| GaveUp (queueName : QueueName) (taskId : jsstring).

Record State := {
  queues : Queues;
  database : Database;
  clock : nat;
  log : list LogEntry
}.

(** The block repeated for each queue in [startWorker]: run the handler on
    the task that was popped and, when it throws, call [retryFailedTask]. *)
Definition runTask (queueName : QueueName)
  (handler : Task -> Queues -> Database -> Outcome)
  (task : Task) (qs : Queues) (st : State) : State :=
  match handler task qs (database st) with
  | (qs', db', Ok _) =>
    {| queues := qs'; database := db'; clock := S (clock st);
       log := log st ++ [Found queueName (id task); Done queueName (id task)] |}
  | (qs', db', Throw) =>
    let '(retried, qs'') := retryFailedTask queueName task qs' in
    {| queues := qs''; database := db'; clock := S (clock st);
       log := log st ++ [Found queueName (id task); Failed queueName (id task)]
                     ++ (if retried : bool then [] else [GaveUp queueName (id task)]) |}
  end.

(** One iteration of [while (true)] in [startWorker]. *)
Definition workerIteration (env : Env) (st : State) : State :=
  let now := clock st in
  match popFileProcessingTask (queues st) with
  | (Some fileTask, qs) => runTask FILE_PROCESSING (processFile env now) fileTask qs st
  | (None, _) =>
    match popEmbeddingTask (queues st) with
    | (Some embeddingTask, qs) =>
      runTask EMBEDDING (processEmbedding env now) embeddingTask qs st
    | (None, _) =>
      match popVectorStorageTask (queues st) with
      | (Some vectorTask, qs) =>
        runTask VECTOR_STORAGE (processVectorStorage env now) vectorTask qs st
      | (None, _) =>
        {| queues := queues st; database := database st; clock := S (clock st);
           log := log st |}
      end
    end
  end.

Fixpoint iterations (env : Env) (n : nat) (st : State) : State :=
  match n with
  | 0 => st
  | S n' => iterations env n' (workerIteration env st)
  end.

End Worker.
From Stdlib Require Import DecimalNat.


(** ** [file-queue.ts], continued: status and maintenance *)

Module QueueAdmin.

Import FileQueue.





Definition clearQueue (queueName : QueueName) (qs : Queues) : Queues :=
  writeQueue queueName [] qs.


End QueueAdmin.

(** ** [src/lib/document-parser.ts], continued: [parseDocument],
    [getFileType], [chunkTextSimple] *)

Module Parsing.

Import DocumentParser.

(** [s.indexOf(c, pos)] for a one-unit search string and [0 <= pos]: the
    least index [i >= pos] with [s[i] = c], or [-1]. *)
Fixpoint indexOf_scan (c : N) (s : jsstring) (i pos : Z) : Z :=
  match s with
  | [] => (-1)%Z
  | x :: s' =>
    if ((pos <=? i)%Z && (x =? c)%N)%bool then i
    else indexOf_scan c s' (i + 1)%Z pos
  end.

Definition indexOf (c : N) (s : jsstring) (pos : Z) : Z := indexOf_scan c s 0%Z pos.

(** [s.split('\n\n')]: the separators are found from left to right and do
    not overlap. *)
Fixpoint splitParagraphs_aux (s cur : jsstring) : list jsstring :=
  match s with
  | [] => [rev cur]
  | 10%N :: 10%N :: s' => rev cur :: splitParagraphs_aux s' []
  | c :: s' => splitParagraphs_aux s' (c :: cur)
  end.

Definition splitParagraphs (s : jsstring) : list jsstring := splitParagraphs_aux s [].

(** [a.slice(start, end)] on an array, for [0 <= start], [0 <= end]. *)
Definition sliceArray {A} (start end_ : nat) (l : list A) : list A :=
  firstn (end_ - start) (skipn start l).

(** [Math.ceil(a / b)] for integers [0 <= a], [0 < b]. *)
Definition ceilDiv (a b : nat) : nat := (a + b - 1) / b.

(** [getFileType(mimeType, filename)] *)
Definition getFileType (mimeType filename : jsstring) : Result jsstring :=
  if streq mimeType (js "application/pdf") then Ok (js "pdf")
  else if streq mimeType
            (js "application/vnd.openxmlformats-officedocument.wordprocessingml.document")
  then Ok (js "docx")
  else if streq mimeType (js "text/plain") then Ok (js "txt")
  else
    let extension := last (split 46%N (toLowerCase filename)) [] in
    if streq extension (js "pdf") then Ok (js "pdf")
    else if streq extension (js "docx") then Ok (js "docx")
    else if streq extension (js "txt") then Ok (js "txt")
    else Throw.

Record ParsedDocument := {
  pd_content : jsstring;
  pd_pages : option (list Page);
  pd_filename : jsstring;
  pd_fileType : jsstring;
  pd_size : nat;
  pd_pageCount : option nat
}.

(** *** The pages of a PDF: the text is cut into [pageCount] parts of equal
    length, each cut moved to the next full stop or line break when that is
    near. *)

Definition pdfPageEnd (text : jsstring) (pageCount avgCharsPerPage i currentPos : nat)
  : nat :=
  let endChar := Nat.min (currentPos + avgCharsPerPage) (length text) in
  if (i <? pageCount) && (endChar <? length text) then
    let nextPeriod := indexOf 46%N text (Z.of_nat endChar) in
    let nextNewline := indexOf 10%N text (Z.of_nat endChar) in
    let breakPoint :=
      Z.min (if (-1 <? nextPeriod)%Z then (nextPeriod + 1)%Z else len text)
            (if (-1 <? nextNewline)%Z then (nextNewline + 1)%Z else len text) in
    if (Z.of_nat endChar <? breakPoint)%Z
       && Qltb (inject_Z (breakPoint - Z.of_nat endChar))
               (inject_Z (Z.of_nat avgCharsPerPage) * 0.3)%Q
    then Z.to_nat breakPoint
    else endChar
  else endChar.

(** The body of [for (let i = 1; i <= pageCount; i++)]; the state is
    [(pages, currentPos)]. *)
Definition pdfPageStep (text : jsstring) (pageCount avgCharsPerPage : nat)
  (st : list Page * nat) (i : nat) : list Page * nat :=
  let '(pages, currentPos) := st in
  let startChar := currentPos in
  let endChar := pdfPageEnd text pageCount avgCharsPerPage i currentPos in
  let pageContent := trim (slice startChar endChar text) in
  (if isEmpty pageContent then pages
   else pages ++ [ {| pg_pageNumber := Z.of_nat i;
                      pg_content := pageContent;
                      pg_startChar := Z.of_nat startChar;
                      pg_endChar := (Z.of_nat endChar - 1)%Z |} ],
   endChar).

Definition pdfPages (text : jsstring) (pageCount : nat) : option (list Page) :=
  if negb (isEmpty text) && (1 <? pageCount) then
    let avgCharsPerPage := ceilDiv (length text) pageCount in
    Some (fst (fold_left (pdfPageStep text pageCount avgCharsPerPage)
                 (seq 1 pageCount) ([], 0)))
  else None.

(** *** The pages of a Word document: paragraphs are gathered while the
    page stays within 2000 code units. *)

Record DocxState := {
  dx_pages : list Page;
  dx_currentPage : nat;
  dx_currentPageContent : jsstring;
  dx_currentPos : Z
}.

(** The body of [for (const paragraph of paragraphs)]. *)
Definition docxStep (st : DocxState) (paragraph : jsstring) : DocxState :=
  let currentPageContent := dx_currentPageContent st in
  let currentPos := dx_currentPos st in
  if (2000 <? length currentPageContent + length paragraph)
     && negb (isEmpty currentPageContent)
  then
    {| dx_pages :=
         dx_pages st ++
         [ {| pg_pageNumber := Z.of_nat (dx_currentPage st);
              pg_content := trim currentPageContent;
              pg_startChar := (currentPos - len currentPageContent)%Z;
              pg_endChar := (currentPos - 1)%Z |} ];
       dx_currentPage := S (dx_currentPage st);
       dx_currentPageContent := paragraph ++ [10; 10]%N;
       dx_currentPos := (currentPos + len paragraph + 2)%Z |}
  else
    {| dx_pages := dx_pages st;
       dx_currentPage := dx_currentPage st;
       dx_currentPageContent := currentPageContent ++ paragraph ++ [10; 10]%N;
       dx_currentPos := (currentPos + len paragraph + 2)%Z |}.

Definition docxFlush (st : DocxState) : list Page :=
  if isEmpty (trim (dx_currentPageContent st)) then dx_pages st
  else
    dx_pages st ++
    [ {| pg_pageNumber := Z.of_nat (dx_currentPage st);
         pg_content := trim (dx_currentPageContent st);
         pg_startChar := (dx_currentPos st - len (dx_currentPageContent st))%Z;
         pg_endChar := (dx_currentPos st - 1)%Z |} ].

(** [content.split('\n\n').filter(p => p.trim())] *)
Definition paragraphsOf (content : jsstring) : list jsstring :=
  filter (fun p => negb (isEmpty (trim p))) (splitParagraphs content).

Definition docxPages (content : jsstring) : option (list Page) :=
  if 2000 <? length content then
    Some (docxFlush
            (fold_left docxStep (paragraphsOf content)
               {| dx_pages := []; dx_currentPage := 1;
                  dx_currentPageContent := []; dx_currentPos := 0 |}))
  else None.

(** *** The pages of a text file: a fixed number of lines each. *)

(** [Math.max(50, Math.ceil(lines.length / Math.ceil(content.length / 1000)))] *)
Definition linesPerPageOf (content : jsstring) (lines : list jsstring) : nat :=
  Nat.max 50 (ceilDiv (length lines) (ceilDiv (length content) 1000)).

(** The loop [for (let i = 0; i < lines.length; i += linesPerPage)].
    [fuel] bounds the number of iterations; [None] means the bound was
    reached with the condition still true. *)
Fixpoint txtLoop (fuel : nat) (lines : list jsstring) (linesPerPage i : nat)
  (currentPos : Z) (pages : list Page) : option (list Page) :=
  if i <? length lines then
    match fuel with
    | 0 => None
    | S fuel' =>
      let pageLines := sliceArray i (i + linesPerPage) lines in
      let pageContent := join [10%N] pageLines in
      let startChar := currentPos in
      let endChar := (currentPos + len pageContent - 1)%Z in
      txtLoop fuel' lines linesPerPage (i + linesPerPage)
        (currentPos + len pageContent + 1)%Z
        (pages ++
         [ {| pg_pageNumber := Z.of_nat (i / linesPerPage + 1);
              pg_content := pageContent;
              pg_startChar := startChar;
              pg_endChar := endChar |} ])
    end
  else Some pages.

(** The loop is given [lines.length] iterations. *)
Definition txtPages (content : jsstring) : option (option (list Page)) :=
  if 1000 <? length content then
    let lines := split 10%N content in
    match txtLoop (length lines) lines (linesPerPageOf content lines) 0 0%Z [] with
    | Some pages => Some (Some pages)
    | None => None
    end
  else Some None.

(** *** [parseDocument] *)

Section ParseDocument.

(** The parsers of the libraries: [pdf-parse] gives the text and the number
    of pages, [mammoth.extractRawText] the text; both may throw.
    [buffer.toString('utf-8')] does not throw. *)
Variable pdfParser : list N -> Result (jsstring * nat).
Variable extractRawText : list N -> Result jsstring.
Variable toUtf8 : list N -> jsstring.

(** The [switch]: the content, the pages and the page count of the parser.
    A loop that exhausts its fuel is reported as [None]. *)
Definition parseByFileType (fileType : jsstring) (buffer : list N)
  : option (Result (jsstring * option (list Page) * option nat)) :=
  if streq fileType (js "pdf") then
    Some (pdfData <- pdfParser buffer ;;
          let '(text, numpages) := pdfData in
          Ok (text, pdfPages text numpages, Some numpages))
  else if streq fileType (js "docx") then
    Some (content <- extractRawText buffer ;;
          Ok (content, docxPages content, None))
  else if streq fileType (js "txt") then
    let content := toUtf8 buffer in
    match txtPages content with
    | Some pages => Some (Ok (content, pages, None))
    | None => None
    end
  else Some Throw.

Definition parseDocument (buffer : list N) (filename mimeType : jsstring)
  : option (Result ParsedDocument) :=
  match getFileType mimeType filename with
  | Throw => Some Throw
  | Ok fileType =>
    match parseByFileType fileType buffer with
    | None => None
    | Some Throw => Some Throw
    | Some (Ok (content, pages, pageCount)) =>
      if isEmpty (trim content) then Some Throw
      else
        Some (Ok {| pd_content := trim content;
                    pd_pages := pages;
                    pd_filename := filename;
                    pd_fileType := fileType;
                    pd_size := length buffer;
                    pd_pageCount :=
                      match pages with
                      | Some ps => Some (length ps)
                      | None => pageCount
                      end |})
    end
  end.

End ParseDocument.

(** [chunkTextSimple(text, chunkSize = 1000, overlap = 200)] *)
Definition chunkTextSimple (text : jsstring) (chunkSize overlap : nat)
  : list jsstring :=
  map content (chunkText text chunkSize overlap None).

End Parsing.

(** ** [lib/document-parser.ts] as it was before pages: the chunker that
    returns strings *)

Module LegacyParser.

Import DocumentParser.

(** The body of [for (const sentence of sentences)]; the state is
    [(chunks, currentChunk)]. *)
Definition legacyStep (chunkSize overlap : nat) (st : list jsstring * jsstring)
  (sentence : jsstring) : list jsstring * jsstring :=
  let '(chunks, currentChunk) := st in
  let trimmedSentence := trim sentence in
  if (chunkSize <? length currentChunk + length trimmedSentence)
     && (0 <? length currentChunk)
  then (chunks ++ [trim currentChunk],
        reseed (overlapWordsOf overlap currentChunk) trimmedSentence)
  else (chunks, extend currentChunk trimmedSentence).

(** [chunkText(text, chunkSize = 1000, overlap = 200): string[]] *)
Definition chunkText (text : jsstring) (chunkSize overlap : nat) : list jsstring :=
  let '(chunks, currentChunk) :=
    fold_left (legacyStep chunkSize overlap) (sentencesOf text) ([], []) in
  if isEmpty (trim currentChunk) then chunks else chunks ++ [trim currentChunk].

End LegacyParser.

(** ** [src/lib/recommendation-engine.ts], continued: [extractKeywords] *)

Module Keywords.

Import Recommendation Chat.

(** The class [[，。！？；：]]. *)
Definition punctuation : jsstring := js "，。！？；：".

Definition isPunctuation (c : N) : bool := existsb (N.eqb c) punctuation.

(** [text.split(/\s+|[，。！？；：]/)]: a separator is a maximal run of white
    space or one punctuation mark.  [in_run] tells whether the previous
    code unit was white space. *)
Fixpoint splitWords_aux (s cur : jsstring) (in_run : bool) : list jsstring :=
  match s with
  | [] => [rev cur]
  | c :: s' =>
    if isWhiteSpace c
    then (if in_run then splitWords_aux s' cur true
          else rev cur :: splitWords_aux s' [] true)
    else if isPunctuation c then rev cur :: splitWords_aux s' [] false
    else splitWords_aux s' (c :: cur) false
  end.

Definition splitWords (s : jsstring) : list jsstring := splitWords_aux s [] false.

Definition stopWords : list jsstring :=
  [js "的"; js "是"; js "在"; js "有"; js "和"; js "与"; js "或"; js "但";
   js "如何"; js "什么"; js "哪些"].

(** [word.length > 1 && !stopWords.has(word)] *)
Definition isKeywordCandidate (word : jsstring) : bool :=
  (1 <? length word) && negb (set_has stopWords word).

(** [wordCount.set(word, (wordCount.get(word) || 0) + 1)] *)
Definition countWord (wordCount : JSMap nat) (word : jsstring) : JSMap nat :=
  map_set wordCount word
    (match map_get wordCount word with
     | Some n => n
     | None => 0
     end + 1).

(** The comparator [(a, b) => b[1] - a[1]]. *)
Definition byCountDesc (a b : jsstring * nat) : Q :=
  (inject_Z (Z.of_nat (snd b)) - inject_Z (Z.of_nat (snd a)))%Q.

(** [extractKeywords(text)] *)
Definition extractKeywords (text : jsstring) : list jsstring :=
  let words := filter isKeywordCandidate (splitWords text) in
  let wordCount := fold_left countWord words [] in
  map fst (firstn 5 (sort byCountDesc wordCount)).

End Keywords.

(** ** [src/workers/file-processor.ts], continued: [batchEmbeddings] *)

Module Embeddings.

Import Parsing.

Section BatchEmbeddings.

(** [getEmbeddings(texts)]: the call to the embedding service; it returns
    the embeddings of the response or throws.  The first argument numbers
    the calls. *)
Variable getEmbeddings : nat -> list jsstring -> Result (list (list Q)).

Definition batchSize : nat := 20.

(** The loop [for (let i = 0; i < texts.length; i += batchSize)] of
    [batchEmbeddings]; the state is [(i, results)] and [call] counts the
    calls made.  The pause of one second between two batches does not enter
    the result and is left out.  [fuel] bounds the number of iterations; [None] means the
    bound was reached with the condition still true. *)
Fixpoint batchLoop (fuel : nat) (texts : list jsstring) (i call : nat)
  (results : list (list Q)) : option (Result (list (list Q))) :=
  if i <? length texts then
    match fuel with
    | 0 => None
    | S fuel' =>
      let batch := sliceArray i (i + batchSize) texts in
      match getEmbeddings call batch with
      | Throw => Some Throw
      | Ok embeddings =>
        batchLoop fuel' texts (i + batchSize) (S call) (results ++ embeddings)
      end
    end
  else Some (Ok results).

(** [batchEmbeddings(texts)]; the loop is given [texts.length]
    iterations. *)
Definition batchEmbeddings (texts : list jsstring)
  : option (Result (list (list Q))) :=
  batchLoop (length texts) texts 0 0 [].

End BatchEmbeddings.

End Embeddings.


(** ** Notions used in the statements *)

Module Props.

Import Reranker Chat.

(** A list is in descending order of [key]. *)
Definition descending {A} (key : A -> Q) (l : list A) : Prop :=
  StronglySorted (fun a b => (key b <= key a)%Q) l.

(** The rerank endpoint gave no usable answer: no key, a rejected call, or
    a response that is not OK. *)
Definition unavailable (endpoint : RerankEndpoint) : Prop :=
  match endpoint with
  | NoApiKey | FetchRejects | NotOk _ => True
  | Json _ => False
  end.

(** The number of matches of one query word in a text; a rejected word
    counts for nothing. *)
Definition occurrencesOf (other : jsstring -> jsstring -> RegExpOutcome)
  (content word : jsstring) : nat :=
  match match_count other word content with
  | Matches n => n
  | SyntaxError => 0
  end.

(** Keyword density: the total number of matches of the query words in the
    text, divided by the number of query words. *)
Definition keywordDensity (other : jsstring -> jsstring -> RegExpOutcome)
  (queryWords : list jsstring) (content : jsstring) : Q :=
  ratio (list_sum (map (occurrencesOf other content) queryWords)) (length queryWords).

(** No query word is rejected as a regular expression. *)
Definition accepted (other : jsstring -> jsstring -> RegExpOutcome)
  (queryWords : list jsstring) (content : jsstring) : Prop :=
  forall w, In w queryWords -> match_count other w content <> SyntaxError.

(** [min(1, length / 1000)] *)
Definition lengthTerm (content : jsstring) : Q := Qmin 1 (ratio (length content) 1000).

(** The score of the fallback for one candidate, as the specification
    words it. *)
Definition fallbackScore (other : jsstring -> jsstring -> RegExpOutcome)
  (queryWords : list jsstring) (m : SearchMatch) : Q :=
  (0.5 * sm_score m
   + 0.3 * keywordDensity other queryWords (toLowerCase (sm_content m))
   + 0.2 * lengthTerm (sm_content m))%Q.

Definition fallbackEntry (other : jsstring -> jsstring -> RegExpOutcome)
  (queryWords : list jsstring) (m : SearchMatch) (r : RerankResult) : Prop :=
  rr_content r = sm_content m /\ rr_filename r = sm_filename m
  /\ rr_originalScore r = sm_score m
  /\ (rr_score r == fallbackScore other queryWords m)%Q.

(** A stand-in for the regular-expression sources outside the modelled
    fragment; the concrete inputs below use only the fragment. *)
Definition noOtherSource : jsstring -> jsstring -> RegExpOutcome :=
  fun _ _ => Matches 0.

Definition candidate (name : string) (text : string) (s : Q) : SearchMatch :=
  {| sm_content := js text;
     sm_filename := js name;
     sm_document_id := None;
     sm_page := None;
     sm_page_type := None;
     sm_score := s |}.

Definition scored (s : Q) : PineconeMatch :=
  {| pm_score := Some s; pm_metadata := None |}.

(** *** The event stream *)

Definition contentCall (c : jsstring) : ControllerCall := Enqueue (ContentEvent c).

Definition isFinalCall (c : ControllerCall) : bool :=
  match c with
  | Enqueue (FinalEvent _) => true
  | _ => false
  end.

(** The fragment carried by one line of the upstream: the [content] field
    of its payload, when the line has a payload that parses and the field is
    a non-empty string. *)
Definition fragmentOf (delta_content : jsstring -> option jsstring)
  (line : jsstring) : list jsstring :=
  match dataOf line with
  | Some data =>
    if isEmpty (trim data) then []
    else
      match delta_content data with
      | Some (c :: content) => [c :: content]
      | _ => []
      end
  | None => []
  end.

(** The fragments of the upstream chunks, in order. *)
Definition forwarded (delta_content : jsstring -> option jsstring)
  (chunks : list jsstring) : list jsstring :=
  flat_map (fun chunk =>
              if isEmpty (trim chunk) then []
              else flat_map (fragmentOf delta_content) (split 10%N chunk))
           chunks.

(** *** The worker *)

(** The handler that [startWorker] runs on a task of each queue. *)
Definition handlerOf (env : Worker.Env) (queueName : FileQueue.QueueName) (now : nat)
  : FileQueue.Task -> FileQueue.Queues -> Worker.Database -> Worker.Outcome :=
  match queueName with
  | FileQueue.FILE_PROCESSING => Worker.processFile env now
  | FileQueue.EMBEDDING => Worker.processEmbedding env now
  | FileQueue.VECTOR_STORAGE => Worker.processVectorStorage env now
  end.

(** The database left by a handler that throws: [processFile] and
    [processVectorStorage] store the status [failed] when that write goes
    through; [processEmbedding] leaves the database as it is. *)
Definition databaseAfterThrow (env : Worker.Env) (queueName : FileQueue.QueueName)
  (now : nat) (task : FileQueue.Task) (db : Worker.Database) : Worker.Database :=
  match queueName with
  | FileQueue.EMBEDDING => db
  | _ =>
    if Worker.writeFailed env now
    then Worker.updateOne db (FileQueue.documentId task) Worker.setFailed
    else db
  end.

(** The handler of [queueName] throws on [task] at every attempt, whatever
    the retry count the task carries by then. *)
Definition alwaysThrows (env : Worker.Env) (queueName : FileQueue.QueueName)
  (task : FileQueue.Task) : Prop :=
  forall now rc qs db,
    snd (handlerOf env queueName now
           (FileQueue.withRetry task rc (FileQueue.maxRetries task)) qs db) = Throw.

(** The database after [n] failed attempts in a row, the first one made at
    iteration [now]. *)
Fixpoint databaseAfterThrows (env : Worker.Env) (queueName : FileQueue.QueueName)
  (task : FileQueue.Task) (n now : nat) (db : Worker.Database) : Worker.Database :=
  match n with
  | 0 => db
  | S n' =>
    databaseAfterThrows env queueName task n' (S now)
      (databaseAfterThrow env queueName now task db)
  end.

(** The queues when [queueName] holds the single task [task]. *)
Definition onlyTask (queueName : FileQueue.QueueName) (task : FileQueue.Task)
  : FileQueue.Queues :=
  FileQueue.writeQueue queueName [task] FileQueue.emptyQueues.

(** An environment in which the embedding service is down and everything
    else works: the download yields a text file whose content is
    ["hello world"]. *)
Definition embeddingServiceDown : Worker.Env :=
  {| Worker.download := fun _ _ => Ok [104; 105]%N;
     Worker.parsePDF := fun _ _ => Throw;
     Worker.parseWord := fun _ _ => Throw;
     Worker.parseImage := fun _ _ => Throw;
     Worker.decodeText := fun _ => js "hello world";
     Worker.writeProcessing := fun _ => true;
     Worker.writeFailed := fun _ => true;
     Worker.writeCompleted := fun _ => true;
     Worker.batchEmbeddings := fun _ _ => Throw;
     Worker.upsert := fun _ _ => Ok tt;
     Worker.dateNow := fun _ => js "1700000000000";
     Worker.isoNow := fun _ => js "2023-11-14T22:13:20.000Z" |}.

(** The task pushed at upload for the text file ["notes.txt"] of the
    document ["d1"], and the state after the upload: the task waits in the
    file-processing queue and the document is [pending]. *)
Definition uploadTask : FileQueue.Task :=
  {| FileQueue.id := js "task-1";
     FileQueue.documentId := js "d1";
     FileQueue.payload :=
       FileQueue.FileProcessingPayload (js "u1") (js "notes.txt") (js "text/plain")
         (js "https://blob/notes.txt");
     FileQueue.createdAt := js "2023-11-14T22:13:19.000Z";
     FileQueue.retryCount := None;
     FileQueue.maxRetries := None |}.

Definition uploaded : Worker.State :=
  {| Worker.queues := FileQueue.pushFileProcessingTask uploadTask FileQueue.emptyQueues;
     Worker.database :=
       [(js "d1", {| Worker.status := Worker.pending; Worker.hasError := false;
                     Worker.chunksCount := None; Worker.vectorsCount := None |})];
     Worker.clock := 0;
     Worker.log := [] |}.

Definition isFailedEntry (e : Worker.LogEntry) : bool :=
  match e with
  | Worker.Failed _ _ => true
  | _ => false
  end.

End Props.


(** ** Further notions used in the statements *)

Module MoreProps.

Import FileQueue Worker Props.

(** Pop [n] times from one queue: the tasks obtained, in order, and the
    queues left. *)
Fixpoint drain (queueName : QueueName) (n : nat) (qs : Queues) : list Task * Queues :=
  match n with
  | 0 => ([], qs)
  | S n' =>
    match popFromQueue queueName qs with
    | (Some task, qs') =>
      let '(tasks, qs'') := drain queueName n' qs' in (task :: tasks, qs'')
    | (None, qs') => ([], qs')
    end
  end.

(** The retry count of a task is within its bound, both read as the queue
    code reads them. *)
Definition withinBound (task : Task) : Prop :=
  retryCountOr0 task <= maxRetriesOr3 task.

Definition allWithinBound (qs : Queues) : Prop :=
  forall queueName, Forall withinBound (readQueue queueName qs).

(** The MIME types for which [processFile] has a parser. *)
Definition supportedType (fileType : jsstring) : bool :=
  streq fileType (js "application/pdf")
  || includes (js "word") fileType || includes (js "document") fileType
  || startsWith (js "image/") fileType
  || streq fileType (js "text/plain").

(** An environment in which the file storage is down: no download
    succeeds; the database accepts every write. *)
Definition storageDown : Env :=
  {| download := fun _ _ => Throw;
     parsePDF := fun _ _ => Throw;
     parseWord := fun _ _ => Throw;
     parseImage := fun _ _ => Throw;
     decodeText := fun _ => [];
     writeProcessing := fun _ => true;
     writeFailed := fun _ => true;
     writeCompleted := fun _ => true;
     batchEmbeddings := fun _ _ => Throw;
     upsert := fun _ _ => Throw;
     dateNow := fun _ => js "1700000000000";
     isoNow := fun _ => js "2023-11-14T22:13:20.000Z" |}.

(** An environment in which every service answers: the download yields a
    text whose content is ["hello world"], and the embedding service returns
    one vector per text. *)
Definition allServicesUp : Env :=
  {| download := fun _ _ => Ok [104; 105]%N;
     parsePDF := fun _ _ => Throw;
     parseWord := fun _ _ => Throw;
     parseImage := fun _ _ => Throw;
     decodeText := fun _ => js "hello world";
     writeProcessing := fun _ => true;
     writeFailed := fun _ => true;
     writeCompleted := fun _ => true;
     batchEmbeddings := fun _ texts => Ok (map (fun _ => [0.5%Q; 0.25%Q]) texts);
     upsert := fun _ _ => Ok tt;
     dateNow := fun _ => js "1700000000000";
     isoNow := fun _ => js "2023-11-14T22:13:20.000Z" |}.

(** The task pushed at upload for a video, a type [processFile] has no
    parser for. *)
Definition videoTask : Task :=
  {| FileQueue.id := js "task-2";
     documentId := js "d2";
     payload :=
       FileProcessingPayload (js "u1") (js "clip.mp4") (js "video/mp4")
         (js "https://blob/clip.mp4");
     createdAt := js "2023-11-14T22:13:19.000Z";
     retryCount := None;
     maxRetries := None |}.

Definition videoUploaded : State :=
  {| queues := pushFileProcessingTask videoTask emptyQueues;
     database :=
       [(js "d2", {| status := pending; hasError := false;
                     chunksCount := None; vectorsCount := None |})];
     clock := 0;
     log := [] |}.

(** The embedding task that waits after the upload of [uploaded] has been
    parsed. *)
Definition queuedEmbeddingTask : Task :=
  Eval vm_compute in
    match embedding (queues (iterations embeddingServiceDown 1 uploaded)) with
    | task :: _ => task
    | [] => uploadTask
    end.

(** The start position recorded in a chunk of the windowed path. *)
Definition startOf (c : Chunk) : nat :=
  match startPosition (chunk_metadata c) with
  | Some s => s
  | None => 0
  end.

(** What the loop of [chunkText] records in the chunk of index [i]: its
    name, its index, its length, and the window of the cleaned text it was
    cut from. *)
Definition isWindow (cleanText : jsstring) (chunkSize : nat) (i : nat) (c : Chunk)
  : Prop :=
  chunk_id c = chunkName i
  /\ chunkIndex (chunk_metadata c) = i
  /\ md_length (chunk_metadata c) = length (chunk_content c)
  /\ chunk_content c <> []
  /\ exists s e,
       startPosition (chunk_metadata c) = Some s
       /\ endPosition (chunk_metadata c) = Some e
       /\ s < length cleanText
       /\ e = windowEnd cleanText chunkSize s
       /\ chunk_content c = trim (slice s e cleanText).

(** A string in which white space occurs only as single spaces: every white
    space code unit is U+0020 and no two are adjacent.  [in_run] tells
    whether the code unit before the string was white space. *)
Fixpoint normalized (s : jsstring) (in_run : bool) : bool :=
  match s with
  | [] => true
  | c :: s' =>
    if isWhiteSpace c then (c =? 32)%N && negb in_run && normalized s' true
    else normalized s' false
  end.

(** A text cut into windows of at most 12 code units with an overlap of 3. *)
Definition windowedText : jsstring := js "The cat sat. The dog ran off. Done".

Definition windowedChunks : list Chunk :=
  Eval vm_compute in
    match Worker.chunkText windowedText 12 3 with
    | Some chunks => chunks
    | None => []
    end.

(** The embedding task [processFile] would queue for [windowedChunks]. *)
Definition windowedEmbeddingTask : Task :=
  {| FileQueue.id := js "embedding_d1_1700000000000";
     documentId := js "d1";
     payload :=
       EmbeddingPayload
         (map (tagChunk uploadTask (js "notes.txt") (js "text/plain") (js "u1"))
              windowedChunks);
     createdAt := js "2023-11-14T22:13:20.000Z";
     retryCount := None;
     maxRetries := None |}.

End MoreProps.

Import MoreProps.
(** ** Further notions: the document parser *)

Module ParserProps.

Import DocumentParser Parsing.

(** The string ends with a code unit that is not white space. *)
Definition endsNonWs (s : jsstring) : Prop :=
  exists p c, s = p ++ [c] /\ isWhiteSpace c = false.

(** What the loop over the sentences keeps: the chunks emitted so far are
    non-empty and trimmed, the chunk under construction is empty before the
    first sentence and ends with a code unit that is not white space
    afterwards, and there are no more chunks than sentences read. *)
Definition plainInv (n : nat) (st : PlainState) : Prop :=
  Forall (fun c => content c <> [] /\ trim (content c) = content c
                   /\ pageNumber c = None) (ps_chunks st)
  /\ ((n = 0 /\ ps_currentChunk st = [] /\ ps_chunks st = [])
      \/ (0 < n /\ endsNonWs (ps_currentChunk st)
          /\ length (ps_chunks st) + 1 <= n)).

(** The chunk made of a whole page. *)
Definition pageChunk (i : nat) (p : Page) : ChunkWithPage :=
  {| content := pg_content p;
     pageNumber := Some (pg_pageNumber p);
     startChar := pg_startChar p;
     endChar := pg_endChar p;
     chunkIndex := i |}.

(** The chunk renumbered by [k]. *)
Definition shift (k : nat) (c : ChunkWithPage) : ChunkWithPage :=
  {| content := content c;
     pageNumber := pageNumber c;
     startChar := startChar c;
     endChar := endChar c;
     chunkIndex := k + chunkIndex c |}.

(** Two pages within 20 code units, the second one blank. *)
Definition twoPages : list Page :=
  [ {| pg_pageNumber := 1; pg_content := js "Hello there."; pg_startChar := 0;
       pg_endChar := 11 |};
    {| pg_pageNumber := 2; pg_content := js "  "; pg_startChar := 12;
       pg_endChar := 13 |} ].

(** The position after the pages of contents [cs], each followed by one
    line break. *)
Fixpoint offsetOf (cs : list jsstring) : Z :=
  match cs with
  | [] => 0%Z
  | c :: r => (len c + 1 + offsetOf r)%Z
  end.

(** The pages whose contents are [cs], laid one after the other from
    position [pos] with one line break in between, numbered from [k + 1]. *)
Fixpoint txtPagesFrom (k : nat) (pos : Z) (cs : list jsstring) : list Page :=
  match cs with
  | [] => []
  | c :: r =>
    {| pg_pageNumber := Z.of_nat (k + 1);
       pg_content := c;
       pg_startChar := pos;
       pg_endChar := (pos + len c - 1)%Z |}
    :: txtPagesFrom (S k) (pos + len c + 1)%Z r
  end.

(** The string has a code unit that is not white space. *)
Definition nonBlank (s : jsstring) : Prop :=
  Exists (fun c => isWhiteSpace c = false) s.

(** The character ranges of the pages follow each other without gap or
    overlap from [pos] to [stop], and none is empty. *)
Fixpoint tiled (pos : Z) (pages : list Page) (stop : Z) : Prop :=
  match pages with
  | [] => pos = stop
  | p :: r =>
    pg_startChar p = pos /\ (pos <= pg_endChar p)%Z
    /\ tiled (pg_endChar p + 1)%Z r stop
  end.

(** The length of the paragraphs, each followed by a separator of two
    code units. *)
Fixpoint paragraphsLength (ps : list jsstring) : Z :=
  match ps with
  | [] => 0%Z
  | p :: r => (len p + 2 + paragraphsLength r)%Z
  end.

(** What the loop over the paragraphs keeps, after the paragraphs [done]. *)
Definition docxInv (done : list jsstring) (st : DocxState) : Prop :=
  map pg_pageNumber (dx_pages st)
  = map Z.of_nat (seq 1 (length (dx_pages st)))
  /\ dx_currentPage st = length (dx_pages st) + 1
  /\ Forall (fun pg => pg_content pg <> [] /\ trim (pg_content pg) = pg_content pg)
            (dx_pages st)
  /\ tiled 0 (dx_pages st) (dx_currentPos st - len (dx_currentPageContent st))
  /\ dx_currentPos st = paragraphsLength done
  /\ ((done = [] /\ dx_currentPageContent st = [] /\ dx_pages st = [])
      \/ (done <> [] /\ nonBlank (dx_currentPageContent st))).

(** The facts about one page cut from [text]. *)
Definition pdfPageOK (text : jsstring) (pageCount : nat) (page : Page) : Prop :=
  (1 <= pg_pageNumber page <= Z.of_nat pageCount)%Z
  /\ (0 <= pg_startChar page <= pg_endChar page)%Z
  /\ (pg_endChar page < len text)%Z
  /\ pg_content page
     = trim (slice (Z.to_nat (pg_startChar page)) (Z.to_nat (pg_endChar page + 1)) text)
  /\ pg_content page <> [].

(** One page comes before the other, in number and in the text. *)
Definition pageBefore (p q : Page) : Prop :=
  (pg_pageNumber p < pg_pageNumber q)%Z /\ (pg_endChar p < pg_startChar q)%Z.

(** Every code unit of [text] before [upto] that is not white space lies
    in the range of one of the pages. *)
Definition coveredUpTo (text : jsstring) (upto : nat) (pages : list Page) : Prop :=
  forall j c,
    nth_error text j = Some c -> isWhiteSpace c = false -> j < upto ->
    exists page,
      In page pages /\ (pg_startChar page <= Z.of_nat j <= pg_endChar page)%Z.

(** What the loop over the page numbers keeps, after [k] pages. *)
Definition pdfInv (text : jsstring) (pageCount avg k : nat) (st : list Page * nat)
  : Prop :=
  snd st <= length text
  /\ Nat.min (k * avg) (length text) <= snd st
  /\ Forall (fun page => pdfPageOK text pageCount page
                         /\ (pg_pageNumber page <= Z.of_nat k)%Z
                         /\ (pg_endChar page < Z.of_nat (snd st))%Z) (fst st)
  /\ StronglySorted pageBefore (fst st)
  /\ coveredUpTo text (snd st) (fst st).

(** A text file of 101 lines and 1300 code units. *)
Definition longText : jsstring :=
  Eval vm_compute in concat (repeat (js "line of text") 1 ++ repeat (10%N :: js "line of text") 100).

(** A Word text of 120 paragraphs and 2640 code units. *)
Definition longWordText : jsstring :=
  Eval vm_compute in concat (repeat (js "Paragraph text here." ++ [10; 10]%N) 120).

(** The text of a PDF of three pages. *)
Definition pdfText : jsstring := js "First page. Second page here. Third.".

End ParserProps.

Import ParserProps.

(** ** Further notions: reranking, recommendations, keywords, batches *)

Module EngineProps.

Import Reranker Recommendation Chat.

(** A rerank result that copies the fields of a candidate. *)
Definition copyOf (m : SearchMatch) (r : RerankResult) : Prop :=
  rr_content r = sm_content m /\ rr_filename r = sm_filename m
  /\ rr_document_id r = sm_document_id m /\ rr_page r = sm_page m
  /\ rr_page_type r = sm_page_type m /\ rr_originalScore r = sm_score m.

(** [l] is [l'] with some elements left out, the order kept. *)
Inductive subseq {A} : list A -> list A -> Prop :=
| subseq_nil : subseq [] []
| subseq_skip (x : A) (l l' : list A) : subseq l l' -> subseq l (x :: l')
| subseq_keep (x : A) (l l' : list A) : subseq l l' -> subseq (x :: l) (x :: l').

(** The number of times [word] occurs in [words]. *)
Definition occurrencesIn (words : list jsstring) (word : jsstring) : nat :=
  length (filter (streq word) words).

(** A code unit that does not separate words. *)
Definition isWordUnit (c : N) : Prop :=
  isWhiteSpace c = false /\ Keywords.isPunctuation c = false.

(** The map built from [words] has one entry per distinct word, with the
    number of its occurrences. *)
Definition counted (words : list jsstring) (m : JSMap nat) : Prop :=
  NoDup (map fst m)
  /\ forall word,
       map_get m word
       = match occurrencesIn words word with
         | 0 => None
         | n => Some n
         end.

(** The calls of the embedding service on the batches, numbered from
    [call]: the embeddings of each batch, unless a call throws. *)
Fixpoint callAll (getEmbeddings : nat -> list jsstring -> Result (list (list Q)))
  (call : nat) (batches : list (list jsstring)) : Result (list (list (list Q))) :=
  match batches with
  | [] => Ok []
  | batch :: rest =>
    embeddings <- getEmbeddings call batch ;;
    others <- callAll getEmbeddings (S call) rest ;;
    Ok (embeddings :: others)
  end.

(** An analysis and two candidate questions, one above and one below the
    default relevance threshold. *)
Definition exampleAnalysis : Analysis :=
  {| keywords := [js "电商"];
     an_topics := [];
     intent := js "general";
     conversationDepth := 0;
     lastUserMessage := js "电商 运营" |}.

Definition exampleCandidates : list RecommendedQuestion :=
  [ {| id := js "q1"; question := js "如何推广？"; category := js "实践操作";
       relevanceScore := 0.5; context := js "运营"; source := None |};
    {| id := js "q2"; question := js "什么是电商运营？"; category := js "基础概念";
       relevanceScore := 0.8; context := js "电商"; source := None |} ].

Definition exampleContext : ConversationContext :=
  {| currentMessage := js "电商 运营"; previousMessages := [];
     topics := []; userIntent := [] |}.

End EngineProps.

Import EngineProps.
Import JS Props.

(* ====================================================================== *)
(** * Part II. Properties                                                 *)
(* ====================================================================== *)

(** ** Facts about the primitives *)

(** Case analysis on the scrutinee of a [match] of the goal. *)
Ltac break_match :=
  match goal with
  | |- context [match ?x with _ => _ end] => destruct x eqn:?
  end.

Lemma In_firstn {A} (n : nat) (l : list A) (x : A) : In x (firstn n l) -> In x l.
Proof.
  revert n. induction l as [|y l IH]; intros [|n]; simpl; try tauto.
  intros [->|H]; [now left | right; eauto].
Qed.

Lemma streq_eq (a b : jsstring) : streq a b = true <-> a = b.
Proof.
  revert b. induction a as [|x a IH]; intros [|y b]; simpl;
    try (split; [discriminate | discriminate]); try tauto.
  rewrite andb_true_iff, N.eqb_eq, IH. split.
  - intros [-> ->]. reflexivity.
  - intros H. injection H. auto.
Qed.

Lemma streq_refl (a : jsstring) : streq a a = true.
Proof. now apply streq_eq. Qed.

Section SortFacts.

Context {A : Type} (key : A -> Q).

Let cmp : A -> A -> Q := fun a b => (key b - key a)%Q.

Lemma cmp_le (a b : A) : Qle_bool (cmp a b) 0 = true <-> (key b <= key a)%Q.
Proof.
  unfold cmp. rewrite Qle_bool_iff. split; intro H; lra.
Qed.

Lemma sort_insert_perm (x : A) (l : list A) :
  Permutation (x :: l) (sort_insert cmp x l).
Proof.
  induction l as [|y l IH]; simpl.
  - apply Permutation_refl.
  - destruct (Qle_bool (cmp x y) 0).
    + apply Permutation_refl.
    + eapply perm_trans; [apply perm_swap|]. now apply perm_skip.
Qed.

Lemma sort_perm (l : list A) : Permutation l (sort cmp l).
Proof.
  induction l as [|x l IH]; simpl.
  - constructor.
  - eapply perm_trans; [|apply sort_insert_perm]. now apply perm_skip.
Qed.

Lemma sort_insert_descending (x : A) (l : list A) :
  descending key l -> descending key (sort_insert cmp x l).
Proof.
  unfold descending. induction 1 as [|y l Hl IH Hy]; simpl.
  - constructor; constructor.
  - destruct (Qle_bool (cmp x y) 0) eqn:E.
    + apply cmp_le in E. constructor.
      * now constructor.
      * constructor; [exact E|].
        rewrite Forall_forall in *. intros z Hz. specialize (Hy z Hz).
        simpl in *. lra.
    + assert (Hxy : (key x < key y)%Q).
      { destruct (Qlt_le_dec (key x) (key y)) as [Hlt|Hle]; [exact Hlt|].
        apply cmp_le in Hle. rewrite E in Hle. discriminate. }
      constructor; [exact IH|].
      rewrite Forall_forall in *. intros z Hz.
      apply Permutation_in with (l' := x :: l) in Hz;
        [|apply Permutation_sym, sort_insert_perm].
      destruct Hz as [->|Hz]; [simpl; lra | now apply Hy].
Qed.

Lemma sort_descending (l : list A) : descending key (sort cmp l).
Proof.
  induction l as [|x l IH]; simpl.
  - constructor.
  - now apply sort_insert_descending.
Qed.

Lemma sort_length (l : list A) : length (sort cmp l) = length l.
Proof. symmetry. apply Permutation_length, sort_perm. Qed.

Lemma sort_In (l : list A) (x : A) : In x (sort cmp l) <-> In x l.
Proof.
  split; apply Permutation_in;
    [apply Permutation_sym, sort_perm | apply sort_perm].
Qed.

Lemma descending_firstn (n : nat) (l : list A) :
  descending key l -> descending key (firstn n l).
Proof.
  unfold descending. intros H. revert n.
  induction H as [|y l Hl IH Hy]; intros [|n]; simpl; try constructor.
  - apply IH.
  - rewrite Forall_forall in *. intros z Hz. apply Hy.
    eapply In_firstn; exact Hz.
Qed.

End SortFacts.

(** ** Candidate gathering: [Chat.searchMatches] *)

Import Reranker Chat.

Lemma Qltb_lt (x y : Q) : Qltb x y = true <-> (x < y)%Q.
Proof.
  unfold Qltb. rewrite negb_true_iff. split.
  - intros H. destruct (Qlt_le_dec x y) as [Hlt|Hle]; [exact Hlt|].
    apply Qle_bool_iff in Hle. congruence.
  - intros H. destruct (Qle_bool y x) eqn:E; [|reflexivity].
    apply Qle_bool_iff in E. lra.
Qed.

(** The candidates handed to the reranker are the matches whose score is
    strictly above the floor. *)
Lemma searchMatches_spec (ms : list PineconeMatch) (c : SearchMatch) :
  In c (searchMatches (Some ms)) <->
  exists m, In m ms /\ (similarityFloor < scoreOrZero m)%Q /\ c = toSearchMatch m.
Proof.
  unfold searchMatches. rewrite in_map_iff. split.
  - intros (m & <- & Hm). apply filter_In in Hm as [Hin Hf].
    exists m. repeat split; [exact Hin|]. now apply Qltb_lt.
  - intros (m & Hin & Hlt & ->). exists m. split; [reflexivity|].
    apply filter_In. split; [exact Hin|]. now apply Qltb_lt.
Qed.

(** The scenario of the specification: of the scores 0.9, 0.55 and 0.7, two
    pass the floor. *)
Lemma searchMatches_scenario :
  map sm_score (searchMatches (Some [scored 0.9; scored 0.55; scored 0.7]))
  = [0.9%Q; 0.7%Q].
Proof. reflexivity. Qed.

(** C6 (the behaviour that departs from the claim).  The claim lets every
    match whose score is not below the floor 0.6 proceed to reranking.  A
    match whose score is exactly 0.6 is not below the floor, and
    [searchMatches] drops it: the filter keeps [score > 0.6] only. *)
Theorem C6_score_at_floor_is_dropped :
  ~ (scoreOrZero (scored 0.6) < similarityFloor)%Q
  /\ searchMatches (Some [scored 0.6]) = [].
Proof.
  split.
  - unfold scoreOrZero, scored, similarityFloor. simpl. lra.
  - reflexivity.
Qed.

(** ** The reranker: [Reranker.rerankWithBGE] and [rerankBySimilarity] *)

Section RerankerFacts.

Variable other : jsstring -> jsstring -> RegExpOutcome.

Lemma rerankBySimilarity_returns (query : jsstring) (matches : list SearchMatch)
  (topK : nat) :
  exists out, rerankBySimilarity other query matches topK = Ok out.
Proof.
  unfold rerankBySimilarity, try_catch.
  destruct (rerankBySimilarity_try other query matches topK); eauto.
Qed.

Lemma rerankWithBGE_returns (endpoint : RerankEndpoint) (query : jsstring)
  (matches : list SearchMatch) (topK : nat) :
  exists out, rerankWithBGE other endpoint query matches topK = Ok out.
Proof.
  unfold rerankWithBGE, try_catch.
  destruct (rerankWithBGE_try other endpoint query matches topK); eauto.
  apply rerankBySimilarity_returns.
Qed.

(** Without a usable answer of the endpoint, [rerankWithBGE] is the
    fallback. *)
Lemma rerankWithBGE_unavailable (endpoint : RerankEndpoint) (query : jsstring)
  (matches : list SearchMatch) (topK : nat) :
  unavailable endpoint -> matches <> [] ->
  rerankWithBGE other endpoint query matches topK
  = rerankBySimilarity other query matches topK.
Proof.
  intros Hu Hne. unfold rerankWithBGE, rerankWithBGE_try.
  destruct matches as [|m ms]; [congruence|].
  destruct endpoint; simpl in Hu; try contradiction; simpl;
    destruct (rerankBySimilarity_returns query (m :: ms) topK) as [out ->];
    reflexivity.
Qed.

(** *** The primary path *)

Lemma collect_length (matches : list SearchMatch) (items : list RerankItem) :
  length (collect matches items) <= length items.
Proof.
  induction items as [|item items IH]; simpl; [lia|].
  destruct (at_index matches (index item)); simpl; lia.
Qed.

(** Every entry built from the answer carries
    [0.3 * originalSimilarity + 0.7 * relevanceScore]. *)
Lemma collect_fused (matches : list SearchMatch) (items : list RerankItem) :
  Forall (fun r => exists item m,
            In item items /\ at_index matches (index item) = Some m
            /\ rr_content r = sm_content m /\ rr_filename r = sm_filename m
            /\ rr_originalScore r = sm_score m
            /\ (rr_score r == 0.3 * sm_score m + 0.7 * relevance_score item)%Q)
         (collect matches items).
Proof.
  induction items as [|item items IH]; simpl; [constructor|].
  assert (IH' : Forall (fun r => exists item0 m,
            In item0 (item :: items) /\ at_index matches (index item0) = Some m
            /\ rr_content r = sm_content m /\ rr_filename r = sm_filename m
            /\ rr_originalScore r = sm_score m
            /\ (rr_score r == 0.3 * sm_score m + 0.7 * relevance_score item0)%Q)
         (collect matches items)).
  { eapply Forall_impl; [|exact IH]. intros r (i & m & Hi & H).
    exists i, m. split; [now right | exact H]. }
  destruct (at_index matches (index item)) as [m|] eqn:E; [|exact IH'].
  constructor; [|exact IH'].
  exists item, m. simpl. repeat split; auto. lra.
Qed.

Lemma primary_path (items : list RerankItem) (query : jsstring)
  (matches : list SearchMatch) (topK : nat) :
  collect matches items <> [] ->
  rerankWithBGE other (Json (Some items)) query matches topK
  = Ok (sort byScoreDesc (collect matches items)).
Proof.
  intros Hne. unfold rerankWithBGE, rerankWithBGE_try.
  destruct matches as [|m ms].
  - exfalso. apply Hne. clear Hne. induction items as [|i items IH]; simpl; auto.
    unfold at_index. destruct (index i <? 0)%Z; [exact IH|].
    destruct (Z.to_nat (index i)); exact IH.
  - destruct (collect (m :: ms) items) as [|r rs] eqn:E; [congruence|].
    reflexivity.
Qed.

(** On the primary path the result is in descending order of the fused
    score, and every result carries the fused score of its candidate. *)
Lemma primary_path_sorted_fused (items : list RerankItem) (query : jsstring)
  (matches : list SearchMatch) (topK : nat) :
  collect matches items <> [] ->
  exists out,
    rerankWithBGE other (Json (Some items)) query matches topK = Ok out
    /\ descending rr_score out
    /\ Forall (fun r => exists item m,
                 In item items /\ at_index matches (index item) = Some m
                 /\ rr_content r = sm_content m /\ rr_filename r = sm_filename m
                 /\ rr_originalScore r = sm_score m
                 /\ (rr_score r == 0.3 * sm_score m + 0.7 * relevance_score item)%Q)
              out.
Proof.
  intros Hne. eexists. split; [now apply primary_path|]. split.
  - apply (sort_descending rr_score).
  - rewrite Forall_forall. intros r Hr.
    apply (proj1 (sort_In rr_score (collect matches items) r)) in Hr.
    pose proof (collect_fused matches items) as H.
    rewrite Forall_forall in H. now apply H.
Qed.

(** The result of the primary path has as many entries as the answer has
    items with a valid index: it is within [topK] when the endpoint returned
    no more items than the [top_k] it was asked for. *)
Lemma primary_path_within_requested (items : list RerankItem) (query : jsstring)
  (matches : list SearchMatch) (topK : nat) :
  collect matches items <> [] ->
  length items <= req_top_k (rerankRequest query matches topK) ->
  exists out,
    rerankWithBGE other (Json (Some items)) query matches topK = Ok out
    /\ length out <= topK.
Proof.
  intros Hne Hlen. eexists. split; [now apply primary_path|].
  rewrite (sort_length rr_score). pose proof (collect_length matches items).
  simpl in Hlen. lia.
Qed.

End RerankerFacts.

(** The scenario of the specification: original scores 0.5 and 0.8,
    relevance scores 0.9 and 0.2. *)
Lemma primary_path_scenario :
  exists out,
    rerankWithBGE noOtherSource
      (Json (Some [ {| index := 0; relevance_score := 0.9 |};
                    {| index := 1; relevance_score := 0.2 |} ]))
      (js "query") [candidate "first" "a" 0.5; candidate "second" "b" 0.8] 3
    = Ok out
    /\ map rr_filename out = [js "first"; js "second"]
    /\ map (fun r => Qred (rr_score r)) out = [Qred 0.78; Qred 0.38].
Proof. eexists. split; [reflexivity|]. split; reflexivity. Qed.

(** C4 (the behaviour that departs from the claim).  The claim has the
    result of the primary path truncated to [topK].  With [topK = 1] and an
    answer of the endpoint that scores both candidates, [rerankWithBGE]
    returns both: the primary path sorts the entries it built and returns
    them all; [topK] only travels to the endpoint as [top_k]. *)
Theorem C4_primary_path_returns_more_than_topK :
  exists out,
    rerankWithBGE noOtherSource
      (Json (Some [ {| index := 0; relevance_score := 0.9 |};
                    {| index := 1; relevance_score := 0.2 |} ]))
      (js "query") [candidate "first" "a" 0.5; candidate "second" "b" 0.8] 1
    = Ok out
    /\ map rr_filename out = [js "first"; js "second"]
    /\ map (fun r => Qred (rr_score r)) out = [Qred 0.78; Qred 0.38]
    /\ length out = 2.
Proof. eexists. split; [reflexivity|]. repeat split; reflexivity. Qed.

(** *** The fallback path *)

Lemma mapM_ok {A B} (f : A -> Result B) (P : A -> B -> Prop) (l : list A) :
  (forall x, In x l -> exists y, f x = Ok y /\ P x y) ->
  exists ys, mapM f l = Ok ys /\ Forall2 P l ys.
Proof.
  induction l as [|x l IH]; intros H; simpl.
  - exists []. split; [reflexivity | constructor].
  - destruct (H x (or_introl eq_refl)) as (y & -> & Hy).
    destruct IH as (ys & -> & Hys); [intros z Hz; apply H; now right|].
    exists (y :: ys). split; [reflexivity | now constructor].
Qed.

Lemma Forall2_In_r {A B} (P : A -> B -> Prop) (l : list A) (l' : list B) (y : B) :
  Forall2 P l l' -> In y l' -> exists x, In x l /\ P x y.
Proof.
  induction 1 as [|a b l l' Hab _ IH]; simpl; [tauto|].
  intros [<-|Hy].
  - exists a. auto.
  - destruct (IH Hy) as (x & Hx & Hp). exists x. auto.
Qed.

Section FallbackFacts.

Variable other : jsstring -> jsstring -> RegExpOutcome.

Lemma occurrences_ok (content : jsstring) (queryWords : list jsstring) (acc : nat) :
  accepted other queryWords content ->
  occurrences other content queryWords acc
  = Ok (acc + list_sum (map (occurrencesOf other content) queryWords)).
Proof.
  revert acc. induction queryWords as [|w ws IH]; intros acc H; simpl.
  - f_equal. lia.
  - unfold occurrencesOf at 1.
    pose proof (H w (or_introl eq_refl)) as Hw.
    destruct (match_count other w content) as [n|]; [|congruence].
    rewrite IH; [f_equal; lia|]. intros z Hz. apply H. now right.
Qed.

Lemma scoreMatch_ok (queryWords : list jsstring) (m : SearchMatch) :
  accepted other queryWords (toLowerCase (sm_content m)) ->
  exists r, scoreMatch other queryWords m = Ok r /\ fallbackEntry other queryWords m r.
Proof.
  intros H. unfold scoreMatch. rewrite (occurrences_ok _ _ 0 H). simpl.
  eexists. split; [reflexivity|]. unfold fallbackEntry, fallbackScore. simpl.
  repeat split. unfold keywordDensity, lengthTerm. lra.
Qed.

Lemma fallback_when_accepted (query : jsstring) (matches : list SearchMatch)
  (topK : nat) :
  (forall m, In m matches ->
             accepted other (queryWordsOf query) (toLowerCase (sm_content m))) ->
  exists scoredMatches,
    Forall2 (fallbackEntry other (queryWordsOf query)) matches scoredMatches
    /\ rerankBySimilarity other query matches topK
       = Ok (firstn topK (sort byScoreDesc scoredMatches)).
Proof.
  intros H.
  destruct (mapM_ok (scoreMatch other (queryWordsOf query))
                    (fallbackEntry other (queryWordsOf query)) matches)
    as (ys & Hys & HF).
  { intros m Hm. apply scoreMatch_ok. now apply H. }
  exists ys. split; [exact HF|].
  unfold rerankBySimilarity, rerankBySimilarity_try. rewrite Hys. reflexivity.
Qed.

End FallbackFacts.

(** The fallback away from the defect: when the rerank endpoint is
    unavailable and no query word is rejected as a regular expression,
    [rerankWithBGE] returns, for every non-empty candidate list and
    [topK >= 1], a non-empty result in descending order of score, and each
    result carries
    [0.5 * originalScore + 0.3 * keywordDensity + 0.2 * min(1, length / 1000)],
    the keyword density being the number of matches of the query words in
    the lower-cased text divided by the number of query words. *)
Lemma fallback_ranks_when_words_accepted
  (other : jsstring -> jsstring -> RegExpOutcome) (endpoint : RerankEndpoint)
  (query : jsstring) (matches : list SearchMatch) (topK : nat) :
  unavailable endpoint ->
  matches <> [] ->
  1 <= topK ->
  (forall m, In m matches ->
             accepted other (queryWordsOf query) (toLowerCase (sm_content m))) ->
  exists out,
    rerankWithBGE other endpoint query matches topK = Ok out
    /\ out <> []
    /\ descending rr_score out
    /\ Forall (fun r => exists m,
                 In m matches
                 /\ rr_content r = sm_content m /\ rr_filename r = sm_filename m
                 /\ rr_originalScore r = sm_score m
                 /\ (rr_score r ==
                     0.5 * sm_score m
                     + 0.3 * keywordDensity other (queryWordsOf query)
                               (toLowerCase (sm_content m))
                     + 0.2 * lengthTerm (sm_content m))%Q)
              out.
Proof.
  intros Hu Hne Hk Hacc.
  destruct (fallback_when_accepted other query matches topK Hacc)
    as (ys & HF & Hout).
  exists (firstn topK (sort byScoreDesc ys)).
  split; [rewrite rerankWithBGE_unavailable; auto|].
  split; [|split].
  - assert (Hlen : length (sort byScoreDesc ys) = length matches).
    { rewrite (sort_length rr_score). symmetry. eapply Forall2_length; eauto. }
    destruct matches as [|m ms]; [congruence|].
    destruct (sort byScoreDesc ys) as [|r rs]; [discriminate|].
    destruct topK; [lia|]. discriminate.
  - apply descending_firstn. apply (sort_descending rr_score).
  - rewrite Forall_forall. intros r Hr. apply In_firstn in Hr.
    apply (proj1 (sort_In rr_score ys r)) in Hr.
    destruct (Forall2_In_r _ _ _ _ HF Hr) as (m & Hm & Hc & Hf & Ho & Hs).
    exists m. repeat split; auto.
Qed.

Lemma fallback_ranks_scenario :
  exists out,
    rerankWithBGE noOtherSource NoApiKey (js "live stream")
      [candidate "a.txt" "Live commerce" 0.7;
       candidate "b.txt" "stream of the live stream" 0.9] 3 = Ok out
    /\ out <> []
    /\ descending rr_score out
    /\ Forall (fun r => exists m,
                 In m [candidate "a.txt" "Live commerce" 0.7;
                       candidate "b.txt" "stream of the live stream" 0.9]
                 /\ rr_content r = sm_content m /\ rr_filename r = sm_filename m
                 /\ rr_originalScore r = sm_score m
                 /\ (rr_score r ==
                     0.5 * sm_score m
                     + 0.3 * keywordDensity noOtherSource
                               (queryWordsOf (js "live stream"))
                               (toLowerCase (sm_content m))
                     + 0.2 * lengthTerm (sm_content m))%Q)
              out.
Proof.
  apply (fallback_ranks_when_words_accepted noOtherSource NoApiKey
           (js "live stream")
           [candidate "a.txt" "Live commerce" 0.7;
            candidate "b.txt" "stream of the live stream" 0.9] 3).
  - exact I.
  - discriminate.
  - lia.
  - intros m [<-|[<-|[]]] w [<-|[<-|[]]]; vm_compute; discriminate.
Defined.

(** A query word that begins with a quantifier is rejected by
    [new RegExp], whatever the engine does with the sources left to
    [regexp_other]. *)
Lemma quantifier_word_rejected (other : jsstring -> jsstring -> RegExpOutcome)
  (c : N) (w content : jsstring) :
  isQuantifierStart c = true ->
  match_count other (c :: w) content = SyntaxError.
Proof.
  intros H. unfold match_count.
  assert (Hs : isSyntaxCharacter c = true).
  { unfold isQuantifierStart in H. simpl in H.
    repeat rewrite orb_true_iff in H. rewrite !N.eqb_eq in H.
    destruct H as [H|[H|[H|H]]]; try discriminate; subst c; reflexivity. }
  unfold isLiteralSource. simpl. rewrite Hs. simpl. rewrite H. reflexivity.
Qed.

(** C5 (the behaviour that departs from the claim).  The query is
    ["what ?"], a question with its mark set off by a space; the candidates
    are two texts scored 0.7 and 0.9, and [topK = 3].  The query words are
    handed to [new RegExp] as they are: the word ["?"] is not a regular
    expression, so the [try] block of the fallback throws, for every
    engine.  With the endpoint unavailable (no key, a rejected call or a
    status that is not OK) [rerankWithBGE] then returns the candidates as
    they came, with the scores they came with: 0.7 then 0.9, which is not
    in descending order, and not the weighted score of the claim. *)
Theorem C5_unsorted_when_word_rejected
  (other : jsstring -> jsstring -> RegExpOutcome) :
  let matches := [candidate "a.txt" "what" 0.7; candidate "b.txt" "what" 0.9] in
  rerankBySimilarity_try other (js "what ?") matches 3 = Throw
  /\ (forall endpoint,
        unavailable endpoint ->
        rerankWithBGE other endpoint (js "what ?") matches 3
        = Ok (map unscored matches))
  /\ map rr_score (map unscored matches) = [0.7%Q; 0.9%Q]
  /\ ~ descending rr_score (map unscored matches).
Proof.
  cbv zeta. split; [reflexivity|]. split; [|split; [reflexivity|]].
  - intros endpoint Hu.
    rewrite rerankWithBGE_unavailable; [reflexivity | exact Hu | discriminate].
  - intros H. inversion H as [|r rs _ Hall]; subst.
    inversion Hall as [|r' rs' Hle _]; subst.
    simpl in Hle. lra.
Qed.

(** C8.  When the [try] block of the fallback throws, [rerankBySimilarity]
    (and so [rerankWithBGE], when the endpoint is unavailable) returns the
    first [topK] candidates in their order, each with [score],
    [originalScore] and [rerankScore] equal to the score it came with; and
    [rerankWithBGE] returns for every endpoint behaviour, query, candidate
    list and [topK]: nothing is thrown to the caller. *)
Theorem C8_last_resort_returns_candidates
  (other : jsstring -> jsstring -> RegExpOutcome)
  (query : jsstring) (matches : list SearchMatch) (topK : nat) :
  rerankBySimilarity_try other query matches topK = Throw ->
  rerankBySimilarity other query matches topK
  = Ok (map unscored (firstn topK matches))
  /\ (forall endpoint, unavailable endpoint ->
        rerankWithBGE other endpoint query matches topK
        = Ok (map unscored (firstn topK matches)))
  /\ Forall2 (fun m r =>
                rr_content r = sm_content m /\ rr_filename r = sm_filename m
                /\ rr_document_id r = sm_document_id m
                /\ rr_page r = sm_page m /\ rr_page_type r = sm_page_type m
                /\ rr_score r = sm_score m
                /\ rr_originalScore r = sm_score m
                /\ rr_rerankScore r = sm_score m)
             (firstn topK matches) (map unscored (firstn topK matches))
  /\ (forall endpoint query' matches' topK',
        exists out, rerankWithBGE other endpoint query' matches' topK' = Ok out).
Proof.
  intros Hthrow.
  assert (Hfb : rerankBySimilarity other query matches topK
                = Ok (map unscored (firstn topK matches))).
  { unfold rerankBySimilarity. rewrite Hthrow. reflexivity. }
  split; [exact Hfb|]. split; [|split].
  - intros endpoint Hu.
    rewrite rerankWithBGE_unavailable; [exact Hfb | exact Hu |].
    intros ->. unfold rerankBySimilarity_try in Hthrow. simpl in Hthrow.
    discriminate.
  - clear Hthrow Hfb.
    induction (firstn topK matches) as [|m ms IH]; simpl; constructor;
      try exact IH.
    repeat split.
  - intros. apply rerankWithBGE_returns.
Qed.

Lemma C8_last_resort_witness :
  rerankBySimilarity noOtherSource (js "what ?")
    [candidate "a.txt" "what" 0.7; candidate "b.txt" "what" 0.9] 1
  = Ok (map unscored (firstn 1 [candidate "a.txt" "what" 0.7;
                                candidate "b.txt" "what" 0.9])).
Proof.
  apply (C8_last_resort_returns_candidates noOtherSource (js "what ?")
           [candidate "a.txt" "what" 0.7; candidate "b.txt" "what" 0.9] 1).
  vm_compute. reflexivity.
Defined.

(** ** Fusion of the sources: [Chat.allSources] *)

Section MapFacts.

Context {V : Type}.

Lemma map_get_In (m : JSMap V) (k : jsstring) (v : V) :
  map_get m k = Some v -> In (k, v) m.
Proof.
  induction m as [|[k' v'] m IH]; simpl; [discriminate|].
  destruct (streq k' k) eqn:E.
  - apply streq_eq in E. subst. intros [= ->]. now left.
  - intros H. right. auto.
Qed.

Lemma map_get_None (m : JSMap V) (k : jsstring) :
  map_get m k = None -> ~ In k (map fst m).
Proof.
  induction m as [|[k' v'] m IH]; simpl; [tauto|].
  destruct (streq k' k) eqn:E; [discriminate|].
  intros H [Hk|Hk]; [|now apply IH].
  subst. rewrite streq_refl in E. discriminate.
Qed.

Lemma map_set_get_same (m : JSMap V) (k : jsstring) (v : V) :
  map_get (map_set m k v) k = Some v.
Proof.
  induction m as [|[k' v'] m IH]; simpl.
  - now rewrite streq_refl.
  - destruct (streq k' k) eqn:E; simpl; rewrite E; auto.
Qed.

Lemma map_set_get_other (m : JSMap V) (k k' : jsstring) (v : V) :
  k <> k' -> map_get (map_set m k v) k' = map_get m k'.
Proof.
  intros Hne. induction m as [|[k0 v0] m IH]; simpl.
  - destruct (streq k k') eqn:E; [apply streq_eq in E; congruence | reflexivity].
  - destruct (streq k0 k) eqn:E; simpl.
    + apply streq_eq in E. subst k0.
      destruct (streq k k') eqn:E'; [apply streq_eq in E'; congruence | reflexivity].
    + destruct (streq k0 k'); auto.
Qed.

Lemma map_set_In (m : JSMap V) (k k' : jsstring) (v v' : V) :
  In (k', v') (map_set m k v) -> (k' = k /\ v' = v) \/ In (k', v') m.
Proof.
  induction m as [|[k0 v0] m IH]; simpl.
  - intros [[= <- <-]|[]]. auto.
  - destruct (streq k0 k) eqn:E; simpl.
    + apply streq_eq in E. subst k0. intros [[= <- <-]|H]; auto.
    + intros [H|H]; auto. destruct (IH H); auto.
Qed.

Lemma map_set_keys_present (m : JSMap V) (k : jsstring) (v : V) :
  In k (map fst m) -> map fst (map_set m k v) = map fst m.
Proof.
  induction m as [|[k0 v0] m IH]; simpl; [tauto|].
  destruct (streq k0 k) eqn:E; simpl; [reflexivity|].
  intros [->|H]; [rewrite streq_refl in E; discriminate|].
  now rewrite IH.
Qed.

Lemma map_set_keys_absent (m : JSMap V) (k : jsstring) (v : V) :
  ~ In k (map fst m) -> map fst (map_set m k v) = map fst m ++ [k].
Proof.
  induction m as [|[k0 v0] m IH]; simpl; [reflexivity|].
  intros H. destruct (streq k0 k) eqn:E.
  - apply streq_eq in E. tauto.
  - simpl. rewrite IH; tauto.
Qed.

End MapFacts.

(** The invariant of the two [forEach] loops over [uniqueSources]: the keys
    are distinct, every value is one of the entries seen so far and sits
    under its own file name, and every entry seen so far is dominated by the
    value kept for its file name. *)
Lemma keepHigher_invariant (seen : list Source) (m : JSMap Source) (e : Source) :
  (NoDup (map fst m)
   /\ (forall k v, In (k, v) m -> src_filename v = k /\ In v seen)
   /\ (forall x, In x seen ->
         exists v, map_get m (src_filename x) = Some v
                   /\ (src_score x <= src_score v)%Q)) ->
  NoDup (map fst (keepHigher m e))
  /\ (forall k v, In (k, v) (keepHigher m e) ->
        src_filename v = k /\ In v (seen ++ [e]))
  /\ (forall x, In x (seen ++ [e]) ->
        exists v, map_get (keepHigher m e) (src_filename x) = Some v
                  /\ (src_score x <= src_score v)%Q).
Proof.
  intros (Hnd & Hval & Hdom). unfold keepHigher.
  destruct (map_get m (src_filename e)) as [present|] eqn:Eg.
  - assert (Hin : In (src_filename e) (map fst m)).
    { apply map_get_In in Eg. apply (in_map fst) in Eg. exact Eg. }
    destruct (Qltb (src_score present) (src_score e)) eqn:Elt.
    + apply Qltb_lt in Elt. split; [|split].
      * rewrite map_set_keys_present; assumption.
      * intros k v H. apply map_set_In in H as [[-> ->]|H].
        -- split; [reflexivity | apply in_or_app; right; now left].
        -- destruct (Hval k v H). split; [assumption | apply in_or_app; now left].
      * intros x Hx. apply in_app_or in Hx as [Hx|[<-|[]]].
        -- destruct (Hdom x Hx) as (v & Hv & Hle).
           destruct (list_eq_dec N.eq_dec (src_filename e) (src_filename x)) as [Heq|Hne].
           ++ rewrite <- Heq. rewrite map_set_get_same. eexists. split; [reflexivity|].
              rewrite <- Heq in Hv. rewrite Eg in Hv. injection Hv as <-. lra.
           ++ rewrite map_set_get_other by assumption. eauto.
        -- rewrite map_set_get_same. eexists. split; [reflexivity | lra].
    + assert (Hle : (src_score e <= src_score present)%Q).
      { destruct (Qlt_le_dec (src_score present) (src_score e)) as [H|H]; [|exact H].
        apply Qltb_lt in H. congruence. }
      split; [exact Hnd | split].
      * intros k v H. destruct (Hval k v H).
        split; [assumption | apply in_or_app; now left].
      * intros x Hx. apply in_app_or in Hx as [Hx|[<-|[]]]; [now apply Hdom|].
        exists present. auto.
  - apply map_get_None in Eg. split; [|split].
    + rewrite map_set_keys_absent by assumption.
      apply NoDup_app; [exact Hnd | constructor; [tauto | constructor] |].
      intros a Ha [<-|[]]. tauto.
    + intros k v H. apply map_set_In in H as [[-> ->]|H].
      * split; [reflexivity | apply in_or_app; right; now left].
      * destruct (Hval k v H). split; [assumption | apply in_or_app; now left].
    + intros x Hx. apply in_app_or in Hx as [Hx|[<-|[]]].
      * destruct (Hdom x Hx) as (v & Hv & Hle).
        rewrite map_set_get_other; [eauto|].
        intros Heq. apply Eg. rewrite Heq.
        apply map_get_In in Hv. apply (in_map fst) in Hv. exact Hv.
      * rewrite map_set_get_same. eexists. split; [reflexivity | lra].
Qed.

Lemma fold_keepHigher_invariant (es seen : list Source) (m : JSMap Source) :
  (NoDup (map fst m)
   /\ (forall k v, In (k, v) m -> src_filename v = k /\ In v seen)
   /\ (forall x, In x seen ->
         exists v, map_get m (src_filename x) = Some v
                   /\ (src_score x <= src_score v)%Q)) ->
  let m' := fold_left keepHigher es m in
  NoDup (map fst m')
  /\ (forall k v, In (k, v) m' -> src_filename v = k /\ In v (seen ++ es))
  /\ (forall x, In x (seen ++ es) ->
        exists v, map_get m' (src_filename x) = Some v
                  /\ (src_score x <= src_score v)%Q).
Proof.
  revert seen m. induction es as [|e es IH]; intros seen m H; simpl.
  - rewrite app_nil_r. exact H.
  - specialize (IH (seen ++ [e]) (keepHigher m e) (keepHigher_invariant seen m e H)).
    simpl in IH. rewrite <- app_assoc in IH. exact IH.
Qed.

Lemma indexed_In {A} (l : list A) (x : A) :
  In x l <-> exists i, In (i, x) (indexed l).
Proof.
  unfold indexed. split.
  - generalize 0. induction l as [|y l IH]; intros s; simpl; [tauto|].
    intros [->|H].
    + exists s. now left.
    + destruct (IH (S s) H) as [i Hi]. exists i. now right.
  - intros [i H]. eapply in_combine_r. exact H.
Qed.

Lemma documentEntries_In (rc : list RerankResult) (s : Source) :
  In s (documentEntries rc) ->
  exists r, In r rc /\ src_filename s = rr_filename r /\ src_score s = rr_score r.
Proof.
  unfold documentEntries. rewrite in_map_iff. intros ([i r] & <- & H).
  exists r. split; [apply indexed_In; eauto | split; reflexivity].
Qed.

Lemma In_documentEntries (rc : list RerankResult) (r : RerankResult) :
  In r rc ->
  exists s, In s (documentEntries rc)
            /\ src_filename s = rr_filename r /\ src_score s = rr_score r.
Proof.
  intros H. apply indexed_In in H as [i H].
  exists (documentSource (i, r)). split; [|split; reflexivity].
  unfold documentEntries. apply in_map. exact H.
Qed.

Lemma combine_map_In {A B} (f : A -> B) (l : list A) (p : B * A) :
  In p (combine (map f l) l) <-> exists x, In x l /\ p = (f x, x).
Proof.
  induction l as [|y l IH]; simpl.
  - split; [tauto | intros (x & [] & _)].
  - rewrite IH. split.
    + intros [<-|(x & Hx & ->)]; eauto.
    + intros (x & [->|Hx] & ->); eauto.
Qed.

Lemma multimediaEntries_In (mr : list MultimediaResult) (s : Source) :
  In s (multimediaEntries mr) ->
  exists x, In x mr /\ src_filename s = mr_filename x
            /\ src_score s = (mr_score x * 1.2)%Q.
Proof.
  unfold multimediaEntries. rewrite in_map_iff. intros ([i [c x]] & <- & H).
  assert (Hc : In (c, x) (combine (multimediaContextOf mr) mr))
    by (apply indexed_In; eauto).
  unfold multimediaContextOf in Hc. apply combine_map_In in Hc as (y & Hy & [= -> ->]).
  exists y. split; [exact Hy | split; reflexivity].
Qed.

Lemma In_multimediaContext (mr : list MultimediaResult) (x : MultimediaResult) :
  In x mr ->
  exists c, In (c, x) (combine (multimediaContextOf mr) mr)
            /\ mc_filename c = mr_filename x
            /\ mc_score c = (mr_score x * 1.2)%Q.
Proof.
  induction mr as [|y mr IH]; simpl; [tauto|].
  intros [->|H].
  - eexists. split; [left; reflexivity | split; reflexivity].
  - destruct (IH H) as (c & Hc & Hf & Hs). exists c. auto.
Qed.

Lemma In_multimediaEntries (mr : list MultimediaResult) (x : MultimediaResult) :
  In x mr ->
  exists s, In s (multimediaEntries mr)
            /\ src_filename s = mr_filename x
            /\ src_score s = (mr_score x * 1.2)%Q.
Proof.
  intros H. destruct (In_multimediaContext mr x H) as (c & Hc & Hf & Hs).
  apply indexed_In in Hc as [i Hi].
  exists (multimediaSource (i, (c, x))). split; [|split; assumption].
  unfold multimediaEntries. apply in_map. exact Hi.
Qed.

(** C3.  In the sources sent with the [final] event of the regular path,
    - no file name occurs twice;
    - every entry is one of the reranked documents or one of the boosted
      (score times 1.2) multimedia results;
    - every file name of a reranked document or of a multimedia result has
      its entry, whose score is at least the score of each candidate of
      that name: the entry kept is the one with the highest score;
    - the list is in descending order of score. *)
Theorem C3_fused_sources_unique_highest_sorted
  (relevantContext : list RerankResult) (multimediaResults : list MultimediaResult) :
  let out := allSources relevantContext multimediaResults in
  NoDup (map src_filename out)
  /\ (forall s, In s out ->
        (exists r, In r relevantContext
                   /\ src_filename s = rr_filename r /\ src_score s = rr_score r)
        \/ (exists x, In x multimediaResults
                      /\ src_filename s = mr_filename x
                      /\ src_score s = (mr_score x * 1.2)%Q))
  /\ (forall r, In r relevantContext ->
        exists s, In s out /\ src_filename s = rr_filename r
                  /\ (rr_score r <= src_score s)%Q)
  /\ (forall x, In x multimediaResults ->
        exists s, In s out /\ src_filename s = mr_filename x
                  /\ (mr_score x * 1.2 <= src_score s)%Q)
  /\ descending src_score out.
Proof.
  set (docs := documentEntries relevantContext).
  set (media := multimediaEntries multimediaResults).
  set (m := uniqueSourcesOf relevantContext multimediaResults).
  assert (Hinv : NoDup (map fst m)
    /\ (forall k v, In (k, v) m -> src_filename v = k /\ In v (docs ++ media))
    /\ (forall x, In x (docs ++ media) ->
          exists v, map_get m (src_filename x) = Some v
                    /\ (src_score x <= src_score v)%Q)).
  { unfold m, uniqueSourcesOf.
    assert (H0 : NoDup (map fst (@nil (jsstring * Source)))
      /\ (forall k v, In (k, v) (@nil (jsstring * Source)) ->
            src_filename v = k /\ In v [])
      /\ (forall x, In x (@nil Source) ->
            exists v, map_get (@nil (jsstring * Source)) (src_filename x) = Some v
                      /\ (src_score x <= src_score v)%Q)).
    { split; [constructor | split; intros; contradiction]. }
    pose proof (fold_keepHigher_invariant docs [] [] H0) as H1. simpl in H1.
    exact (fold_keepHigher_invariant media docs _ H1). }
  destruct Hinv as (Hnd & Hval & Hdom).
  assert (Hout : forall s, In s (allSources relevantContext multimediaResults)
                           <-> In s (map_values m)).
  { intros s. unfold allSources. apply (sort_In src_score). }
  assert (Hdomout : forall e, In e (docs ++ media) ->
            exists s, In s (allSources relevantContext multimediaResults)
                      /\ src_filename s = src_filename e
                      /\ (src_score e <= src_score s)%Q).
  { intros e He. destruct (Hdom e He) as (v & Hv & Hle).
    apply map_get_In in Hv. exists v. split; [|split; [|exact Hle]].
    - apply Hout. unfold map_values. apply (in_map snd) in Hv. exact Hv.
    - now destruct (Hval _ _ Hv). }
  cbv zeta. split; [|split; [|split; [|split]]].
  - assert (Hkeys : map src_filename (map_values m) = map fst m).
    { unfold map_values. rewrite map_map. apply map_ext_in.
      intros [k v] H. simpl. now destruct (Hval k v H). }
    unfold allSources. fold m.
    eapply Permutation_NoDup;
      [apply Permutation_map; apply (sort_perm src_score)|].
    rewrite Hkeys. exact Hnd.
  - intros s Hs. apply Hout in Hs. unfold map_values in Hs.
    apply in_map_iff in Hs as ([k v] & <- & Hkv). simpl.
    destruct (Hval k v Hkv) as [_ Hin]. apply in_app_or in Hin as [Hin|Hin].
    + left. now apply documentEntries_In.
    + right. now apply multimediaEntries_In.
  - intros r Hr. destruct (In_documentEntries _ _ Hr) as (e & He & Hf & Hs).
    destruct (Hdomout e) as (s & Hin & Hfs & Hle); [apply in_or_app; now left|].
    exists s. split; [exact Hin | split; [congruence | rewrite <- Hs; exact Hle]].
  - intros x Hx. destruct (In_multimediaEntries _ _ Hx) as (e & He & Hf & Hs).
    destruct (Hdomout e) as (s & Hin & Hfs & Hle); [apply in_or_app; now right|].
    exists s. split; [exact Hin | split; [congruence | rewrite <- Hs; exact Hle]].
  - unfold allSources. apply (sort_descending src_score).
Qed.

(** ** The recommendation engine: [Recommendation.generateRecommendations] *)

Import Recommendation.

Section RecommendationFacts.

Variable config : RecommendationConfig.
Variable analyzeContext : ConversationContext -> Result Analysis.
Variable generateCandidateQuestions :
  Analysis -> option (list SourceDoc) -> Result (list RecommendedQuestion).
Variable uuidv4 : nat -> jsstring.

Lemma generateRecommendations_cases (context : ConversationContext)
  (sources : option (list SourceDoc)) :
  generateRecommendations config analyzeContext generateCandidateQuestions uuidv4
    context sources
  = Ok (match generateRecommendations_try config analyzeContext
                generateCandidateQuestions context sources with
        | Ok questions => questions
        | Throw => getFallbackRecommendations uuidv4
        end).
Proof.
  unfold generateRecommendations, try_catch.
  destruct (generateRecommendations_try config analyzeContext
              generateCandidateQuestions context sources); reflexivity.
Qed.

(** The [try] block throws exactly when one of the two steps that can throw
    does. *)
Lemma generateRecommendations_try_throws (context : ConversationContext)
  (sources : option (list SourceDoc)) :
  generateRecommendations_try config analyzeContext generateCandidateQuestions
    context sources = Throw
  <-> analyzeContext context = Throw
      \/ exists analysis, analyzeContext context = Ok analysis
                          /\ generateCandidateQuestions analysis sources = Throw.
Proof.
  unfold generateRecommendations_try, bind.
  destruct (analyzeContext context) as [analysis|].
  - destruct (generateCandidateQuestions analysis sources) eqn:E.
    + split; [discriminate|]. intros [H|(an & Han & H)]; congruence.
    + split; [eauto | reflexivity].
  - split; auto.
Qed.

Lemma generateRecommendations_try_bound (context : ConversationContext)
  (sources : option (list SourceDoc)) (questions : list RecommendedQuestion) :
  generateRecommendations_try config analyzeContext generateCandidateQuestions
    context sources = Ok questions ->
  length questions <= maxRecommendations config.
Proof.
  unfold generateRecommendations_try, bind.
  destruct (analyzeContext context) as [analysis|]; [|discriminate].
  destruct (generateCandidateQuestions analysis sources); [|discriminate].
  intros [= <-]. apply firstn_le_length.
Qed.

End RecommendationFacts.

(** C9 (as amended).  [generateRecommendations] never throws.  When no step
    throws it returns at most [maxRecommendations] questions; when a step
    throws it returns the three fixed fallback questions, whatever
    [maxRecommendations] is.  The result has therefore at most
    [max(maxRecommendations, 3)] questions: at most [maxRecommendations]
    for every bound of 3 or more, the default 3 included. *)
Theorem C9_recommendations_total_and_bounded
  (config : RecommendationConfig)
  (analyzeContext : ConversationContext -> Result Analysis)
  (generateCandidateQuestions :
     Analysis -> option (list SourceDoc) -> Result (list RecommendedQuestion))
  (uuidv4 : nat -> jsstring)
  (context : ConversationContext) (sources : option (list SourceDoc)) :
  exists out,
    generateRecommendations config analyzeContext generateCandidateQuestions
      uuidv4 context sources = Ok out
    /\ match generateRecommendations_try config analyzeContext
               generateCandidateQuestions context sources with
       | Ok _ => length out <= maxRecommendations config
       | Throw => out = getFallbackRecommendations uuidv4
       end
    /\ length out <= Nat.max (maxRecommendations config) 3
    /\ length (getFallbackRecommendations uuidv4) = 3.
Proof.
  eexists. split; [apply generateRecommendations_cases|].
  destruct (generateRecommendations_try config analyzeContext
              generateCandidateQuestions context sources) as [questions|] eqn:E.
  - apply generateRecommendations_try_bound in E.
    split; [exact E | split; [lia | reflexivity]].
  - split; [reflexivity | split; [simpl; lia | reflexivity]].
Qed.

(** C9 (counterexample to the claim as stated).  An engine configured with
    [maxRecommendations = 2] whose context analysis throws returns the three
    fallback questions: more than [maxRecommendations]. *)
Lemma C9_fallback_exceeds_configured_bound :
  exists out,
    generateRecommendations
      {| maxRecommendations := 2; diversityThreshold := 0.7;
         relevanceThreshold := 0.6; categories := categories defaultConfig |}
      (fun _ => Throw) (fun _ _ => Ok []) (fun _ => [])
      {| currentMessage := js "hello"; previousMessages := [];
         topics := []; userIntent := [] |}
      None = Ok out
    /\ length out = 3
    /\ ~ length out <= 2.
Proof. eexists. split; [reflexivity|]. simpl. split; [reflexivity | lia]. Qed.

(** With the default configuration, the one of [recommendationEngine], the
    bound of the claim holds in every case. *)
Lemma default_recommendations_bounded
  (analyzeContext : ConversationContext -> Result Analysis)
  (generateCandidateQuestions :
     Analysis -> option (list SourceDoc) -> Result (list RecommendedQuestion))
  (uuidv4 : nat -> jsstring)
  (context : ConversationContext) (sources : option (list SourceDoc)) :
  exists out,
    generateRecommendations defaultConfig analyzeContext generateCandidateQuestions
      uuidv4 context sources = Ok out
    /\ length out <= maxRecommendations defaultConfig.
Proof.
  eexists. split; [apply generateRecommendations_cases|].
  destruct (generateRecommendations_try defaultConfig analyzeContext
              generateCandidateQuestions context sources) as [questions|] eqn:E.
  - now apply generateRecommendations_try_bound in E.
  - simpl. lia.
Qed.

(** ** The event stream: [Chat.start] *)

Section StreamFacts.

Variable delta_content : jsstring -> option jsstring.
Variable analyzeContext : ConversationContext -> Result Analysis.
Variable generateCandidateQuestions :
  Analysis -> option (list SourceDoc) -> Result (list RecommendedQuestion).
Variable uuidv4 : nat -> jsstring.
Variable message : jsstring.
Variable conversationHistory : list Message.
Variable relevantContext : list RerankResult.
Variable multimediaResults : list MultimediaResult.

Lemma processLine_emits (aiResponse line : jsstring) (calls : list ControllerCall) :
  processLine delta_content aiResponse line calls
  = (calls ++ map contentCall (fragmentOf delta_content line),
     Ok (aiResponse ++ concat (fragmentOf delta_content line))).
Proof.
  unfold processLine, fragmentOf.
  destruct (dataOf line) as [data|]; simpl;
    [|now rewrite !app_nil_r].
  destruct (isEmpty (trim data)); simpl; [now rewrite !app_nil_r|].
  destruct (delta_content data) as [[|c content]|]; simpl;
    now rewrite !app_nil_r.
Qed.

Lemma lines_emit (lines : list jsstring) (aiResponse : jsstring)
  (calls : list ControllerCall) :
  foldS (processLine delta_content) lines aiResponse calls
  = (calls ++ map contentCall (flat_map (fragmentOf delta_content) lines),
     Ok (aiResponse ++ concat (flat_map (fragmentOf delta_content) lines))).
Proof.
  revert aiResponse calls. induction lines as [|line lines IH]; intros; simpl.
  - unfold sret. now rewrite !app_nil_r.
  - unfold sbind. rewrite processLine_emits, IH.
    rewrite map_app, concat_app, <- !app_assoc. reflexivity.
Qed.

Lemma chunks_emit (chunks : list jsstring) (aiResponse : jsstring)
  (calls : list ControllerCall) :
  foldS (processChunk delta_content) chunks aiResponse calls
  = (calls ++ map contentCall (forwarded delta_content chunks),
     Ok (aiResponse ++ concat (forwarded delta_content chunks))).
Proof.
  revert aiResponse calls. induction chunks as [|chunk chunks IH]; intros; simpl.
  - unfold sret. now rewrite !app_nil_r.
  - unfold sbind, processChunk, forwarded. simpl. fold (forwarded delta_content chunks).
    destruct (isEmpty (trim chunk)).
    + unfold sret. rewrite IH. reflexivity.
    + rewrite lines_emit, IH.
      rewrite map_app, concat_app, <- !app_assoc. reflexivity.
Qed.

End StreamFacts.

(** A completion call that rejects, or a response that is not OK, opens no
    event stream: [POST] answers with a JSON error. *)
Lemma no_stream_without_ok_response
  (delta_content : jsstring -> option jsstring)
  (analyzeContext : ConversationContext -> Result Analysis)
  (generateCandidateQuestions :
     Analysis -> option (list SourceDoc) -> Result (list RecommendedQuestion))
  (uuidv4 : nat -> jsstring)
  (message : jsstring) (conversationHistory : list Message)
  (relevantContext : list RerankResult)
  (multimediaResults : list MultimediaResult)
  (completion : Completion) :
  (exists calls,
     respond delta_content analyzeContext generateCandidateQuestions uuidv4
       message conversationHistory relevantContext multimediaResults completion
     = EventStream calls)
  <-> exists upstream, completion = CompletionResponse true upstream.
Proof.
  destruct completion as [|[|] upstream]; simpl; split;
    try (intros [x H]; discriminate); eauto.
Qed.

(** Once the response is open, whatever the completion service does (no
    body; chunks followed by the end of the stream, with or without
    fragments; chunks followed by a failed read), the calls made on the
    controller are [content] events followed by one [final] event and the
    closing of the stream.  When the body is missing or a read rejects, the
    [content] events are the fragments forwarded so far followed by the
    single apology. *)
Lemma start_ends_with_one_final
  (delta_content : jsstring -> option jsstring)
  (analyzeContext : ConversationContext -> Result Analysis)
  (generateCandidateQuestions :
     Analysis -> option (list SourceDoc) -> Result (list RecommendedQuestion))
  (uuidv4 : nat -> jsstring)
  (message : jsstring) (conversationHistory : list Message)
  (relevantContext : list RerankResult)
  (multimediaResults : list MultimediaResult)
  (upstream : Upstream) :
  let calls :=
    start delta_content analyzeContext generateCandidateQuestions uuidv4
      message conversationHistory relevantContext multimediaResults upstream in
  exists contents data,
    calls = map contentCall contents ++ [Enqueue (FinalEvent data); CloseStream]
    /\ length (filter isFinalCall calls) = 1
    /\ match upstream with
       | NoBody =>
         contents = [apology] /\ data = errorFinalData relevantContext
       | Body chunks ReadRejects =>
         contents = forwarded delta_content chunks ++ [apology]
         /\ data = errorFinalData relevantContext
       | Body chunks ReadDone =>
         (contents = forwarded delta_content chunks
          \/ contents = forwarded delta_content chunks ++ [defaultContent])
         /\ exists recommendations,
              data = finalData relevantContext multimediaResults recommendations
       end.
Proof.
  assert (Hcount : forall contents data,
            length (filter isFinalCall
                      (map contentCall contents
                       ++ [Enqueue (FinalEvent data); CloseStream])) = 1).
  { intros contents data. rewrite filter_app. simpl.
    assert (H : filter isFinalCall (map contentCall contents) = []).
    { induction contents as [|c cs IH]; simpl; auto. }
    rewrite H. reflexivity. }
  intros calls.
  assert (Hshape : exists contents data,
    calls = map contentCall contents ++ [Enqueue (FinalEvent data); CloseStream]
    /\ match upstream with
       | NoBody =>
         contents = [apology] /\ data = errorFinalData relevantContext
       | Body chunks ReadRejects =>
         contents = forwarded delta_content chunks ++ [apology]
         /\ data = errorFinalData relevantContext
       | Body chunks ReadDone =>
         (contents = forwarded delta_content chunks
          \/ contents = forwarded delta_content chunks ++ [defaultContent])
         /\ exists recommendations,
              data = finalData relevantContext multimediaResults recommendations
       end).
  { subst calls. unfold start, stry, start_try, start_catch, readAll.
    destruct upstream as [|chunks ending].
    - exists [apology], (errorFinalData relevantContext). auto.
    - unfold sbind at 1. unfold sbind at 1. rewrite chunks_emit. simpl.
      destruct ending.
      + destruct (default_recommendations_bounded analyzeContext
                    generateCandidateQuestions uuidv4
                    (conversationContext message conversationHistory)
                    (Some (map (fun ctx => {| sd_filename := rr_filename ctx;
                                              sd_content := rr_content ctx |})
                               relevantContext)))
          as (recs & Hrecs & _).
        unfold sbind, sret, lift, enqueue, close, recommend. simpl.
        rewrite Hrecs.
        destruct (isEmpty (trim (concat (forwarded delta_content chunks)))); simpl.
        * exists (forwarded delta_content chunks ++ [defaultContent]),
                 (finalData relevantContext multimediaResults recs).
          split; [rewrite map_app, <- !app_assoc; reflexivity|].
          split; [now right | eauto].
        * exists (forwarded delta_content chunks),
                 (finalData relevantContext multimediaResults recs).
          split; [rewrite <- !app_assoc; reflexivity|].
          split; [now left | eauto].
      + unfold sbind, sthrow, enqueue, close. simpl.
        exists (forwarded delta_content chunks ++ [apology]),
               (errorFinalData relevantContext).
        split; [rewrite map_app, <- !app_assoc; reflexivity | auto]. }
  destruct Hshape as (contents & data & Heq & Hm).
  exists contents, data. split; [exact Heq|].
  split; [rewrite Heq; apply Hcount | exact Hm].
Qed.


(** C1 (as amended).  For every behaviour of the completion service:
    - when the call resolves with an OK response, the route answers with an
      event stream, and whatever the body does (token stream, empty
      response, missing body, read that fails midway) the stream carries
      [content] events followed by exactly one [final] event, written
      before the stream is closed; when the body is missing or a read
      fails, a single apology is the last [content] event before it;
    - when the call rejects, or resolves with a status that is not OK, no
      event stream is opened: the route answers with a JSON error of status
      500, without apology and without [final] event. *)
Theorem C1_stream_ends_with_one_final
  (delta_content : jsstring -> option jsstring)
  (analyzeContext : ConversationContext -> Result Analysis)
  (generateCandidateQuestions :
     Analysis -> option (list SourceDoc) -> Result (list RecommendedQuestion))
  (uuidv4 : nat -> jsstring)
  (message : jsstring) (conversationHistory : list Message)
  (relevantContext : list RerankResult)
  (multimediaResults : list MultimediaResult)
  (completion : Completion) :
  match completion with
  | CompletionResponse true upstream =>
    exists contents data,
      respond delta_content analyzeContext generateCandidateQuestions uuidv4
        message conversationHistory relevantContext multimediaResults completion
      = EventStream
          (map contentCall contents ++ [Enqueue (FinalEvent data); CloseStream])
      /\ length (filter isFinalCall
                    (map contentCall contents
                     ++ [Enqueue (FinalEvent data); CloseStream])) = 1
      /\ match upstream with
         | NoBody =>
           contents = [apology] /\ data = errorFinalData relevantContext
         | Body chunks ReadRejects =>
           contents = forwarded delta_content chunks ++ [apology]
           /\ data = errorFinalData relevantContext
         | Body chunks ReadDone =>
           (contents = forwarded delta_content chunks
            \/ contents = forwarded delta_content chunks ++ [defaultContent])
           /\ exists recommendations,
                data = finalData relevantContext multimediaResults recommendations
         end
  | CompletionResponse false _ | CompletionRejects =>
    respond delta_content analyzeContext generateCandidateQuestions uuidv4
      message conversationHistory relevantContext multimediaResults completion
    = JsonError 500
  end.
Proof.
  destruct completion as [|[|] upstream]; [reflexivity | | reflexivity].
  destruct (start_ends_with_one_final delta_content analyzeContext
              generateCandidateQuestions uuidv4 message conversationHistory
              relevantContext multimediaResults upstream)
    as (contents & data & Heq & Hcount & Hm).
  exists contents, data. simpl respond. rewrite Heq in *.
  split; [reflexivity|]. split; [exact Hcount | exact Hm].
Qed.

(** C1 (counterexample to the claim as stated).  The completion call
    rejects, or resolves with a status that is not OK: the route answers
    with a JSON error of status 500.  No event stream exists, so the client receives
    neither an apology nor a [final] event. *)
Lemma C1_failed_call_opens_no_stream :
  let route :=
    respond (fun _ => None) (fun _ => Throw) (fun _ _ => Ok []) (fun _ => [])
      (js "hello") [] [] [] in
  route CompletionRejects = JsonError 500
  /\ route (CompletionResponse false (Body [] ReadDone)) = JsonError 500
  /\ (forall calls, route CompletionRejects <> EventStream calls)
  /\ (forall calls,
        route (CompletionResponse false (Body [] ReadDone)) <> EventStream calls).
Proof. cbv zeta. repeat split; intros; discriminate. Qed.

(** ** The page-aware chunker: [DocumentParser.chunkText] *)

Import DocumentParser.

Lemma fold_left_invariant {A B} (P : B -> Prop) (f : B -> A -> B) (l : list A) (b : B) :
  P b -> (forall b' a, P b' -> P (f b' a)) -> P (fold_left f l b).
Proof.
  intros Hb Hstep. revert b Hb. induction l as [|a l IH]; simpl; auto.
Qed.

(** The chunks emitted so far are numbered [0 .. next - 1]. *)
Lemma numbered_snoc (chunks : list ChunkWithPage) (next : nat) (c : ChunkWithPage) :
  map chunkIndex chunks = seq 0 next ->
  chunkIndex c = next ->
  map chunkIndex (chunks ++ [c]) = seq 0 (S next).
Proof.
  intros H Hc. rewrite map_app, H, seq_S. simpl. now rewrite Hc.
Qed.

Lemma numbered_length (chunks : list ChunkWithPage) (next : nat) :
  map chunkIndex chunks = seq 0 next ->
  map chunkIndex chunks = seq 0 (length chunks).
Proof.
  intros H. assert (Hl : length chunks = next).
  { rewrite <- (length_map chunkIndex), H. apply length_seq. }
  now rewrite Hl.
Qed.

Lemma plainStep_numbered (chunkSize overlap : nat) (st : PlainState) (sentence : jsstring) :
  map chunkIndex (ps_chunks st) = seq 0 (ps_chunkIndex st) ->
  map chunkIndex (ps_chunks (plainStep chunkSize overlap st sentence))
  = seq 0 (ps_chunkIndex (plainStep chunkSize overlap st sentence)).
Proof.
  intros H. unfold plainStep.
  destruct ((chunkSize <? length (ps_currentChunk st) + length (trim sentence))
            && (0 <? length (ps_currentChunk st))); simpl; [|exact H].
  now apply numbered_snoc.
Qed.

Lemma chunkPlain_numbered (text : jsstring) (chunkSize overlap : nat) :
  map chunkIndex (chunkPlain text chunkSize overlap)
  = seq 0 (length (chunkPlain text chunkSize overlap)).
Proof.
  unfold chunkPlain.
  set (st := fold_left (plainStep chunkSize overlap) (sentencesOf text) _).
  assert (H : map chunkIndex (ps_chunks st) = seq 0 (ps_chunkIndex st)).
  { apply (fold_left_invariant
             (fun st => map chunkIndex (ps_chunks st) = seq 0 (ps_chunkIndex st))).
    - reflexivity.
    - intros b a Hb. now apply plainStep_numbered. }
  unfold plainFlush. destruct (isEmpty (trim (ps_currentChunk st))).
  - eapply numbered_length; eauto.
  - eapply numbered_length. apply numbered_snoc; eauto.
Qed.

Lemma pageSentenceStep_numbered (chunkSize overlap : nat) (page : Page)
  (st : PageState) (raw : jsstring) :
  map chunkIndex (gs_chunks st) = seq 0 (gs_chunkIndex st) ->
  map chunkIndex (gs_chunks (pageSentenceStep chunkSize overlap page st raw))
  = seq 0 (gs_chunkIndex (pageSentenceStep chunkSize overlap page st raw)).
Proof.
  intros H. unfold pageSentenceStep.
  destruct ((chunkSize <? length (gs_currentChunk st) + length (trim raw))
            && (0 <? length (gs_currentChunk st))); simpl; [|exact H].
  now apply numbered_snoc.
Qed.

Lemma pageStep_numbered (chunkSize overlap : nat)
  (acc : list ChunkWithPage * nat) (page : Page) :
  map chunkIndex (fst acc) = seq 0 (snd acc) ->
  map chunkIndex (fst (pageStep chunkSize overlap acc page))
  = seq 0 (snd (pageStep chunkSize overlap acc page)).
Proof.
  destruct acc as [chunks next]. simpl. intros H. unfold pageStep.
  destruct (length (pg_content page) <=? chunkSize); simpl.
  - now apply numbered_snoc.
  - set (st := fold_left (pageSentenceStep chunkSize overlap page) _ _).
    assert (Hst : map chunkIndex (gs_chunks st) = seq 0 (gs_chunkIndex st)).
    { apply (fold_left_invariant
               (fun st => map chunkIndex (gs_chunks st) = seq 0 (gs_chunkIndex st))).
      - exact H.
      - intros b a Hb. now apply pageSentenceStep_numbered. }
    destruct (isEmpty (trim (gs_currentChunk st))); simpl; [exact Hst|].
    now apply numbered_snoc.
Qed.

Lemma chunkPaged_numbered (pages : list Page) (chunkSize overlap : nat) :
  map chunkIndex (chunkPaged pages chunkSize overlap)
  = seq 0 (length (chunkPaged pages chunkSize overlap)).
Proof.
  unfold chunkPaged. eapply numbered_length.
  apply (fold_left_invariant
           (fun acc => map chunkIndex (fst acc) = seq 0 (snd acc))).
  - reflexivity.
  - intros b a Hb. now apply pageStep_numbered.
Qed.

(** C7 (as amended).  [chunkText] applied to ["A. B. C."] with
    [chunkSize = 3], the default overlap and no page information returns
    two chunks, ["A B"] and ["A B C"], each with [pageNumber = null], with
    [chunkIndex] 0 and 1; and for every input (text, sizes, with or without
    pages) the [chunkIndex] values of the result are [0, 1, 2, ..] in
    order. *)
Theorem C7_two_chunks_and_contiguous_indices :
  (let out := chunkText (js "A. B. C.") 3 defaultOverlap None in
   map content out = [js "A B"; js "A B C"]
   /\ map pageNumber out = [None; None]
   /\ map chunkIndex out = [0; 1])
  /\ (forall text chunkSize overlap pages,
        let out := chunkText text chunkSize overlap pages in
        map chunkIndex out = seq 0 (length out)).
Proof.
  split.
  - repeat split; reflexivity.
  - intros text chunkSize overlap pages. cbv zeta. unfold chunkText.
    destruct pages as [[|p ps]|].
    + apply chunkPlain_numbered.
    + apply chunkPaged_numbered.
    + apply chunkPlain_numbered.
Qed.

(** C7 (counterexample to the claim as stated).  On ["A. B. C."] with
    [chunkSize = 3] and no pages the result does not have three chunks: the
    first two sentences fit in one chunk (["A B"] has three characters), and
    the second chunk starts from the overlap words. *)
Lemma C7_not_three_chunks :
  length (chunkText (js "A. B. C.") 3 defaultOverlap None) <> 3
  /\ map content (chunkText (js "A. B. C.") 3 defaultOverlap None)
     = [js "A B"; js "A B C"].
Proof. split; [vm_compute; discriminate | reflexivity]. Qed.

(** The same holds for every overlap: the overlap only changes the words
    that open the second chunk. *)
Lemma two_chunks_for_every_overlap (overlap : nat) :
  length (chunkText (js "A. B. C.") 3 overlap None) = 2.
Proof.
  with_strategy opaque [Nat.div] (cbv).
  generalize (overlap / 10). intros [|[|n]]; reflexivity.
Qed.

(** ** The worker's character-window chunker: [Worker.chunkText] *)

Import FileQueue Worker.

(** The loop variable grows at every iteration. *)
Lemma nextStart_increases (end_ overlap start : nat) :
  start < nextStart end_ overlap start.
Proof. unfold nextStart. lia. Qed.

(** The loop ends within [cleanText.length - start] iterations. *)
Lemma windowLoop_terminates (fuel : nat) (cleanText : jsstring)
  (chunkSize overlap start chunkIndex : nat) (chunks : list Chunk) :
  length cleanText - start <= fuel ->
  exists out,
    windowLoop fuel cleanText chunkSize overlap start chunkIndex chunks = Some out.
Proof.
  revert start chunkIndex chunks.
  induction fuel as [|fuel IH]; intros start chunkIndex chunks Hfuel.
  - simpl. destruct (start <? length cleanText) eqn:E; [|eauto].
    apply Nat.ltb_lt in E. lia.
  - simpl. destruct (start <? length cleanText) eqn:E; [|eauto].
    apply Nat.ltb_lt in E.
    pose proof (nextStart_increases (windowEnd cleanText chunkSize start)
                  overlap start) as Hinc.
    destruct (0 <? length (trim (slice start (windowEnd cleanText chunkSize start)
                                       cleanText)));
      apply IH; lia.
Qed.

(** [chunkText] returns for every text, chunk size and overlap. *)
Lemma chunkText_terminates (text : jsstring) (chunkSize overlap : nat) :
  exists chunks, Worker.chunkText text chunkSize overlap = Some chunks.
Proof.
  unfold Worker.chunkText.
  destruct (length (cleanTextOf text) <=? chunkSize); [eauto|].
  destruct (windowLoop_terminates (length (cleanTextOf text)) (cleanTextOf text)
              chunkSize overlap 0 0 []) as [out ->]; [lia | eauto].
Qed.

(** The loop appends non-empty chunks only. *)
Lemma windowLoop_nonempty (fuel : nat) (cleanText : jsstring)
  (chunkSize overlap start chunkIndex : nat) (chunks out : list Chunk) :
  windowLoop fuel cleanText chunkSize overlap start chunkIndex chunks = Some out ->
  Forall (fun c => chunk_content c <> []) chunks ->
  Forall (fun c => chunk_content c <> []) out.
Proof.
  revert start chunkIndex chunks.
  induction fuel as [|fuel IH]; intros start chunkIndex chunks; simpl.
  - destruct (start <? length cleanText); [discriminate|].
    now intros [= <-].
  - destruct (start <? length cleanText); [|now intros [= <-]].
    destruct (trim (slice start (windowEnd cleanText chunkSize start) cleanText))
      as [|c s] eqn:E; simpl.
    + apply IH.
    + intros H Hall. eapply IH; [exact H|].
      apply Forall_app. split; [exact Hall|]. constructor; [|constructor].
      simpl. discriminate.
Qed.

(** On the windowed path (cleaned text longer than [chunkSize]) every chunk
    of the result is non-empty. *)
Lemma chunkText_windowed_nonempty (text : jsstring) (chunkSize overlap : nat)
  (chunks : list Chunk) :
  chunkSize < length (cleanTextOf text) ->
  Worker.chunkText text chunkSize overlap = Some chunks ->
  Forall (fun c => chunk_content c <> []) chunks.
Proof.
  intros Hlong. unfold Worker.chunkText.
  destruct (length (cleanTextOf text) <=? chunkSize) eqn:E;
    [apply Nat.leb_le in E; lia|].
  destruct (windowLoop _ _ _ _ _ _ _) as [out|] eqn:Hloop; [|discriminate].
  intros [= <-]. apply windowLoop_nonempty in Hloop; [|constructor].
  rewrite Forall_forall in *. intros c Hc.
  apply in_map_iff in Hc as (c' & <- & Hc'). simpl. now apply Hloop.
Qed.

(** C10 (the behaviour that departs from the claim).  The loop terminates
    (see [chunkText_terminates]) and the chunks it emits are non-empty (see
    [chunkText_windowed_nonempty]); but a text that is empty, or white space
    only, does not reach the loop: its cleaned text has length 0, within
    every [chunkSize], and [chunkText] returns one chunk whose content is
    the empty string. *)
Theorem C10_empty_text_yields_empty_chunk :
  (exists c, Worker.chunkText (js "") 1000 200 = Some [c] /\ chunk_content c = [])
  /\ (exists c, Worker.chunkText [32; 10; 9; 32]%N 1000 200 = Some [c]
                /\ chunk_content c = []).
Proof. split; eexists; split; reflexivity. Qed.

(** ** The retry loop: [FileQueue.retryFailedTask] and [Worker.startWorker] *)

(** A task is pushed again exactly while its new retry count is within the
    bound. *)
Lemma retryFailedTask_within (queueName : QueueName) (task : Task) (qs : Queues) :
  retryCountOr0 task + 1 <= maxRetriesOr3 task ->
  retryFailedTask queueName task qs
  = (true,
     pushToQueue queueName
       (withRetry task (Some (retryCountOr0 task + 1)) (maxRetries task)) qs).
Proof.
  intros H. unfold retryFailedTask.
  apply Nat.leb_le in H. now rewrite H.
Qed.

Lemma retryFailedTask_beyond (queueName : QueueName) (task : Task) (qs : Queues) :
  maxRetriesOr3 task < retryCountOr0 task + 1 ->
  retryFailedTask queueName task qs = (false, qs).
Proof.
  intros H. unfold retryFailedTask.
  apply Nat.leb_gt in H. now rewrite H.
Qed.

(** [task.maxRetries || 3] reads a bound of [0] as the default [3]: such a
    task is pushed again after its first failure. *)
Lemma zero_bound_reads_as_default (queueName : QueueName) (task : Task) (qs : Queues) :
  maxRetries task = Some 0 -> retryCount task = None ->
  fst (retryFailedTask queueName task qs) = true.
Proof.
  intros Hm Hr. unfold retryFailedTask, retryCountOr0, maxRetriesOr3.
  rewrite Hm, Hr. reflexivity.
Qed.

Lemma iterations_add (env : Env) (a b : nat) (st : State) :
  iterations env (a + b) st = iterations env b (iterations env a st).
Proof.
  revert st. induction a as [|a IH]; intros st; simpl; [reflexivity | apply IH].
Qed.

(** With nothing queued, an iteration only advances the clock. *)
Lemma idle_iterations (env : Env) (n : nat) (st : State) :
  queues st = emptyQueues ->
  queues (iterations env n st) = emptyQueues
  /\ database (iterations env n st) = database st
  /\ log (iterations env n st) = log st.
Proof.
  revert st. induction n as [|n IH]; intros st H; simpl; [auto|].
  assert (Hstep : queues (workerIteration env st) = emptyQueues
                  /\ database (workerIteration env st) = database st
                  /\ log (workerIteration env st) = log st).
  { unfold workerIteration. rewrite H. simpl. auto. }
  destruct Hstep as (Hq & Hd & Hl).
  destruct (IH _ Hq) as (Hq' & Hd' & Hl').
  rewrite Hq', Hd', Hl'. auto.
Qed.

(** A handler that throws leaves the queues as they were, and the database
    as [databaseAfterThrow] says. *)
Lemma handler_throw (env : Env) (queueName : QueueName) (now : nat)
  (task : Task) (qs : Queues) (db : Database) :
  snd (handlerOf env queueName now task qs db) = Throw ->
  handlerOf env queueName now task qs db
  = (qs, databaseAfterThrow env queueName now task db, Throw).
Proof.
  destruct queueName; simpl;
    unfold processFile, processEmbedding, processVectorStorage,
           markFailedAndRethrow;
    repeat break_match; simpl; intros H; try discriminate; try reflexivity.
Qed.

Lemma workerIteration_onlyTask (env : Env) (queueName : QueueName) (task : Task)
  (st : State) :
  queues st = onlyTask queueName task ->
  workerIteration env st
  = runTask queueName (handlerOf env queueName (clock st)) task emptyQueues st.
Proof.
  intros H. unfold workerIteration. rewrite H.
  destruct queueName; reflexivity.
Qed.

Lemma pushToQueue_empty (queueName : QueueName) (task : Task) :
  pushToQueue queueName task emptyQueues = onlyTask queueName task.
Proof. destruct queueName; reflexivity. Qed.

Lemma withRetry_same (task : Task) :
  withRetry task (retryCount task) (maxRetries task) = task.
Proof. destruct task; reflexivity. Qed.

Lemma count_failed_app (l l' : list LogEntry) :
  length (filter isFailedEntry (l ++ l'))
  = length (filter isFailedEntry l) + length (filter isFailedEntry l').
Proof. now rewrite filter_app, length_app. Qed.

Lemma databaseAfterThrows_retry (env : Env) (queueName : QueueName) (task : Task)
  (rc mr : option nat) (n now : nat) (db : Database) :
  databaseAfterThrows env queueName (withRetry task rc mr) n now db
  = databaseAfterThrows env queueName task n now db.
Proof.
  revert now db. induction n as [|n IH]; intros; simpl; [reflexivity|].
  rewrite IH. reflexivity.
Qed.

(** Retry bound, for the three queues alike.  A task whose handler throws at
    every attempt, and that has [d] retries left, is attempted [d + 1] times
    and then dropped: after these iterations the queues are empty, the
    worker has logged that it gave the task up, and the database is the one
    left by the [d + 1] failed handlers. *)
Lemma failing_task_dropped (env : Env) (queueName : QueueName) (d : nat) :
  forall (task : Task) (st : State),
    queues st = onlyTask queueName task ->
    alwaysThrows env queueName task ->
    retryCountOr0 task + d = maxRetriesOr3 task ->
    let st' := iterations env (S d) st in
    queues st' = emptyQueues
    /\ length (filter isFailedEntry (log st'))
       = length (filter isFailedEntry (log st)) + S d
    /\ In (GaveUp queueName (id task)) (log st')
    /\ database st'
       = databaseAfterThrows env queueName task (S d) (clock st) (database st).
Proof.
  induction d as [|d IH]; intros task st Hq Hthrows Hleft; cbv zeta.
  - simpl iterations. rewrite (workerIteration_onlyTask env queueName task st Hq).
    unfold runTask.
    pose proof (Hthrows (clock st) (retryCount task) emptyQueues (database st)) as Ht.
    rewrite withRetry_same in Ht. rewrite (handler_throw _ _ _ _ _ _ Ht).
    rewrite retryFailedTask_beyond by lia. simpl.
    split; [reflexivity|]. split; [|split; [|reflexivity]].
    + rewrite count_failed_app. simpl. lia.
    + apply in_or_app. right. simpl. auto.
  - change (iterations env (S (S d)) st)
      with (iterations env (S d) (workerIteration env st)).
    rewrite (workerIteration_onlyTask env queueName task st Hq).
    unfold runTask.
    pose proof (Hthrows (clock st) (retryCount task) emptyQueues (database st)) as Ht.
    rewrite withRetry_same in Ht. rewrite (handler_throw _ _ _ _ _ _ Ht).
    rewrite retryFailedTask_within by lia. rewrite pushToQueue_empty.
    set (task' := withRetry task (Some (retryCountOr0 task + 1)) (maxRetries task)).
    match goal with
    | |- context [iterations env (S d) ?s] => set (st1 := s)
    end.
    destruct (IH task' st1) as (H1 & H2 & H3 & H4).
    + reflexivity.
    + intros now rc qs db. apply (Hthrows now rc qs db).
    + unfold task'. destruct task; simpl in *. unfold retryCountOr0, maxRetriesOr3 in *.
      simpl in *. lia.
    + split; [exact H1|]. split; [|split].
      * rewrite H2. unfold st1. simpl log. rewrite count_failed_app. simpl. lia.
      * exact H3.
      * rewrite H4. unfold task'. rewrite databaseAfterThrows_retry. reflexivity.
Qed.

(** For the embedding queue the failed handlers never touch the database. *)
Lemma embedding_throws_keep_database (env : Env) (task : Task) (n now : nat)
  (db : Database) :
  databaseAfterThrows env EMBEDDING task n now db = db.
Proof.
  revert now db. induction n as [|n IH]; intros; simpl; [reflexivity | apply IH].
Qed.

Lemma findOne_updateOne (db : Database) (docId : jsstring)
  (set : Document -> Document) (doc : Document) :
  findOne db docId = Some doc ->
  findOne (updateOne db docId set) docId = Some (set doc).
Proof.
  induction db as [|[k d] db IH]; simpl; [discriminate|].
  destruct (streq k docId) eqn:E; simpl; rewrite E; [now intros [= ->] | exact IH].
Qed.

(** For the other two queues one failed handler whose write goes through
    leaves the document [failed], and later failures keep it so. *)
Lemma throws_mark_failed (env : Env) (queueName : QueueName) (task : Task)
  (n now : nat) (db : Database) (doc : Document) :
  queueName <> EMBEDDING ->
  (forall t, writeFailed env t = true) ->
  findOne db (documentId task) = Some doc ->
  exists doc',
    findOne (databaseAfterThrows env queueName task (S n) now db) (documentId task)
    = Some doc'
    /\ status doc' = failed.
Proof.
  intros Hq Hw. revert now db doc.
  assert (Hone : forall now db doc,
            findOne db (documentId task) = Some doc ->
            findOne (databaseAfterThrow env queueName now task db) (documentId task)
            = Some (setFailed doc)).
  { intros now db doc H. unfold databaseAfterThrow.
    destruct queueName; try congruence; rewrite Hw; now apply findOne_updateOne. }
  induction n as [|n IH]; intros now db doc H.
  - simpl. exists (setFailed doc). split; [now apply Hone | reflexivity].
  - change (databaseAfterThrows env queueName task (S (S n)) now db)
      with (databaseAfterThrows env queueName task (S n) (S now)
              (databaseAfterThrow env queueName now task db)).
    eapply IH. apply Hone. exact H.
Qed.

(** Retry bound and final status for the file-processing and the
    vector-storage queues: a task that fails [maxRetries + 1] times (counted
    from the retry count it carries) is dropped, and the document it belongs
    to is [failed], provided the write of that status goes through. *)
Lemma failing_task_document_failed (env : Env) (queueName : QueueName) (d : nat)
  (task : Task) (st : State) (doc : Document) :
  queueName <> EMBEDDING ->
  queues st = onlyTask queueName task ->
  alwaysThrows env queueName task ->
  retryCountOr0 task + d = maxRetriesOr3 task ->
  (forall t, writeFailed env t = true) ->
  findOne (database st) (documentId task) = Some doc ->
  let st' := iterations env (S d) st in
  queues st' = emptyQueues
  /\ exists doc', findOne (database st') (documentId task) = Some doc'
                  /\ status doc' = failed.
Proof.
  intros Hq Hqs Hthrows Hleft Hw Hdoc.
  destruct (failing_task_dropped env queueName d task st Hqs Hthrows Hleft)
    as (H1 & _ & _ & H4).
  cbv zeta. split; [exact H1|]. rewrite H4.
  now apply (throws_mark_failed env queueName task d (clock st) (database st) doc).
Qed.

(** The same for the embedding queue: the task is dropped, and the database
    is what it was before the first attempt. *)
Lemma failing_embedding_task_database_unchanged (env : Env) (d : nat)
  (task : Task) (st : State) :
  queues st = onlyTask EMBEDDING task ->
  alwaysThrows env EMBEDDING task ->
  retryCountOr0 task + d = maxRetriesOr3 task ->
  let st' := iterations env (S d) st in
  queues st' = emptyQueues /\ database st' = database st.
Proof.
  intros Hqs Hthrows Hleft.
  destruct (failing_task_dropped env EMBEDDING d task st Hqs Hthrows Hleft)
    as (H1 & _ & _ & H4).
  cbv zeta. split; [exact H1|]. rewrite H4.
  apply embedding_throws_keep_database.
Qed.

(** C2 (the behaviour that departs from the claim).  The retry bound holds
    for the three queues (see [failing_task_dropped]), and a file-processing
    or vector-storage task that fails for good leaves its document [failed]
    (see [failing_task_document_failed]).  An embedding task does not: a
    text file is uploaded and parsed, the embedding service is down, the
    embedding task fails four times ([maxRetries + 1] with the default 3)
    and is dropped, and the document is still [processing], with no error
    stored, however long the worker runs afterwards. *)
Theorem C2_embedding_failure_leaves_document_processing :
  let st := iterations embeddingServiceDown 5 uploaded in
  queues st = emptyQueues
  /\ length (filter isFailedEntry (log st)) = 4
  /\ In (GaveUp EMBEDDING (js "embedding_d1_1700000000000")) (log st)
  /\ (exists doc, findOne (database st) (js "d1") = Some doc
                  /\ status doc = processing /\ hasError doc = false)
  /\ (forall n,
        queues (iterations embeddingServiceDown (5 + n) uploaded) = emptyQueues
        /\ database (iterations embeddingServiceDown (5 + n) uploaded)
           = database st).
Proof.
  cbv zeta.
  assert (Hq : queues (iterations embeddingServiceDown 5 uploaded) = emptyQueues)
    by (vm_compute; reflexivity).
  split; [exact Hq|].
  split; [vm_compute; reflexivity|].
  split; [vm_compute; tauto|].
  split; [eexists; vm_compute; repeat split|].
  intros n. rewrite iterations_add.
  destruct (idle_iterations embeddingServiceDown n _ Hq) as (H1 & H2 & _).
  split; assumption.
Qed.

(* ====================================================================== *)
(** * Part III. Further properties of the code                            *)
(* ====================================================================== *)

Import QueueAdmin.

(** ** The queues *)

Lemma readQueue_writeQueue_same (queueName : QueueName) (items : list Task) (qs : Queues) :
  readQueue queueName (writeQueue queueName items qs) = items.
Proof. destruct queueName; reflexivity. Qed.

Lemma readQueue_writeQueue_other (q q' : QueueName) (items : list Task) (qs : Queues) :
  q <> q' -> readQueue q' (writeQueue q items qs) = readQueue q' qs.
Proof. destruct q, q'; intros H; try congruence; reflexivity. Qed.

Lemma writeQueue_writeQueue (q : QueueName) (a b : list Task) (qs : Queues) :
  writeQueue q a (writeQueue q b qs) = writeQueue q a qs.
Proof. destruct q; reflexivity. Qed.

Lemma drain_all (q : QueueName) (n : nat) (qs : Queues) :
  length (readQueue q qs) <= n ->
  drain q n qs = (readQueue q qs, match readQueue q qs with
                                  | [] => qs
                                  | _ :: _ => writeQueue q [] qs
                                  end).
Proof.
  revert qs. induction n as [|n IH]; intros qs Hn.
  - destruct (readQueue q qs) eqn:E; simpl in Hn; [|lia].
    reflexivity.
  - simpl. unfold popFromQueue.
    destruct (readQueue q qs) as [|t rest] eqn:E; [reflexivity|].
    rewrite IH by (rewrite readQueue_writeQueue_same; simpl in Hn; lia).
    rewrite readQueue_writeQueue_same.
    destruct rest; rewrite ?writeQueue_writeQueue; reflexivity.
Qed.

Lemma pushes_append (q : QueueName) (tasks : list Task) (qs : Queues) :
  readQueue q (fold_left (fun acc t => pushToQueue q t acc) tasks qs)
  = readQueue q qs ++ tasks.
Proof.
  revert qs. induction tasks as [|t ts IH]; intros qs; simpl.
  - now rewrite app_nil_r.
  - rewrite IH. unfold pushToQueue. rewrite readQueue_writeQueue_same.
    now rewrite <- app_assoc.
Qed.

(** X1.  A queue is first in, first out: after any sequence of pushes onto
    a queue, popping it until it is empty returns the tasks that were
    already waiting followed by the pushed tasks, in the order of the
    pushes, and a further pop returns nothing. *)
Theorem X1_queue_is_fifo (q : QueueName) (tasks : list Task) (qs : Queues) (n : nat) :
  let qs' := fold_left (fun acc t => pushToQueue q t acc) tasks qs in
  fst (drain q (length (readQueue q qs) + length tasks + n) qs')
  = readQueue q qs ++ tasks
  /\ fst (popFromQueue q
            (snd (drain q (length (readQueue q qs) + length tasks + n) qs')))
     = None.
Proof.
  cbv zeta.
  set (qs' := fold_left (fun acc t => pushToQueue q t acc) tasks qs).
  assert (Hr : readQueue q qs' = readQueue q qs ++ tasks) by apply pushes_append.
  rewrite drain_all by (rewrite Hr, length_app; lia).
  rewrite Hr. split; [reflexivity|]. simpl.
  destruct (readQueue q qs ++ tasks) eqn:E.
  - unfold popFromQueue. rewrite Hr. reflexivity.
  - unfold popFromQueue. rewrite readQueue_writeQueue_same. reflexivity.
Qed.

(** X2.  The three queues are independent: pushing to, popping from,
    retrying into or clearing one queue leaves the content of every other
    queue as it was. *)
Theorem X2_queues_are_independent (q q' : QueueName) (task : Task) (qs : Queues) :
  q <> q' ->
  readQueue q' (pushToQueue q task qs) = readQueue q' qs
  /\ readQueue q' (snd (popFromQueue q qs)) = readQueue q' qs
  /\ readQueue q' (snd (retryFailedTask q task qs)) = readQueue q' qs
  /\ readQueue q' (clearQueue q qs) = readQueue q' qs.
Proof.
  intros H. split; [|split; [|split]].
  - now apply readQueue_writeQueue_other.
  - unfold popFromQueue. destruct (readQueue q qs); simpl; [reflexivity|].
    now apply readQueue_writeQueue_other.
  - unfold retryFailedTask.
    destruct (retryCountOr0 task + 1 <=? maxRetriesOr3 task); simpl; [|reflexivity].
    now apply readQueue_writeQueue_other.
  - now apply readQueue_writeQueue_other.
Qed.

Lemma X2_queues_are_independent_witness :
  readQueue FILE_PROCESSING (pushToQueue EMBEDDING uploadTask (queues uploaded))
  = readQueue FILE_PROCESSING (queues uploaded).
Proof.
  apply (X2_queues_are_independent EMBEDDING FILE_PROCESSING uploadTask
           (queues uploaded)).
  discriminate.
Defined.


(** ** The retry count stays within its bound *)

Lemma maxRetriesOr3_positive (task : Task) : 1 <= maxRetriesOr3 task.
Proof. unfold maxRetriesOr3. destruct (maxRetries task) as [[|n]|]; lia. Qed.

Lemma withinBound_defaults (task : Task) :
  withinBound task -> withinBound (taskWithDefaults task).
Proof.
  unfold withinBound, taskWithDefaults, retryCountOr0, maxRetriesOr3. simpl.
  destruct (retryCount task), (maxRetries task) as [[|m]|]; simpl; lia.
Qed.

Lemma withinBound_fresh (task : Task) :
  retryCount task = None -> withinBound (taskWithDefaults task).
Proof.
  intros H. apply withinBound_defaults. unfold withinBound, retryCountOr0.
  rewrite H. pose proof (maxRetriesOr3_positive task). lia.
Qed.

Lemma allWithinBound_write (q : QueueName) (items : list Task) (qs : Queues) :
  Forall withinBound items -> allWithinBound qs ->
  allWithinBound (writeQueue q items qs).
Proof.
  intros Hi Hq q'. pose proof (Hq q') as H. destruct q, q'; simpl in *; auto.
Qed.

Lemma allWithinBound_push (q : QueueName) (task : Task) (qs : Queues) :
  withinBound task -> allWithinBound qs -> allWithinBound (pushToQueue q task qs).
Proof.
  intros Ht Hq. apply allWithinBound_write; [|exact Hq].
  apply Forall_app. split; [apply Hq | now constructor].
Qed.

Lemma allWithinBound_pop (q : QueueName) (qs : Queues) :
  allWithinBound qs ->
  allWithinBound (snd (popFromQueue q qs))
  /\ match fst (popFromQueue q qs) with
     | Some task => withinBound task
     | None => True
     end.
Proof.
  intros Hq. unfold popFromQueue. pose proof (Hq q) as H.
  destruct (readQueue q qs) as [|t rest]; simpl; [auto|].
  inversion H; subst. split; [|assumption].
  now apply allWithinBound_write.
Qed.

Lemma allWithinBound_retry (q : QueueName) (task : Task) (qs : Queues) :
  allWithinBound qs -> allWithinBound (snd (retryFailedTask q task qs)).
Proof.
  intros Hq. unfold retryFailedTask.
  destruct (retryCountOr0 task + 1 <=? maxRetriesOr3 task) eqn:E; simpl; [|exact Hq].
  apply Nat.leb_le in E. apply allWithinBound_push; [|exact Hq].
  unfold withinBound, withRetry, retryCountOr0, maxRetriesOr3 in *. simpl. exact E.
Qed.

Lemma allWithinBound_handler (env : Env) (q : QueueName) (now : nat)
  (task : Task) (qs : Queues) (db : Database) :
  allWithinBound qs ->
  allWithinBound (fst (fst (handlerOf env q now task qs db))).
Proof.
  intros Hq.
  destruct q; simpl;
    unfold processFile, processEmbedding, processVectorStorage,
           markFailedAndRethrow;
    repeat break_match; simpl; try exact Hq;
    apply allWithinBound_push; try exact Hq;
    apply withinBound_fresh; reflexivity.
Qed.

Lemma allWithinBound_runTask (env : Env) (q : QueueName) (task : Task)
  (qs : Queues) (st : State) :
  allWithinBound qs ->
  allWithinBound (queues (runTask q (handlerOf env q (clock st)) task qs st)).
Proof.
  intros Hq. unfold runTask.
  pose proof (allWithinBound_handler env q (clock st) task qs (database st) Hq) as H.
  destruct (handlerOf env q (clock st) task qs (database st)) as [[qs' db'] [u|]];
    simpl in *; [exact H|].
  pose proof (allWithinBound_retry q task qs' H) as Hr.
  destruct (retryFailedTask q task qs') as [retried qs'']. exact Hr.
Qed.

Lemma allWithinBound_iteration (env : Env) (st : State) :
  allWithinBound (queues st) -> allWithinBound (queues (workerIteration env st)).
Proof.
  intros Hq. unfold workerIteration.
  destruct (allWithinBound_pop FILE_PROCESSING (queues st) Hq) as [H1 _].
  destruct (allWithinBound_pop EMBEDDING (queues st) Hq) as [H2 _].
  destruct (allWithinBound_pop VECTOR_STORAGE (queues st) Hq) as [H3 _].
  unfold popFileProcessingTask, popEmbeddingTask, popVectorStorageTask.
  destruct (popFromQueue FILE_PROCESSING (queues st)) as [[t|] qs1]; simpl in H1.
  - apply (allWithinBound_runTask env FILE_PROCESSING); exact H1.
  - destruct (popFromQueue EMBEDDING (queues st)) as [[t|] qs2]; simpl in H2.
    + apply (allWithinBound_runTask env EMBEDDING); exact H2.
    + destruct (popFromQueue VECTOR_STORAGE (queues st)) as [[t|] qs3]; simpl in H3.
      * apply (allWithinBound_runTask env VECTOR_STORAGE); exact H3.
      * exact Hq.
Qed.

(** X4.  Invariant of the worker: if every queued task has its retry count
    within its bound ([retryCount <= maxRetries], both with their defaults),
    this still holds after any number of worker iterations, whatever the
    environment does; and tasks pushed without a retry count enter the
    queues within their bound. *)
Theorem X4_retry_count_stays_within_bound (env : Env) (n : nat) (st : State) :
  allWithinBound (queues st) ->
  allWithinBound (queues (iterations env n st))
  /\ (forall task, retryCount task = None ->
        allWithinBound (pushFileProcessingTask task (queues (iterations env n st)))).
Proof.
  intros Hq.
  assert (H : allWithinBound (queues (iterations env n st))).
  { revert st Hq. induction n as [|n IH]; intros st Hq; simpl; [exact Hq|].
    apply IH. now apply allWithinBound_iteration. }
  split; [exact H|]. intros task Ht.
  apply allWithinBound_push; [now apply withinBound_fresh | exact H].
Qed.

Lemma X4_retry_count_witness :
  allWithinBound (queues (iterations embeddingServiceDown 3 uploaded)).
Proof.
  apply (X4_retry_count_stays_within_bound embeddingServiceDown 3 uploaded).
  intros q. destruct q; vm_compute; repeat constructor.
Defined.

(** ** The worker *)

(** X5.  Retry bound, for each of the three queues: a task that waits
    alone in the queues, whose handler throws at every attempt and that has
    [d] retries left (its retry count plus [d] is its bound) is attempted
    exactly [d + 1] times; after these iterations the queues are empty and
    the worker has logged that it gave the task up. *)
Theorem X5_failing_task_is_attempted_once_per_retry
  (env : Env) (queueName : QueueName) (d : nat) (task : Task) (st : State) :
  queues st = onlyTask queueName task ->
  alwaysThrows env queueName task ->
  retryCountOr0 task + d = maxRetriesOr3 task ->
  queues (iterations env (S d) st) = emptyQueues
  /\ length (filter isFailedEntry (log (iterations env (S d) st)))
     = length (filter isFailedEntry (log st)) + S d
  /\ In (GaveUp queueName (id task)) (log (iterations env (S d) st)).
Proof.
  intros Hq Hthrows Hleft.
  destruct (failing_task_dropped env queueName d task st Hq Hthrows Hleft)
    as (H1 & H2 & H3 & _).
  auto.
Qed.

Lemma X5_failing_task_witness :
  queues (iterations embeddingServiceDown 4 (iterations embeddingServiceDown 1 uploaded))
  = emptyQueues
  /\ length (filter isFailedEntry
               (log (iterations embeddingServiceDown 4
                       (iterations embeddingServiceDown 1 uploaded))))
     = length (filter isFailedEntry (log (iterations embeddingServiceDown 1 uploaded)))
       + 4
  /\ In (GaveUp EMBEDDING (id queuedEmbeddingTask))
        (log (iterations embeddingServiceDown 4
                (iterations embeddingServiceDown 1 uploaded))).
Proof.
  apply (X5_failing_task_is_attempted_once_per_retry embeddingServiceDown
           EMBEDDING 3 queuedEmbeddingTask
           (iterations embeddingServiceDown 1 uploaded)).
  - vm_compute. reflexivity.
  - intros now rc qs db. reflexivity.
  - vm_compute. reflexivity.
Defined.

(** X6.  A file-processing or vector-storage task that fails for good
    leaves its document [failed]: when its handler throws at every attempt
    and the write of the status goes through, then after the last attempt
    the task is in no queue and the document it belongs to has the status
    [failed]. *)
Theorem X6_failed_task_marks_document_failed
  (env : Env) (queueName : QueueName) (d : nat)
  (task : Task) (st : State) (doc : Document) :
  queueName <> EMBEDDING ->
  queues st = onlyTask queueName task ->
  alwaysThrows env queueName task ->
  retryCountOr0 task + d = maxRetriesOr3 task ->
  (forall t, writeFailed env t = true) ->
  findOne (database st) (documentId task) = Some doc ->
  queues (iterations env (S d) st) = emptyQueues
  /\ exists doc',
       findOne (database (iterations env (S d) st)) (documentId task) = Some doc'
       /\ status doc' = failed /\ hasError doc' = true.
Proof.
  intros Hq Hqs Hthrows Hleft Hw Hdoc.
  destruct (failing_task_dropped env queueName d task st Hqs Hthrows Hleft)
    as (H1 & _ & _ & H4).
  split; [exact H1|]. rewrite H4. clear H1 H4 Hqs Hleft Hthrows.
  generalize (clock st) (database st) doc Hdoc. clear Hdoc doc.
  assert (Hone : forall now db doc,
            findOne db (documentId task) = Some doc ->
            findOne (databaseAfterThrow env queueName now task db) (documentId task)
            = Some (setFailed doc)).
  { intros now db doc H. unfold databaseAfterThrow.
    destruct queueName; try congruence; rewrite Hw; now apply findOne_updateOne. }
  induction d as [|d IH]; intros now db doc Hdoc.
  - simpl. exists (setFailed doc). split; [now apply Hone | split; reflexivity].
  - change (databaseAfterThrows env queueName task (S (S d)) now db)
      with (databaseAfterThrows env queueName task (S d) (S now)
              (databaseAfterThrow env queueName now task db)).
    apply (IH (S now) _ (setFailed doc)). now apply Hone.
Qed.

Lemma X6_failed_task_witness :
  queues (iterations storageDown 4 uploaded) = emptyQueues
  /\ exists doc',
       findOne (database (iterations storageDown 4 uploaded))
               (documentId (taskWithDefaults uploadTask)) = Some doc'
       /\ status doc' = failed /\ hasError doc' = true.
Proof.
  apply (X6_failed_task_marks_document_failed storageDown FILE_PROCESSING 3
           (taskWithDefaults uploadTask) uploaded
           {| status := pending; hasError := false;
              chunksCount := None; vectorsCount := None |}).
  - discriminate.
  - reflexivity.
  - intros now rc qs db. reflexivity.
  - reflexivity.
  - intros t. reflexivity.
  - reflexivity.
Defined.

Lemma parseByType_text (env : Env) (now : nat) (buffer : list N) :
  parseByType env now (js "text/plain") buffer = Ok (decodeText env buffer).
Proof. reflexivity. Qed.

Lemma isEmpty_false (s : jsstring) : s <> [] -> isEmpty s = false.
Proof. destruct s; [congruence | reflexivity]. Qed.

(** What [processFile] does with a text file when every call it makes
    succeeds. *)
Lemma processFile_text_succeeds (env : Env) (now : nat) (task : Task)
  (userId fileName url : jsstring) (buffer : list N) (chunks : list Chunk)
  (qs : Queues) (db : Database) :
  payload task = FileProcessingPayload userId fileName (js "text/plain") url ->
  url <> [] ->
  download env now url = Ok buffer ->
  Worker.chunkText (decodeText env buffer) 1000 200 = Some chunks ->
  writeProcessing env now = true ->
  exists embeddingTask tagged,
    processFile env now task qs db
    = (pushEmbeddingTask embeddingTask qs,
       updateOne db (documentId task) (setProcessing (length chunks)), Ok tt)
    /\ documentId embeddingTask = documentId task
    /\ retryCount embeddingTask = None
    /\ payload embeddingTask = EmbeddingPayload tagged
    /\ map chunk_content tagged = map chunk_content chunks.
Proof.
  intros Hp Hu Hd Hc Hw. unfold processFile. rewrite Hp.
  rewrite (isEmpty_false url Hu), Hd. unfold bind.
  rewrite parseByType_text. rewrite Hc, Hw.
  eexists. eexists. split; [reflexivity|]. simpl.
  repeat split. rewrite map_map. reflexivity.
Qed.

Lemma processEmbedding_succeeds (env : Env) (now : nat) (task : Task)
  (chunks : list Chunk) (vs : list (list Q)) (qs : Queues) (db : Database) :
  payload task = EmbeddingPayload chunks ->
  batchEmbeddings env now (map chunk_content chunks) = Ok vs ->
  exists vectorTask vectors,
    processEmbedding env now task qs db
    = (pushVectorStorageTask vectorTask qs, db, Ok tt)
    /\ documentId vectorTask = documentId task
    /\ retryCount vectorTask = None
    /\ payload vectorTask = VectorStoragePayload vectors
    /\ length vectors = length chunks.
Proof.
  intros Hp Hb. unfold processEmbedding. rewrite Hp, Hb.
  eexists. eexists. split; [reflexivity|]. simpl. repeat split.
  rewrite length_map, length_combine, length_seq. lia.
Qed.

Lemma processVectorStorage_succeeds (env : Env) (now : nat) (task : Task)
  (vectors : list Vector) (qs : Queues) (db : Database) :
  payload task = VectorStoragePayload vectors ->
  upsert env now vectors = Ok tt ->
  writeCompleted env now = true ->
  processVectorStorage env now task qs db
  = (qs, updateOne db (documentId task) (setCompleted (length vectors)), Ok tt).
Proof.
  intros Hp Hu Hw. unfold processVectorStorage. now rewrite Hp, Hu, Hw.
Qed.

Lemma pushed_alone (q : QueueName) (task : Task) :
  pushToQueue q (taskWithDefaults task) emptyQueues
  = onlyTask q (taskWithDefaults task).
Proof. apply pushToQueue_empty. Qed.

(** X7.  The three stages compose: when the download, the embedding
    service, the vector index and the database all answer, a text file that
    waits alone in the file-processing queue is parsed, embedded and stored
    in three worker iterations; afterwards the queues are empty and its
    document is [completed], with as many vectors as chunks. *)
Theorem X7_text_file_is_completed_in_three_iterations
  (env : Env) (task : Task) (st : State) (doc : Document)
  (userId fileName url : jsstring) (buffer : list N) :
  payload task = FileProcessingPayload userId fileName (js "text/plain") url ->
  url <> [] ->
  queues st = onlyTask FILE_PROCESSING task ->
  findOne (database st) (documentId task) = Some doc ->
  (forall now, download env now url = Ok buffer) ->
  (forall now, writeProcessing env now = true) ->
  (forall now, writeCompleted env now = true) ->
  (forall now texts, exists vs, batchEmbeddings env now texts = Ok vs) ->
  (forall now vectors, upsert env now vectors = Ok tt) ->
  exists chunks doc',
    Worker.chunkText (decodeText env buffer) 1000 200 = Some chunks
    /\ queues (iterations env 3 st) = emptyQueues
    /\ findOne (database (iterations env 3 st)) (documentId task) = Some doc'
    /\ status doc' = completed
    /\ chunksCount doc' = Some (length chunks)
    /\ vectorsCount doc' = Some (length chunks).
Proof.
  intros Hp Hu Hq Hdoc Hd Hwp Hwc He Hup.
  destruct (chunkText_terminates (decodeText env buffer) 1000 200) as [chunks Hc].
  exists chunks.
  (* first iteration: the file task *)
  destruct (processFile_text_succeeds env (clock st) task userId fileName url
              buffer chunks emptyQueues (database st) Hp Hu (Hd _) Hc (Hwp _))
    as (et & tagged & H1 & Hid1 & Hrc1 & Hp1 & Hlen1).
  assert (Hs1 : workerIteration env st
                = {| queues := onlyTask EMBEDDING (taskWithDefaults et);
                     database := updateOne (database st) (documentId task)
                                   (setProcessing (length chunks));
                     clock := S (clock st);
                     log := log st ++ [Found FILE_PROCESSING (id task);
                                       Done FILE_PROCESSING (id task)] |}).
  { rewrite (workerIteration_onlyTask env FILE_PROCESSING task st Hq).
    unfold runTask. simpl handlerOf. rewrite H1.
    unfold pushEmbeddingTask. rewrite pushed_alone. reflexivity. }
  (* second iteration: the embedding task *)
  set (st1 := workerIteration env st) in *.
  destruct (He (clock st1) (map chunk_content tagged)) as [vs Hvs].
  assert (Hp1' : payload (taskWithDefaults et) = EmbeddingPayload tagged)
    by (simpl; exact Hp1).
  destruct (processEmbedding_succeeds env (clock st1) (taskWithDefaults et)
              tagged vs emptyQueues (database st1) Hp1' Hvs)
    as (vt & vectors & H2 & Hid2 & Hrc2 & Hp2 & Hlen2).
  assert (Hq1 : queues st1 = onlyTask EMBEDDING (taskWithDefaults et))
    by (rewrite Hs1; reflexivity).
  assert (Hs2 : workerIteration env st1
                = {| queues := onlyTask VECTOR_STORAGE (taskWithDefaults vt);
                     database := database st1;
                     clock := S (clock st1);
                     log := log st1 ++ [Found EMBEDDING (id (taskWithDefaults et));
                                        Done EMBEDDING (id (taskWithDefaults et))] |}).
  { rewrite (workerIteration_onlyTask env EMBEDDING _ st1 Hq1).
    unfold runTask. simpl handlerOf. rewrite H2.
    unfold pushVectorStorageTask. rewrite pushed_alone. reflexivity. }
  (* third iteration: the vector task *)
  set (st2 := workerIteration env st1) in *.
  assert (Hq2 : queues st2 = onlyTask VECTOR_STORAGE (taskWithDefaults vt))
    by (rewrite Hs2; reflexivity).
  assert (Hp2' : payload (taskWithDefaults vt) = VectorStoragePayload vectors)
    by (simpl; exact Hp2).
  assert (Hs3 : workerIteration env st2
                = {| queues := emptyQueues;
                     database := updateOne (database st2)
                                   (documentId (taskWithDefaults vt))
                                   (setCompleted (length vectors));
                     clock := S (clock st2);
                     log := log st2 ++ [Found VECTOR_STORAGE (id (taskWithDefaults vt));
                                        Done VECTOR_STORAGE (id (taskWithDefaults vt))] |}).
  { rewrite (workerIteration_onlyTask env VECTOR_STORAGE _ st2 Hq2).
    unfold runTask. simpl handlerOf.
    rewrite (processVectorStorage_succeeds env (clock st2) _ vectors
               emptyQueues (database st2) Hp2' (Hup _ _) (Hwc _)).
    reflexivity. }
  change (iterations env 3 st) with (workerIteration env st2).
  rewrite Hs3. simpl queues. simpl database.
  assert (Hdb2 : database st2 = updateOne (database st) (documentId task)
                                  (setProcessing (length chunks))).
  { rewrite Hs2. simpl. rewrite Hs1. reflexivity. }
  assert (Hdocid : documentId (taskWithDefaults vt) = documentId task).
  { simpl. rewrite Hid2. simpl. exact Hid1. }
  rewrite Hdb2. simpl in Hdocid. rewrite ?Hdocid.
  exists (setCompleted (length vectors) (setProcessing (length chunks) doc)).
  split; [exact Hc|]. split; [reflexivity|].
  split; [apply findOne_updateOne; now apply findOne_updateOne|].
  simpl. repeat split.
  rewrite Hlen2. f_equal.
  rewrite <- (length_map chunk_content tagged), Hlen1. apply length_map.
Qed.

Lemma X7_text_file_witness :
  exists chunks doc',
    Worker.chunkText (decodeText allServicesUp [104; 105]%N) 1000 200 = Some chunks
    /\ queues (iterations allServicesUp 3 uploaded) = emptyQueues
    /\ findOne (database (iterations allServicesUp 3 uploaded))
               (documentId (taskWithDefaults uploadTask)) = Some doc'
    /\ status doc' = completed
    /\ chunksCount doc' = Some (length chunks)
    /\ vectorsCount doc' = Some (length chunks).
Proof.
  apply (X7_text_file_is_completed_in_three_iterations allServicesUp
           (taskWithDefaults uploadTask) uploaded
           {| status := pending; hasError := false;
              chunksCount := None; vectorsCount := None |}
           (js "u1") (js "notes.txt") (js "https://blob/notes.txt")
           [104; 105]%N).
  - reflexivity.
  - vm_compute. discriminate.
  - reflexivity.
  - reflexivity.
  - intros now. reflexivity.
  - intros now. reflexivity.
  - intros now. reflexivity.
  - intros now texts. eexists. reflexivity.
  - intros now vectors. reflexivity.
Defined.

Lemma parseByType_unsupported (env : Env) (now : nat) (fileType : jsstring)
  (buffer : list N) :
  supportedType fileType = false ->
  parseByType env now fileType buffer = Throw.
Proof.
  unfold supportedType, parseByType. intros H.
  repeat (apply orb_false_iff in H; destruct H as [H ?]).
  repeat match goal with Hx : _ = false |- _ => rewrite Hx; clear Hx end.
  reflexivity.
Qed.

Lemma unsupported_always_throws (env : Env) (task : Task)
  (userId fileName fileType url : jsstring) :
  payload task = FileProcessingPayload userId fileName fileType url ->
  supportedType fileType = false ->
  alwaysThrows env FILE_PROCESSING task.
Proof.
  intros Hp Hs now rc qs db. simpl. unfold processFile. simpl payload.
  rewrite Hp. destruct (isEmpty url); [reflexivity|].
  destruct (download env now url) as [buffer|]; [|reflexivity].
  unfold bind. rewrite (parseByType_unsupported env now fileType buffer Hs).
  reflexivity.
Qed.

(** X8.  A file whose type has no parser is not set aside as a permanent
    failure: its task throws at every attempt, in every environment, so it
    is retried like any other.  With [d] retries left it is attempted
    [d + 1] times; after that the queues are empty (no embedding task has
    been queued for it) and its document is [failed] when that write goes
    through. *)
Theorem X8_unsupported_type_is_retried_then_failed
  (env : Env) (d : nat) (task : Task) (st : State) (doc : Document)
  (userId fileName fileType url : jsstring) :
  payload task = FileProcessingPayload userId fileName fileType url ->
  supportedType fileType = false ->
  queues st = onlyTask FILE_PROCESSING task ->
  retryCountOr0 task + d = maxRetriesOr3 task ->
  (forall t, writeFailed env t = true) ->
  findOne (database st) (documentId task) = Some doc ->
  length (filter isFailedEntry (log (iterations env (S d) st)))
  = length (filter isFailedEntry (log st)) + S d
  /\ queues (iterations env (S d) st) = emptyQueues
  /\ exists doc',
       findOne (database (iterations env (S d) st)) (documentId task) = Some doc'
       /\ status doc' = failed.
Proof.
  intros Hp Hs Hq Hleft Hw Hdoc.
  pose proof (unsupported_always_throws env task userId fileName fileType url Hp Hs)
    as Hthrows.
  destruct (failing_task_dropped env FILE_PROCESSING d task st Hq Hthrows Hleft)
    as (H1 & H2 & _ & H4).
  split; [exact H2|]. split; [exact H1|]. rewrite H4.
  apply (throws_mark_failed env FILE_PROCESSING task d (clock st) (database st) doc);
    [discriminate | exact Hw | exact Hdoc].
Qed.

Lemma X8_unsupported_type_witness :
  length (filter isFailedEntry (log (iterations allServicesUp 4 videoUploaded)))
  = length (filter isFailedEntry (log videoUploaded)) + 4
  /\ queues (iterations allServicesUp 4 videoUploaded) = emptyQueues
  /\ exists doc',
       findOne (database (iterations allServicesUp 4 videoUploaded))
               (documentId (taskWithDefaults videoTask)) = Some doc'
       /\ status doc' = failed.
Proof.
  apply (X8_unsupported_type_is_retried_then_failed allServicesUp 3
           (taskWithDefaults videoTask) videoUploaded
           {| status := pending; hasError := false;
              chunksCount := None; vectorsCount := None |}
           (js "u1") (js "clip.mp4") (js "video/mp4") (js "https://blob/clip.mp4")).
  - reflexivity.
  - vm_compute. reflexivity.
  - reflexivity.
  - reflexivity.
  - intros t. reflexivity.
  - reflexivity.
Defined.

(** ** The character windows of [Worker.chunkText] *)

Lemma trimStart_length (s : jsstring) : length (trimStart s) <= length s.
Proof.
  induction s as [|c s IH]; simpl; [lia|].
  destruct (isWhiteSpace c); simpl; lia.
Qed.

Lemma trim_length (s : jsstring) : length (trim s) <= length s.
Proof.
  unfold trim, trimEnd. rewrite length_rev.
  etransitivity; [apply trimStart_length|]. rewrite length_rev.
  apply trimStart_length.
Qed.

Lemma slice_length (start end_ : nat) (s : jsstring) :
  length (slice start end_ s) <= end_ - start.
Proof. unfold slice. rewrite length_firstn. lia. Qed.

Lemma lastIndexOf_scan_le (c : N) (s : jsstring) (i pos best : Z) :
  (best <= pos)%Z -> (lastIndexOf_scan c s i pos best <= pos)%Z.
Proof.
  revert i best. induction s as [|x s IH]; intros i best Hb; simpl; [exact Hb|].
  destruct (i <=? pos)%Z eqn:E; [|exact Hb].
  apply IH. destruct (x =? c)%N; [|exact Hb]. now apply Z.leb_le.
Qed.

Lemma lastIndexOf_le (c : N) (s : jsstring) (pos : nat) :
  (lastIndexOf c s (Z.of_nat pos) <= Z.of_nat pos)%Z.
Proof.
  unfold lastIndexOf. rewrite Z.max_r by lia.
  apply lastIndexOf_scan_le. lia.
Qed.

Lemma half_nonneg (n : nat) : (0 <= num n * 0.5)%Q.
Proof.
  unfold num. apply Qmult_le_0_compat; [|lra].
  change 0%Q with (inject_Z 0). rewrite <- Zle_Qle. lia.
Qed.

(** The window [[start, end)] is never empty-by-regress and extends at most one
    code unit beyond [start + chunkSize]. *)
Lemma windowEnd_bounds (cleanText : jsstring) (chunkSize start : nat) :
  start <= windowEnd cleanText chunkSize start <= start + chunkSize + 1.
Proof.
  unfold windowEnd.
  destruct (start + chunkSize <? length cleanText); [|lia].
  set (bp := Z.max _ _).
  assert (Hbp : (bp <= Z.of_nat (start + chunkSize))%Z).
  { unfold bp. repeat apply Z.max_lub; apply lastIndexOf_le. }
  destruct (Qltb _ _) eqn:E; [|lia].
  apply Qltb_lt in E.
  pose proof (half_nonneg chunkSize) as Hh.
  assert (Hs : (num start < inject_Z bp)%Q) by lra.
  unfold num in Hs. rewrite <- Zlt_Qlt in Hs. lia.
Qed.

Lemma nth_error_snoc {A} (l : list A) (x y : A) (i : nat) :
  nth_error (l ++ [x]) i = Some y ->
  (i < length l /\ nth_error l i = Some y) \/ (i = length l /\ y = x).
Proof.
  intros H. destruct (Nat.lt_ge_cases i (length l)) as [Hlt|Hge].
  - left. split; [exact Hlt|]. now rewrite nth_error_app1 in H.
  - right. rewrite nth_error_app2 in H by exact Hge.
    destruct (i - length l) as [|k] eqn:E; simpl in H.
    + injection H as <-. split; [lia | reflexivity].
    + destruct k; discriminate.
Qed.

Section WindowLoop.

Variables (cleanText : jsstring) (chunkSize overlap : nat).

(** An invariant of the loop: [Inv start chunks] is kept by an iteration
    that appends a chunk and by one that does not. *)
Lemma windowLoop_invariant (Inv : nat -> list Chunk -> Prop) :
  (forall start chunks,
     start < length cleanText -> Inv start chunks ->
     let end_ := windowEnd cleanText chunkSize start in
     let chunkContent := trim (slice start end_ cleanText) in
     (chunkContent <> [] ->
      Inv (nextStart end_ overlap start)
          (chunks ++
           [ {| chunk_id := chunkName (length chunks);
                chunk_content := chunkContent;
                chunk_metadata :=
                  chunkMetadata (length chunks) 0 (length chunkContent)
                    (Some start) (Some end_) |} ]))
     /\ (chunkContent = [] -> Inv (nextStart end_ overlap start) chunks)) ->
  forall fuel start chunks out,
    windowLoop fuel cleanText chunkSize overlap start (length chunks) chunks
    = Some out ->
    Inv start chunks -> exists start', Inv start' out.
Proof.
  intros Hstep. induction fuel as [|fuel IH]; intros start chunks out; simpl.
  - destruct (start <? length cleanText); [discriminate|].
    intros [= <-] H. now exists start.
  - destruct (start <? length cleanText) eqn:Hlt;
      [|intros [= <-] H; now exists start].
    apply Nat.ltb_lt in Hlt. intros Hloop Hinv.
    destruct (Hstep start chunks Hlt Hinv) as [Hpush Hskip].
    destruct (trim (slice start (windowEnd cleanText chunkSize start) cleanText))
      as [|c s] eqn:E; simpl in Hloop.
    + eapply IH; [exact Hloop | now apply Hskip].
    + match type of Hloop with
      | windowLoop _ _ _ _ _ _ ?l = _ =>
        replace (length chunks + 1) with (length l) in Hloop
          by (rewrite length_app; simpl; lia)
      end.
      eapply IH; [exact Hloop|]. apply Hpush. discriminate.
Qed.

Lemma windowLoop_windows (fuel : nat) (out : list Chunk) :
  windowLoop fuel cleanText chunkSize overlap 0 0 [] = Some out ->
  (forall i c, nth_error out i = Some c -> isWindow cleanText chunkSize i c)
  /\ (forall i j ci cj,
        i < j -> nth_error out i = Some ci -> nth_error out j = Some cj ->
        startOf ci < startOf cj).
Proof.
  intros Hloop.
  destruct (windowLoop_invariant
              (fun start chunks =>
                 (forall i c, nth_error chunks i = Some c ->
                              isWindow cleanText chunkSize i c /\ startOf c < start)
                 /\ (forall i j ci cj,
                       i < j -> nth_error chunks i = Some ci ->
                       nth_error chunks j = Some cj -> startOf ci < startOf cj)))
    with (fuel := fuel) (start := 0) (chunks := @nil Chunk) (out := out)
    as (start' & Hw & Hs).
  - intros start chunks Hlt [Hw Hs] end_ chunkContent.
    pose proof (nextStart_increases end_ overlap start) as Hinc.
    split.
    + intros Hne. split.
      * intros i c Hc. apply nth_error_snoc in Hc as [[Hi Hc]|[-> ->]].
        -- destruct (Hw i c Hc). split; [assumption | lia].
        -- split; [|unfold startOf; simpl; exact Hinc].
           repeat split; try reflexivity; try exact Hne.
           exists start, end_. repeat split; assumption || reflexivity.
      * intros i j ci cj Hij Hi Hj.
        apply nth_error_snoc in Hj as [[Hj' Hj]|[-> ->]].
        -- rewrite nth_error_app1 in Hi by lia. eauto.
        -- rewrite nth_error_app1 in Hi by lia.
           destruct (Hw i ci Hi) as [_ H]. exact H.
    + intros _. split; [|exact Hs].
      intros i c Hc. destruct (Hw i c Hc). split; [assumption | lia].
  - exact Hloop.
  - split.
    + intros i c Hc. destruct i; discriminate.
    + intros i j ci cj _ Hc. destruct i; discriminate.
  - split; [|exact Hs]. intros i c Hc. now destruct (Hw i c Hc).
Qed.

End WindowLoop.

Lemma nth_error_map_setTotalChunks (total : nat) (chunks : list Chunk) (i : nat)
  (c : Chunk) :
  nth_error (map (setTotalChunks total) chunks) i = Some c ->
  exists c', nth_error chunks i = Some c' /\ c = setTotalChunks total c'.
Proof.
  rewrite nth_error_map. destruct (nth_error chunks i) as [c'|]; [|discriminate].
  intros [= <-]. now exists c'.
Qed.

(** X9.  [chunkText] of the worker returns for every text, chunk size and
    overlap; the chunk at position [i] of the result is named [chunk_i] and
    carries the index [i], every chunk records the number of chunks of the
    result and the length of its own content, and no content is longer than
    [chunkSize + 1] code units (a window that breaks after a full stop or a
    space found at index [start + chunkSize] includes it). *)
Theorem X9_chunks_are_numbered_and_bounded (text : jsstring) (chunkSize overlap : nat) :
  exists chunks,
    Worker.chunkText text chunkSize overlap = Some chunks
    /\ forall i c,
         nth_error chunks i = Some c ->
         chunk_id c = chunkName i
         /\ chunkIndex (chunk_metadata c) = i
         /\ totalChunks (chunk_metadata c) = length chunks
         /\ md_length (chunk_metadata c) = length (chunk_content c)
         /\ length (chunk_content c) <= chunkSize + 1.
Proof.
  unfold Worker.chunkText.
  destruct (length (cleanTextOf text) <=? chunkSize) eqn:E.
  - apply Nat.leb_le in E. eexists. split; [reflexivity|].
    intros [|[|i]] c; simpl; try discriminate.
    intros [= <-]. simpl. repeat split. lia.
  - destruct (windowLoop_terminates (length (cleanTextOf text)) (cleanTextOf text)
                chunkSize overlap 0 0 []) as [out Hloop]; [lia|].
    rewrite Hloop. eexists. split; [reflexivity|].
    intros i c Hc. rewrite length_map.
    apply nth_error_map_setTotalChunks in Hc as (c' & Hc' & ->).
    destruct (windowLoop_windows _ _ _ _ _ Hloop) as [Hw _].
    destruct (Hw i c' Hc') as (Hid & Hidx & Hlen & _ & s & e & _ & _ & _ & He & Hcont).
    simpl. repeat split; try assumption.
    rewrite Hcont. etransitivity; [apply trim_length|].
    etransitivity; [apply slice_length|].
    pose proof (windowEnd_bounds (cleanTextOf text) chunkSize s). lia.
Qed.

(** X10.  When the cleaned text is longer than [chunkSize], every chunk of
    the result is a non-empty window of the cleaned text: it records a start
    and an end position with [start < end <= start + chunkSize + 1], its
    content is the text between them, trimmed, and the start positions grow
    strictly along the result. *)
Theorem X10_windowed_chunks_are_advancing_windows (text : jsstring)
  (chunkSize overlap : nat) (chunks : list Chunk) :
  chunkSize < length (cleanTextOf text) ->
  Worker.chunkText text chunkSize overlap = Some chunks ->
  (forall i c,
     nth_error chunks i = Some c ->
     exists s e,
       startPosition (chunk_metadata c) = Some s
       /\ endPosition (chunk_metadata c) = Some e
       /\ s < e <= s + chunkSize + 1
       /\ s < length (cleanTextOf text)
       /\ chunk_content c = trim (slice s e (cleanTextOf text))
       /\ chunk_content c <> [])
  /\ (forall i j ci cj,
        i < j -> nth_error chunks i = Some ci -> nth_error chunks j = Some cj ->
        startOf ci < startOf cj).
Proof.
  intros Hlong. unfold Worker.chunkText.
  destruct (length (cleanTextOf text) <=? chunkSize) eqn:E;
    [apply Nat.leb_le in E; lia|].
  destruct (windowLoop _ _ _ _ _ _ _) as [out|] eqn:Hloop; [|discriminate].
  intros [= <-].
  destruct (windowLoop_windows _ _ _ _ _ Hloop) as [Hw Hs]. split.
  - intros i c Hc.
    apply nth_error_map_setTotalChunks in Hc as (c' & Hc' & ->).
    destruct (Hw i c' Hc') as (_ & _ & _ & Hne & s & e & Hsp & Hep & Hlt & He & Hcont).
    exists s, e. simpl. repeat split; try assumption.
    + destruct (Nat.lt_ge_cases s e) as [H|H]; [exact H|].
      exfalso. apply Hne. rewrite Hcont. unfold slice.
      replace (e - s) with 0 by lia. reflexivity.
    + pose proof (windowEnd_bounds (cleanTextOf text) chunkSize s). lia.
  - intros i j ci cj Hij Hi Hj.
    apply nth_error_map_setTotalChunks in Hi as (ci' & Hi & ->).
    apply nth_error_map_setTotalChunks in Hj as (cj' & Hj & ->).
    exact (Hs i j ci' cj' Hij Hi Hj).
Qed.

Lemma X10_windowed_chunks_witness :
  (forall i c,
     nth_error windowedChunks i = Some c ->
     exists s e,
       startPosition (chunk_metadata c) = Some s
       /\ endPosition (chunk_metadata c) = Some e
       /\ s < e <= s + 12 + 1
       /\ s < length (cleanTextOf windowedText)
       /\ chunk_content c = trim (slice s e (cleanTextOf windowedText))
       /\ chunk_content c <> [])
  /\ (forall i j ci cj,
        i < j -> nth_error windowedChunks i = Some ci ->
        nth_error windowedChunks j = Some cj ->
        startOf ci < startOf cj).
Proof.
  apply (X10_windowed_chunks_are_advancing_windows windowedText 12 3 windowedChunks).
  - vm_compute. lia.
  - reflexivity.
Defined.

(** ** White space *)

Lemma trimStart_head (s t : jsstring) (c : N) :
  trimStart s = c :: t -> isWhiteSpace c = false.
Proof.
  induction s as [|x s IH]; simpl; [discriminate|].
  destruct (isWhiteSpace x) eqn:E; [exact IH|]. now intros [= <- _].
Qed.

Lemma trimStart_fixed (s : jsstring) (c : N) :
  isWhiteSpace c = false -> trimStart (c :: s) = c :: s.
Proof. intros H. simpl. now rewrite H. Qed.

Lemma trimStart_idempotent (s : jsstring) : trimStart (trimStart s) = trimStart s.
Proof.
  destruct (trimStart s) as [|c t] eqn:E; [reflexivity|].
  apply trimStart_fixed. exact (trimStart_head s t c E).
Qed.

Lemma trimStart_suffix (s : jsstring) : exists pre, s = pre ++ trimStart s.
Proof.
  induction s as [|c s [pre IH]]; [now exists []|]. simpl.
  destruct (isWhiteSpace c); [|now exists []].
  exists (c :: pre). simpl. now rewrite <- IH.
Qed.

Lemma trimEnd_prefix (s : jsstring) : exists post, s = trimEnd s ++ post.
Proof.
  unfold trimEnd. destruct (trimStart_suffix (rev s)) as [pre H].
  exists (rev pre). rewrite <- rev_app_distr, <- H. now rewrite rev_involutive.
Qed.

Lemma trimStart_snoc (l : jsstring) (c : N) :
  isWhiteSpace c = false -> exists l', trimStart (l ++ [c]) = l' ++ [c].
Proof.
  intros Hc. induction l as [|x l [l' IH]]; simpl.
  - rewrite Hc. now exists [].
  - destruct (isWhiteSpace x); [now exists l' | now exists (x :: l)].
Qed.

(** Trimming the end keeps a first code unit that is not white space. *)
Lemma trimEnd_head (s : jsstring) (c : N) :
  isWhiteSpace c = false -> exists t, trimEnd (c :: s) = c :: t.
Proof.
  intros Hc. unfold trimEnd. simpl rev.
  destruct (trimStart_snoc (rev s) c Hc) as [l' ->].
  exists (rev l'). now rewrite rev_app_distr.
Qed.

Lemma trim_head_kept (s : jsstring) (c : N) :
  isWhiteSpace c = false -> exists t, trim (c :: s) = c :: t.
Proof.
  intros Hc. unfold trim. rewrite (trimStart_fixed s c Hc).
  now apply trimEnd_head.
Qed.

Lemma trim_head (s t : jsstring) (c : N) :
  trim s = c :: t -> isWhiteSpace c = false.
Proof.
  unfold trim. destruct (trimStart s) as [|x u] eqn:E; [discriminate|].
  pose proof (trimStart_head s u x E) as Hx.
  destruct (trimEnd_head u x Hx) as [t' ->]. now intros [= <- _].
Qed.

Lemma trimEnd_idempotent (s : jsstring) : trimEnd (trimEnd s) = trimEnd s.
Proof.
  unfold trimEnd. now rewrite rev_involutive, trimStart_idempotent.
Qed.

Lemma trim_idempotent (s : jsstring) : trim (trim s) = trim s.
Proof.
  unfold trim. destruct (trimStart s) as [|c u] eqn:E; [reflexivity|].
  pose proof (trimStart_head s u c E) as Hc.
  destruct (trimEnd_head u c Hc) as [t Ht]. rewrite Ht.
  rewrite (trimStart_fixed t c Hc), <- Ht. apply trimEnd_idempotent.
Qed.

Lemma normalized_weaken (s : jsstring) (b : bool) :
  normalized s b = true -> normalized s false = true.
Proof.
  destruct s as [|c s]; simpl; [reflexivity|].
  destruct (isWhiteSpace c); [|tauto].
  rewrite !andb_true_iff. intros [[H1 _] H2]. auto.
Qed.

Lemma normalized_trimStart (s : jsstring) (b : bool) :
  normalized s b = true -> normalized (trimStart s) false = true.
Proof.
  revert b. induction s as [|c s IH]; intros b; simpl; [reflexivity|].
  destruct (isWhiteSpace c) eqn:E.
  - rewrite !andb_true_iff. intros [_ H]. exact (IH true H).
  - intros H. simpl. now rewrite E.
Qed.

Lemma normalized_prefix (p q : jsstring) (b : bool) :
  normalized (p ++ q) b = true -> normalized p b = true.
Proof.
  revert b. induction p as [|c p IH]; intros b; simpl; [reflexivity|].
  destruct (isWhiteSpace c).
  - rewrite !andb_true_iff. intros [H1 H2]. split; [exact H1 | exact (IH _ H2)].
  - apply IH.
Qed.

Lemma normalized_trim (s : jsstring) (b : bool) :
  normalized s b = true -> normalized (trim s) false = true.
Proof.
  intros H. unfold trim. apply normalized_trimStart in H.
  destruct (trimEnd_prefix (trimStart s)) as [post Hp].
  rewrite Hp in H. exact (normalized_prefix _ _ _ H).
Qed.

Lemma replace_ws_runs_normalized (s : jsstring) (b : bool) :
  normalized (replace_ws_runs s b) b = true
  /\ normalized (replace_ws_runs s true) true = true.
Proof.
  revert b. induction s as [|c s IH]; intros b; simpl; [auto|].
  destruct (isWhiteSpace c) eqn:E.
  - destruct b; simpl.
    + destruct (IH true); auto.
    + destruct (IH true) as [H _]. rewrite H. auto.
  - simpl. rewrite E. destruct (IH false) as [H _]. auto.
Qed.

Lemma normalized_replace_ws_runs (s : jsstring) (b : bool) :
  normalized s b = true -> replace_ws_runs s b = s.
Proof.
  revert b. induction s as [|c s IH]; intros b; simpl; [reflexivity|].
  destruct (isWhiteSpace c).
  - rewrite !andb_true_iff. intros [[H1 H2] H3].
    apply N.eqb_eq in H1. apply negb_true_iff in H2. subst b c.
    now rewrite (IH true H3).
  - intros H. now rewrite (IH false H).
Qed.

Lemma cleanTextOf_normalized (text : jsstring) :
  normalized (cleanTextOf text) false = true.
Proof.
  unfold cleanTextOf. apply (normalized_trim _ false).
  apply replace_ws_runs_normalized.
Qed.

Lemma cleanTextOf_idempotent (text : jsstring) :
  cleanTextOf (cleanTextOf text) = cleanTextOf text.
Proof.
  unfold cleanTextOf at 1.
  rewrite (normalized_replace_ws_runs _ false (cleanTextOf_normalized text)).
  unfold cleanTextOf. apply trim_idempotent.
Qed.

Lemma normalized_spaces (s : jsstring) (b : bool) :
  normalized s b = true ->
  Forall (fun c => isWhiteSpace c = true -> c = 32%N) s.
Proof.
  revert b. induction s as [|c s IH]; intros b; simpl; [constructor|].
  destruct (isWhiteSpace c) eqn:E.
  - rewrite !andb_true_iff. intros [[H1 _] H3]. constructor; [|exact (IH _ H3)].
    intros _. now apply N.eqb_eq.
  - intros H. constructor; [congruence | exact (IH _ H)].
Qed.

Lemma lastIndexOf_scan_absent (c : N) (s : jsstring) (i pos best : Z) :
  Forall (fun x => x <> c) s -> lastIndexOf_scan c s i pos best = best.
Proof.
  intros H. revert i. induction H as [|x s Hx _ IH]; intros i; simpl; [reflexivity|].
  destruct (i <=? pos)%Z; [|reflexivity].
  apply N.eqb_neq in Hx. rewrite Hx. apply IH.
Qed.

Lemma lastIndexOf_scan_ge (c : N) (s : jsstring) (i pos best : Z) :
  (-1 <= best)%Z -> (0 <= i)%Z -> (-1 <= lastIndexOf_scan c s i pos best)%Z.
Proof.
  revert i best. induction s as [|x s IH]; intros i best Hb Hi; simpl; [exact Hb|].
  destruct (i <=? pos)%Z; [|exact Hb].
  apply IH; [|lia]. destruct (x =? c)%N; lia.
Qed.

Lemma lastIndexOf_ge (c : N) (s : jsstring) (pos : Z) :
  (-1 <= lastIndexOf c s pos)%Z.
Proof. unfold lastIndexOf. apply lastIndexOf_scan_ge; lia. Qed.

(** X11.  Every white-space code unit of the cleaned text is a U+0020
    space; so the search for the last line break in [chunkText] finds
    nothing at any position, and the end of a window is decided by the last
    full stop and the last space alone. *)
Theorem X11_cleaned_text_has_no_line_break (text : jsstring) (chunkSize start : nat) :
  let cleanText := cleanTextOf text in
  Forall (fun c => isWhiteSpace c = true -> c = 32%N) cleanText
  /\ (forall pos, lastIndexOf 10%N cleanText pos = (-1)%Z)
  /\ windowEnd cleanText chunkSize start
     = let end_ := start + chunkSize in
       if end_ <? length cleanText then
         let breakPoint :=
           Z.max (lastIndexOf 46%N cleanText (Z.of_nat end_))
                 (lastIndexOf 32%N cleanText (Z.of_nat end_)) in
         if Qltb (num start + num chunkSize * 0.5)%Q (inject_Z breakPoint)
         then Z.to_nat (breakPoint + 1)
         else end_
       else end_.
Proof.
  intros cleanText.
  pose proof (normalized_spaces _ _ (cleanTextOf_normalized text)) as Hsp.
  fold cleanText in Hsp.
  assert (Hnl : forall pos, lastIndexOf 10%N cleanText pos = (-1)%Z).
  { intros pos. unfold lastIndexOf. apply lastIndexOf_scan_absent.
    eapply Forall_impl; [|exact Hsp]. simpl. intros c Hc ->.
    specialize (Hc eq_refl). discriminate. }
  split; [exact Hsp|]. split; [exact Hnl|].
  unfold windowEnd. rewrite Hnl.
  rewrite (Z.max_l _ (-1)%Z) by apply lastIndexOf_ge. reflexivity.
Qed.

(** X12.  Cleaning a text twice is cleaning it once, and chunking the
    cleaned text gives the chunks of the text itself. *)
Theorem X12_cleaning_is_idempotent (text : jsstring) (chunkSize overlap : nat) :
  cleanTextOf (cleanTextOf text) = cleanTextOf text
  /\ Worker.chunkText (cleanTextOf text) chunkSize overlap
     = Worker.chunkText text chunkSize overlap.
Proof.
  split; [apply cleanTextOf_idempotent|].
  unfold Worker.chunkText. now rewrite cleanTextOf_idempotent.
Qed.

Lemma windowEnd_gt (cleanText : jsstring) (chunkSize start : nat) :
  0 < chunkSize -> start < windowEnd cleanText chunkSize start.
Proof.
  intros Hpos. unfold windowEnd.
  destruct (start + chunkSize <? length cleanText); [|lia].
  set (bp := Z.max _ _).
  destruct (Qltb _ _) eqn:E; [|lia].
  apply Qltb_lt in E.
  pose proof (half_nonneg chunkSize) as Hh.
  assert (Hs : (num start < inject_Z bp)%Q) by lra.
  unfold num in Hs. rewrite <- Zlt_Qlt in Hs. lia.
Qed.

(** X13.  With a positive chunk size the result has at least one chunk,
    whatever the text. *)
Theorem X13_positive_chunk_size_yields_a_chunk (text : jsstring)
  (chunkSize overlap : nat) :
  0 < chunkSize ->
  exists c chunks, Worker.chunkText text chunkSize overlap = Some (c :: chunks).
Proof.
  intros Hpos. unfold Worker.chunkText.
  destruct (length (cleanTextOf text) <=? chunkSize) eqn:E; [eauto|].
  apply Nat.leb_gt in E.
  destruct (windowLoop_terminates (length (cleanTextOf text)) (cleanTextOf text)
              chunkSize overlap 0 0 []) as [out Hloop]; [lia|].
  rewrite Hloop.
  enough (Hne : out <> []).
  { destruct out as [|c out]; [congruence|]. simpl. eauto. }
  destruct (cleanTextOf text) as [|c0 rest] eqn:Hclean; [simpl in E; lia|].
  pose proof (trim_head _ _ _ Hclean) as Hc0.
  simpl length in Hloop. simpl in Hloop.
  pose proof (windowEnd_gt (c0 :: rest) chunkSize 0 Hpos) as Hend.
  destruct (windowEnd (c0 :: rest) chunkSize 0) as [|e]; [lia|].
  unfold slice in Hloop. simpl in Hloop.
  destruct (trim_head_kept (firstn e rest) c0 Hc0) as [t Ht].
  rewrite Ht in Hloop. simpl in Hloop.
  match type of Hloop with
  | windowLoop _ _ _ _ ?s _ ?l = _ =>
    destruct (windowLoop_invariant (c0 :: rest) chunkSize overlap
                (fun _ chunks => chunks <> [])) with
      (fuel := length rest) (start := s) (chunks := l) (out := out)
      as [_ H]
  end.
  - intros start chunks _ Hc end_ chunkContent. split; [|auto].
    intros _ Happ. apply app_eq_nil in Happ as [_ Happ]. discriminate.
  - exact Hloop.
  - discriminate.
  - exact H.
Qed.

Lemma X13_positive_chunk_size_witness :
  exists c chunks, Worker.chunkText windowedText 12 3 = Some (c :: chunks).
Proof. apply (X13_positive_chunk_size_yields_a_chunk windowedText 12 3). lia. Defined.

(** ** From chunks to vectors *)

Lemma uint_units_inj (d d' : Decimal.uint) : uint_units d = uint_units d' -> d = d'.
Proof.
  revert d'. induction d; destruct d'; simpl; try discriminate;
    try reflexivity; intros [= H]; f_equal; auto.
Qed.

Lemma numberToString_inj (i j : nat) : numberToString i = numberToString j -> i = j.
Proof.
  unfold numberToString. intros H. apply uint_units_inj in H.
  now apply Unsigned.to_uint_inj.
Qed.

Lemma chunkName_inj (i j : nat) : chunkName i = chunkName j -> i = j.
Proof.
  unfold chunkName. intros H. apply app_inv_head in H. now apply numberToString_inj.
Qed.

Lemma chunkText_names (text : jsstring) (chunkSize overlap : nat) (chunks : list Chunk) :
  Worker.chunkText text chunkSize overlap = Some chunks ->
  map chunk_id chunks = map chunkName (seq 0 (length chunks)).
Proof.
  intros H. apply nth_error_ext. intros i.
  rewrite !nth_error_map.
  assert (Hn : forall c, nth_error chunks i = Some c -> chunk_id c = chunkName i).
  { revert H. unfold Worker.chunkText.
    destruct (length (cleanTextOf text) <=? chunkSize).
    - intros [= <-] c. destruct i as [|[|i]]; simpl; try discriminate.
      now intros [= <-].
    - destruct (windowLoop _ _ _ _ _ _ _) as [out|] eqn:Hloop; [|discriminate].
      intros [= <-] c Hc.
      apply nth_error_map_setTotalChunks in Hc as (c' & Hc' & ->).
      destruct (windowLoop_windows _ _ _ _ _ Hloop) as [Hw _].
      now destruct (Hw i c' Hc') as (Hid & _). }
  destruct (nth_error chunks i) as [c|] eqn:E.
  - assert (Hi : i < length chunks) by (apply nth_error_Some; congruence).
    rewrite nth_error_seq. apply Nat.ltb_lt in Hi as Hi'. rewrite Hi'. simpl.
    now rewrite (Hn c eq_refl).
  - apply nth_error_None in E. rewrite nth_error_seq.
    apply Nat.ltb_ge in E. now rewrite E.
Qed.

Lemma NoDup_map_injective {A B} (f : A -> B) (l : list A) :
  (forall x y, f x = f y -> x = y) -> NoDup l -> NoDup (map f l).
Proof.
  intros Hf H. induction H as [|x l Hx _ IH]; simpl; constructor; [|exact IH].
  intros Hin. apply in_map_iff in Hin as (y & Hy & Hin).
  apply Hf in Hy. now subst y.
Qed.

Lemma vector_ids (docId : jsstring) (embeddings : list (list Q)) (chunks : list Chunk)
  (k : nat) :
  map vec_id
    (map (fun entry : nat * Chunk =>
            let '(index, chunk) := entry in
            {| vec_id := docId ++ js "_" ++ chunk_id chunk;
               vec_values := nth_error embeddings index;
               vec_metadata := withContent chunk docId |})
         (combine (seq k (length chunks)) chunks))
  = map (fun c => docId ++ js "_" ++ chunk_id c) chunks.
Proof.
  revert k. induction chunks as [|c chunks IH]; intros k; simpl; [reflexivity|].
  now rewrite IH.
Qed.

(** X14.  The vectors that [processEmbedding] builds from the chunks of
    [chunkText], as [processFile] tags them, are named
    [<documentId>_chunk_0], [<documentId>_chunk_1], ... in order; the names
    are pairwise distinct, so no vector of a document overwrites another one
    of the same document in the index. *)
Theorem X14_vector_ids_are_distinct
  (env : Env) (now : nat) (task fileTask : Task) (text : jsstring)
  (chunkSize overlap : nat) (chunks : list Chunk)
  (fileName fileType userId : jsstring) (embeddings : list (list Q))
  (qs : Queues) (db : Database) :
  Worker.chunkText text chunkSize overlap = Some chunks ->
  payload task = EmbeddingPayload (map (tagChunk fileTask fileName fileType userId) chunks) ->
  batchEmbeddings env now (map chunk_content chunks) = Ok embeddings ->
  exists vectorTask vectors,
    processEmbedding env now task qs db
    = (pushVectorStorageTask vectorTask qs, db, Ok tt)
    /\ payload vectorTask = VectorStoragePayload vectors
    /\ map vec_id vectors
       = map (fun i => documentId task ++ js "_" ++ chunkName i)
             (seq 0 (length chunks))
    /\ NoDup (map vec_id vectors).
Proof.
  intros Hc Hp Hb. unfold processEmbedding. rewrite Hp.
  rewrite map_map. simpl chunk_content.
  rewrite (map_ext _ chunk_content) by reflexivity. rewrite Hb.
  eexists. eexists. split; [reflexivity|]. simpl payload.
  split; [reflexivity|].
  rewrite vector_ids, map_map. simpl chunk_id.
  assert (Hids : map (fun c => documentId task ++ js "_" ++ chunk_id c) chunks
                 = map (fun i => documentId task ++ js "_" ++ chunkName i)
                       (seq 0 (length chunks))).
  { rewrite <- (map_map chunk_id (fun s => documentId task ++ js "_" ++ s)).
    rewrite (chunkText_names _ _ _ _ Hc). now rewrite map_map. }
  rewrite Hids. split; [reflexivity|].
  apply NoDup_map_injective; [|apply seq_NoDup].
  intros i j H. apply app_inv_head in H. apply app_inv_head in H.
  now apply chunkName_inj.
Qed.

Lemma X14_vector_ids_witness :
  exists vectorTask vectors,
    processEmbedding allServicesUp 0 windowedEmbeddingTask emptyQueues []
    = (pushVectorStorageTask vectorTask emptyQueues, [], Ok tt)
    /\ payload vectorTask = VectorStoragePayload vectors
    /\ map vec_id vectors
       = map (fun i => documentId windowedEmbeddingTask ++ js "_" ++ chunkName i)
             (seq 0 (length windowedChunks))
    /\ NoDup (map vec_id vectors).
Proof.
  apply (X14_vector_ids_are_distinct allServicesUp 0 windowedEmbeddingTask
           uploadTask windowedText 12 3 windowedChunks
           (js "notes.txt") (js "text/plain") (js "u1")
           (map (fun _ => [0.5%Q; 0.25%Q]) (map chunk_content windowedChunks))
           emptyQueues []).
  - reflexivity.
  - reflexivity.
  - reflexivity.
Defined.

(** ** The sentence chunkers of the document parser *)

Import DocumentParser Parsing.

(** ** The sentence chunkers *)

Lemma legacy_simulation (chunkSize overlap : nat) (sentences : list jsstring)
  (st : PlainState) :
  fold_left (LegacyParser.legacyStep chunkSize overlap) sentences
    (map content (ps_chunks st), ps_currentChunk st)
  = (map content (ps_chunks (fold_left (plainStep chunkSize overlap) sentences st)),
     ps_currentChunk (fold_left (plainStep chunkSize overlap) sentences st)).
Proof.
  revert st. induction sentences as [|s l IH]; intros st; simpl; [reflexivity|].
  rewrite <- IH. f_equal. unfold plainStep.
  destruct ((chunkSize <? length (ps_currentChunk st) + length (trim s))
            && (0 <? length (ps_currentChunk st))); simpl; [|reflexivity].
  now rewrite map_app.
Qed.

(** X15.  The chunker that returned strings, before pages were introduced,
    and [chunkTextSimple], kept for backward compatibility, return the same
    strings for every text, chunk size and overlap. *)
Theorem X15_legacy_chunker_agrees_with_chunkTextSimple
  (text : jsstring) (chunkSize overlap : nat) :
  LegacyParser.chunkText text chunkSize overlap
  = chunkTextSimple text chunkSize overlap.
Proof.
  unfold LegacyParser.chunkText, chunkTextSimple, chunkText, chunkPlain.
  pose proof (legacy_simulation chunkSize overlap (sentencesOf text)
                {| ps_chunks := []; ps_currentChunk := []; ps_chunkIndex := 0;
                   ps_currentPos := 0 |}) as H.
  cbn [map ps_chunks ps_currentChunk] in H.
  change (@pair (list jsstring) (list N)) with (@pair (list jsstring) jsstring).
  rewrite H. unfold plainFlush.
  destruct (isEmpty _); [reflexivity|]. now rewrite map_app.
Qed.

Lemma trimEnd_last (s : jsstring) : trimEnd s <> [] -> endsNonWs (trimEnd s).
Proof.
  unfold trimEnd. destruct (trimStart (rev s)) as [|c t] eqn:E; [easy|].
  intros _. exists (rev t), c. split; [reflexivity|].
  exact (trimStart_head _ _ _ E).
Qed.

Lemma trim_last (s : jsstring) : trim s <> [] -> endsNonWs (trim s).
Proof. apply trimEnd_last. Qed.

Lemma trimEnd_fixed (s : jsstring) : endsNonWs s -> trimEnd s = s.
Proof.
  intros (p & c & -> & Hc). unfold trimEnd.
  rewrite rev_app_distr. simpl. rewrite Hc. simpl.
  now rewrite rev_involutive.
Qed.

Lemma trim_endsNonWs (s : jsstring) : endsNonWs s -> endsNonWs (trim s).
Proof.
  intros (p & c & -> & Hc). unfold trim.
  destruct (trimStart_snoc p c Hc) as [l' ->].
  rewrite trimEnd_fixed by (now exists l', c). now exists l', c.
Qed.

Lemma endsNonWs_nonempty (s : jsstring) : endsNonWs s -> s <> [].
Proof. intros (p & c & -> & _). now destruct p. Qed.

Lemma endsNonWs_app (a b : jsstring) : endsNonWs b -> endsNonWs (a ++ b).
Proof.
  intros (p & c & -> & Hc). exists (a ++ p), c. now rewrite app_assoc.
Qed.

Lemma sentencesOf_nonblank (text : jsstring) :
  Forall (fun s => trim s <> []) (sentencesOf text).
Proof.
  apply Forall_forall. intros s Hs. apply filter_In in Hs as [_ H].
  apply Nat.ltb_lt in H. destruct (trim s); [simpl in H; lia | discriminate].
Qed.

Lemma plainStep_inv (chunkSize overlap n : nat) (st : PlainState) (s : jsstring) :
  trim s <> [] -> plainInv n st -> plainInv (S n) (plainStep chunkSize overlap st s).
Proof.
  intros Hs [Hall Hcur]. pose proof (trim_last s Hs) as Hlast.
  unfold plainStep.
  destruct ((chunkSize <? length (ps_currentChunk st) + length (trim s))
            && (0 <? length (ps_currentChunk st))) eqn:E; simpl.
  - apply andb_true_iff in E as [_ E]. apply Nat.ltb_lt in E.
    destruct Hcur as [(_ & H0 & _)|(Hn & Hends & Hlen)];
      [rewrite H0 in E; simpl in E; lia|].
    split.
    + apply Forall_app. split; [exact Hall|]. constructor; [|constructor]. simpl.
      split; [|split; [apply trim_idempotent | reflexivity]].
      apply endsNonWs_nonempty. now apply trim_endsNonWs.
    + right. split; [lia|]. split.
      * unfold reseed. rewrite app_assoc. now apply endsNonWs_app.
      * cbn [ps_chunks]. rewrite length_app. simpl. lia.
  - split; [exact Hall|]. right. split; [lia|]. split.
    + unfold extend. rewrite app_assoc. now apply endsNonWs_app.
    + destruct Hcur as [(-> & _ & ->)|(_ & _ & Hlen)]; simpl; lia.
Qed.

Lemma plainFold_inv (chunkSize overlap : nat) (sentences : list jsstring)
  (n : nat) (st : PlainState) :
  Forall (fun s => trim s <> []) sentences ->
  plainInv n st ->
  plainInv (n + length sentences)
    (fold_left (plainStep chunkSize overlap) sentences st).
Proof.
  intros H. revert n st. induction H as [|s l Hs _ IH]; intros n st Hinv; simpl.
  - now rewrite Nat.add_0_r.
  - replace (n + S (length l)) with (S n + length l) by lia.
    apply IH. now apply plainStep_inv.
Qed.

(** X16.  Without page information every chunk has a content that is not
    empty and carries no white space at either end, and has no page number;
    there are no more chunks than sentences, and no chunk at all exactly
    when the text has no sentence (it is empty, or made of white space and
    terminators only). *)
Theorem X16_sentence_chunks_are_nonempty_and_trimmed
  (text : jsstring) (chunkSize overlap : nat) :
  let chunks := chunkText text chunkSize overlap None in
  Forall (fun c => content c <> [] /\ trim (content c) = content c
                   /\ pageNumber c = None) chunks
  /\ length chunks <= length (sentencesOf text)
  /\ (chunks = [] <-> sentencesOf text = []).
Proof.
  cbv zeta. unfold chunkText, chunkPlain.
  pose proof (plainFold_inv chunkSize overlap (sentencesOf text) 0
                {| ps_chunks := []; ps_currentChunk := []; ps_chunkIndex := 0;
                   ps_currentPos := 0 |} (sentencesOf_nonblank text)) as H.
  simpl in H.
  destruct H as [Hall Hcur]; [split; [constructor | left; auto]|].
  set (st := fold_left _ _ _) in *. unfold plainFlush.
  destruct Hcur as [(Hn & Hc & Hch)|(Hn & Hends & Hlen)].
  - rewrite Hc. simpl. rewrite Hch. simpl.
    split; [constructor|]. split; [lia|].
    destruct (sentencesOf text); [tauto | discriminate].
  - pose proof (endsNonWs_nonempty _ (trim_endsNonWs _ Hends)) as Hne.
    destruct (trim (ps_currentChunk st)) as [|c t] eqn:E; [congruence|].
    simpl isEmpty. cbv iota. split; [|split].
    + apply Forall_app. split; [exact Hall|]. constructor; [|constructor]. simpl.
      split; [discriminate|]. split; [|reflexivity].
      rewrite <- E. apply trim_idempotent.
    + rewrite length_app. simpl. lia.
    + split.
      * intros H. apply app_eq_nil in H as [_ H]. discriminate.
      * intros H. rewrite H in Hn. simpl in Hn. lia.
Qed.

(** ** Chunking by pages *)

Lemma small_pages_fold (chunkSize overlap : nat) (pages : list Page)
  (chunks : list ChunkWithPage) (k : nat) :
  Forall (fun p => length (pg_content p) <= chunkSize) pages ->
  fold_left (pageStep chunkSize overlap) pages (chunks, k)
  = (chunks ++ map (fun ip => pageChunk (fst ip) (snd ip))
                   (combine (seq k (length pages)) pages),
     k + length pages).
Proof.
  intros H. revert chunks k. induction H as [|p l Hp _ IH]; intros chunks k; simpl.
  - now rewrite app_nil_r, Nat.add_0_r.
  - apply Nat.leb_le in Hp. rewrite Hp. rewrite IH.
    rewrite <- app_assoc. simpl. f_equal. lia.
Qed.

(** X17.  For a list of pages that is not empty (an empty list is chunked
    as if no pages were given) and in which every page is within the chunk
    size, the result has one chunk per page, in order: the page content as
    it is (not trimmed, and also when it is blank), the page number and the
    character range of the page, and the position of the page as index.
    The text argument is not looked at. *)
Theorem X17_small_pages_become_one_chunk_each
  (text : jsstring) (chunkSize overlap : nat) (pages : list Page) :
  pages <> [] ->
  Forall (fun p => length (pg_content p) <= chunkSize) pages ->
  DocumentParser.chunkText text chunkSize overlap (Some pages)
  = map (fun ip => pageChunk (fst ip) (snd ip))
        (combine (seq 0 (length pages)) pages).
Proof.
  intros Hne Hsmall. unfold DocumentParser.chunkText.
  destruct pages as [|p ps]; [congruence|].
  unfold chunkPaged. now rewrite small_pages_fold.
Qed.

Lemma X17_small_pages_witness :
  DocumentParser.chunkText (js "ignored") 20 5 (Some twoPages)
  = map (fun ip => pageChunk (fst ip) (snd ip))
        (combine (seq 0 (length twoPages)) twoPages).
Proof.
  apply (X17_small_pages_become_one_chunk_each (js "ignored") 20 5 twoPages).
  - discriminate.
  - repeat constructor; vm_compute; discriminate.
Defined.

Lemma shift_shift (k n : nat) (c : ChunkWithPage) :
  shift k (shift n c) = shift (k + n) c.
Proof. unfold shift. simpl. f_equal. lia. Qed.

Lemma pageSentenceStep_shift (chunkSize overlap : nat) (page : Page)
  (chunks : list ChunkWithPage) (k : nat) (st : PageState) (raw : jsstring) :
  pageSentenceStep chunkSize overlap page
    {| gs_chunks := chunks ++ map (shift k) (gs_chunks st);
       gs_chunkIndex := k + gs_chunkIndex st;
       gs_currentChunk := gs_currentChunk st;
       gs_chunkStartChar := gs_chunkStartChar st |} raw
  = let st' := pageSentenceStep chunkSize overlap page st raw in
    {| gs_chunks := chunks ++ map (shift k) (gs_chunks st');
       gs_chunkIndex := k + gs_chunkIndex st';
       gs_currentChunk := gs_currentChunk st';
       gs_chunkStartChar := gs_chunkStartChar st' |}.
Proof.
  unfold pageSentenceStep. cbn [gs_chunks gs_chunkIndex gs_currentChunk gs_chunkStartChar].
  destruct ((chunkSize <? length (gs_currentChunk st) + length (trim raw))
            && (0 <? length (gs_currentChunk st)));
    cbn [gs_chunks gs_chunkIndex gs_currentChunk gs_chunkStartChar]; [|reflexivity].
  rewrite map_app, app_assoc. simpl. unfold shift at 2. simpl.
  f_equal. lia.
Qed.

Lemma pageSentences_shift (chunkSize overlap : nat) (page : Page)
  (chunks : list ChunkWithPage) (k : nat) (sentences : list jsstring) (st : PageState) :
  fold_left (pageSentenceStep chunkSize overlap page) sentences
    {| gs_chunks := chunks ++ map (shift k) (gs_chunks st);
       gs_chunkIndex := k + gs_chunkIndex st;
       gs_currentChunk := gs_currentChunk st;
       gs_chunkStartChar := gs_chunkStartChar st |}
  = let st' := fold_left (pageSentenceStep chunkSize overlap page) sentences st in
    {| gs_chunks := chunks ++ map (shift k) (gs_chunks st');
       gs_chunkIndex := k + gs_chunkIndex st';
       gs_currentChunk := gs_currentChunk st';
       gs_chunkStartChar := gs_chunkStartChar st' |}.
Proof.
  revert st. induction sentences as [|s l IH]; intros st; simpl; [reflexivity|].
  rewrite pageSentenceStep_shift. cbv zeta. apply IH.
Qed.

Lemma pageStep_shift (chunkSize overlap : nat) (page : Page)
  (chunks : list ChunkWithPage) (k : nat) :
  pageStep chunkSize overlap (chunks, k) page
  = (chunks ++ map (shift k) (fst (pageStep chunkSize overlap ([], 0) page)),
     k + snd (pageStep chunkSize overlap ([], 0) page)).
Proof.
  unfold pageStep.
  destruct (length (pg_content page) <=? chunkSize); simpl.
  - unfold shift. simpl. now rewrite Nat.add_0_r, Nat.add_1_r.
  - pose proof (pageSentences_shift chunkSize overlap page chunks k
                  (sentencesOf (pg_content page))
                  {| gs_chunks := []; gs_chunkIndex := 0; gs_currentChunk := [];
                     gs_chunkStartChar := pg_startChar page |}) as H.
    cbn [gs_chunks gs_chunkIndex gs_currentChunk gs_chunkStartChar map] in H.
    rewrite app_nil_r, Nat.add_0_r in H. rewrite H. cbv zeta.
    set (st := fold_left _ _ _).
    cbn [gs_chunks gs_chunkIndex gs_currentChunk gs_chunkStartChar].
    destruct (isEmpty (trim (gs_currentChunk st))); simpl; [reflexivity|].
    rewrite map_app, app_assoc. simpl. unfold shift at 2. simpl.
    f_equal. lia.
Qed.

Lemma pages_shift (chunkSize overlap : nat) (pages : list Page)
  (chunks : list ChunkWithPage) (k : nat) :
  fold_left (pageStep chunkSize overlap) pages (chunks, k)
  = (chunks ++ map (shift k) (fst (fold_left (pageStep chunkSize overlap) pages ([], 0))),
     k + snd (fold_left (pageStep chunkSize overlap) pages ([], 0))).
Proof.
  revert chunks k. induction pages as [|p l IH]; intros chunks k; cbn [fold_left].
  - simpl. now rewrite app_nil_r, Nat.add_0_r.
  - rewrite pageStep_shift. rewrite IH.
    destruct (pageStep chunkSize overlap ([], 0) p) as [c1 n1] eqn:E1.
    rewrite (IH c1 n1). simpl fst. simpl snd.
    rewrite map_app, map_map, <- app_assoc.
    rewrite (map_ext _ _ (shift_shift k n1)). f_equal. lia.
Qed.

Lemma pages_count (chunkSize overlap : nat) (pages : list Page) :
  snd (fold_left (pageStep chunkSize overlap) pages ([], 0))
  = length (chunkPaged pages chunkSize overlap).
Proof.
  unfold chunkPaged.
  assert (H : map chunkIndex (fst (fold_left (pageStep chunkSize overlap) pages ([], 0)))
              = seq 0 (snd (fold_left (pageStep chunkSize overlap) pages ([], 0)))).
  { apply (fold_left_invariant
             (fun acc => map chunkIndex (fst acc) = seq 0 (snd acc))).
    - reflexivity.
    - intros b a Hb. now apply pageStep_numbered. }
  rewrite <- (length_map chunkIndex), H. now rewrite length_seq.
Qed.

Lemma pageSentenceStep_pageNumber (chunkSize overlap : nat) (page : Page)
  (st : PageState) (raw : jsstring) :
  Forall (fun c => pageNumber c = Some (pg_pageNumber page)) (gs_chunks st) ->
  Forall (fun c => pageNumber c = Some (pg_pageNumber page))
         (gs_chunks (pageSentenceStep chunkSize overlap page st raw)).
Proof.
  intros H. unfold pageSentenceStep.
  destruct ((chunkSize <? length (gs_currentChunk st) + length (trim raw))
            && (0 <? length (gs_currentChunk st))); simpl; [|exact H].
  apply Forall_app. split; [exact H|]. now repeat constructor.
Qed.

(** X18.  Pages are chunked independently of each other: the chunks of
    a list of pages are the chunks of its first part followed by the chunks
    of the rest, with only the indices of the latter shifted; and every
    chunk cut from a page carries the number of that page. *)
Theorem X18_pages_are_chunked_independently
  (pages1 pages2 : list Page) (chunkSize overlap : nat) :
  chunkPaged (pages1 ++ pages2) chunkSize overlap
  = chunkPaged pages1 chunkSize overlap
    ++ map (shift (length (chunkPaged pages1 chunkSize overlap)))
           (chunkPaged pages2 chunkSize overlap)
  /\ forall page,
       Forall (fun c => pageNumber c = Some (pg_pageNumber page))
              (chunkPaged [page] chunkSize overlap).
Proof.
  split.
  - unfold chunkPaged at 1. rewrite fold_left_app.
    destruct (fold_left (pageStep chunkSize overlap) pages1 ([], 0))
      as [c1 n1] eqn:E1.
    rewrite pages_shift. simpl fst.
    assert (Hc : chunkPaged pages1 chunkSize overlap = c1)
      by (unfold chunkPaged; now rewrite E1).
    assert (Hn : n1 = length c1).
    { rewrite <- Hc, <- pages_count. now rewrite E1. }
    rewrite Hc, <- Hn. reflexivity.
  - intros page. unfold chunkPaged. cbn [fold_left]. unfold pageStep.
    destruct (length (pg_content page) <=? chunkSize); simpl.
    + now repeat constructor.
    + set (st := fold_left _ _ _).
      assert (H : Forall (fun c => pageNumber c = Some (pg_pageNumber page))
                         (gs_chunks st)).
      { apply (fold_left_invariant
                 (fun st => Forall (fun c => pageNumber c = Some (pg_pageNumber page))
                                   (gs_chunks st))).
        - constructor.
        - intros b a Hb. now apply pageSentenceStep_pageNumber. }
      destruct (isEmpty (trim (gs_currentChunk st))); simpl; [exact H|].
      apply Forall_app. split; [exact H|]. now repeat constructor.
Qed.

(** ** [parseDocument] and its pages *)

Lemma getFileType_known (mimeType filename fileType : jsstring) :
  getFileType mimeType filename = Ok fileType ->
  In fileType [js "pdf"; js "docx"; js "txt"].
Proof.
  unfold getFileType.
  repeat match goal with
         | |- (if ?b then _ else _) = _ -> _ => destruct b
         end; intros [= <-]; simpl; auto.
Qed.

Lemma txtLoop_terminates (fuel : nat) (lines : list jsstring)
  (linesPerPage i : nat) (currentPos : Z) (pages : list Page) :
  0 < linesPerPage ->
  length lines - i <= fuel ->
  exists out, txtLoop fuel lines linesPerPage i currentPos pages = Some out.
Proof.
  intros Hpos. revert i currentPos pages.
  induction fuel as [|fuel IH]; intros i currentPos pages Hfuel; simpl.
  - destruct (i <? length lines) eqn:E; [|eauto].
    apply Nat.ltb_lt in E. lia.
  - destruct (i <? length lines) eqn:E; [|eauto].
    apply Nat.ltb_lt in E. apply IH. lia.
Qed.

Lemma linesPerPageOf_positive (content : jsstring) (lines : list jsstring) :
  0 < linesPerPageOf content lines.
Proof. unfold linesPerPageOf. lia. Qed.

Lemma txtPages_terminates (content : jsstring) :
  exists pages, txtPages content = Some pages.
Proof.
  unfold txtPages. destruct (1000 <? length content); [|eauto].
  destruct (txtLoop_terminates (length (split 10%N content)) (split 10%N content)
              (linesPerPageOf content (split 10%N content)) 0 0%Z [])
    as [out ->]; [apply linesPerPageOf_positive | lia | eauto].
Qed.

Section ParseDocumentFacts.

Variable pdfParser : list N -> Result (jsstring * nat).
Variable extractRawText : list N -> Result jsstring.
Variable toUtf8 : list N -> jsstring.

Lemma parseByFileType_terminates (fileType : jsstring) (buffer : list N) :
  exists r, parseByFileType pdfParser extractRawText toUtf8 fileType buffer = Some r.
Proof.
  unfold parseByFileType.
  destruct (streq fileType (js "pdf")); [eauto|].
  destruct (streq fileType (js "docx")); [eauto|].
  destruct (streq fileType (js "txt")); [|eauto].
  destruct (txtPages_terminates (toUtf8 buffer)) as [pages ->]. eauto.
Qed.

Lemma parseByFileType_pageCount (fileType : jsstring) (buffer : list N)
  (content : jsstring) (pages : option (list Page)) (pageCount : option nat) :
  parseByFileType pdfParser extractRawText toUtf8 fileType buffer
  = Some (Ok (content, pages, pageCount)) ->
  (pageCount <> None -> fileType = js "pdf").
Proof.
  unfold parseByFileType.
  destruct (streq fileType (js "pdf")) eqn:E1.
  { intros _ _. now apply streq_eq. }
  destruct (streq fileType (js "docx")).
  { destruct (extractRawText buffer); simpl; [|discriminate].
    intros [= _ _ <-]. congruence. }
  destruct (streq fileType (js "txt")); [|discriminate].
  destruct (txtPages (toUtf8 buffer)); [|discriminate].
  intros [= _ _ <-]. congruence.
Qed.

(** X19.  [parseDocument] returns or throws for every input (the paging of
    a text file terminates).  The document it returns has a content that is
    not empty and has no white space at either end; its file type is the one
    [getFileType] gives, one of [pdf], [docx] and [txt]; its size is the
    length of the buffer; when pages were made, [pageCount] is their number,
    and otherwise only a PDF has a page count. *)
Theorem X19_parsed_document_is_trimmed_and_not_blank
  (buffer : list N) (filename mimeType : jsstring) :
  (exists r, parseDocument pdfParser extractRawText toUtf8 buffer filename mimeType
             = Some r)
  /\ forall d,
       parseDocument pdfParser extractRawText toUtf8 buffer filename mimeType
       = Some (Ok d) ->
       pd_content d <> []
       /\ trim (pd_content d) = pd_content d
       /\ getFileType mimeType filename = Ok (pd_fileType d)
       /\ In (pd_fileType d) [js "pdf"; js "docx"; js "txt"]
       /\ pd_size d = length buffer
       /\ (forall pages, pd_pages d = Some pages ->
                         pd_pageCount d = Some (length pages))
       /\ (pd_pages d = None -> pd_pageCount d <> None -> pd_fileType d = js "pdf").
Proof.
  unfold parseDocument. split.
  - destruct (getFileType mimeType filename) as [fileType|]; [|eauto].
    destruct (parseByFileType_terminates fileType buffer) as [r ->].
    destruct r as [[[content pages] pageCount]|]; [|eauto].
    destruct (isEmpty (trim content)); eauto.
  - intros d. destruct (getFileType mimeType filename) as [fileType|] eqn:Ht;
      [|discriminate].
    destruct (parseByFileType _ _ _ fileType buffer)
      as [[[[content pages] pageCount]|]|] eqn:Hp; try discriminate.
    destruct (trim content) as [|c t] eqn:Hc; [discriminate|].
    simpl isEmpty. cbv iota. intros [= <-]. simpl.
    split; [discriminate|].
    split; [rewrite <- Hc; apply trim_idempotent|].
    split; [reflexivity|].
    split; [exact (getFileType_known _ _ _ Ht)|].
    split; [reflexivity|]. split.
    + intros ps ->. reflexivity.
    + intros ->. exact (parseByFileType_pageCount _ _ _ _ _ Hp).
Qed.

End ParseDocumentFacts.

(** *** Joining and splitting *)

Lemma join_cons (sep x : jsstring) (l : list jsstring) :
  l <> [] -> join sep (x :: l) = x ++ sep ++ join sep l.
Proof. destruct l; [congruence | reflexivity]. Qed.

Lemma split_aux_nonempty (sep : N) (s cur : jsstring) : split_aux sep s cur <> [].
Proof.
  revert cur. induction s as [|c s IH]; intros cur; simpl; [discriminate|].
  destruct (c =? sep)%N; [discriminate | apply IH].
Qed.

Lemma join_split_aux (sep : N) (s cur : jsstring) :
  join [sep] (split_aux sep s cur) = rev cur ++ s.
Proof.
  revert cur. induction s as [|c s IH]; intros cur; simpl split_aux.
  - simpl. now rewrite app_nil_r.
  - destruct (c =? sep)%N eqn:E.
    + apply N.eqb_eq in E. subst c.
      rewrite join_cons by apply split_aux_nonempty. rewrite IH. reflexivity.
    + rewrite IH. simpl. now rewrite <- app_assoc.
Qed.

(** [s.split(c).join(c)] is [s]. *)
Lemma join_split (sep : N) (s : jsstring) : join [sep] (split sep s) = s.
Proof. unfold split. now rewrite join_split_aux. Qed.

Lemma join_app (sep : jsstring) (a b : list jsstring) :
  a <> [] -> b <> [] -> join sep (a ++ b) = join sep a ++ sep ++ join sep b.
Proof.
  intros Ha Hb. induction a as [|x a IH]; [congruence|].
  destruct a as [|y a].
  - simpl app. now rewrite join_cons.
  - change ((x :: y :: a) ++ b) with (x :: ((y :: a) ++ b)).
    rewrite join_cons by discriminate. rewrite IH by discriminate.
    rewrite (join_cons sep x (y :: a)) by discriminate.
    now rewrite <- !app_assoc.
Qed.

(** Joining a group of pieces first does not change the result. *)
Lemma join_group (sep : jsstring) (a g b : list jsstring) :
  g <> [] -> join sep (a ++ g ++ b) = join sep ((a ++ [join sep g]) ++ b).
Proof.
  intros Hg.
  assert (Hgb : join sep (g ++ b) = join sep (join sep g :: b)).
  { destruct b as [|y b]; [now rewrite app_nil_r|].
    rewrite (join_app sep g (y :: b) Hg) by discriminate.
    now rewrite (join_cons sep (join sep g) (y :: b)) by discriminate. }
  destruct a as [|x a]; [exact Hgb|].
  rewrite <- app_assoc.
  rewrite !(join_app sep (x :: a)); try discriminate.
  - simpl app. now rewrite Hgb.
  - destruct g; [congruence | discriminate].
Qed.

Lemma offsetOf_snoc (cs : list jsstring) (c : jsstring) :
  offsetOf (cs ++ [c]) = (offsetOf cs + len c + 1)%Z.
Proof. induction cs as [|x cs IH]; simpl; [lia | rewrite IH; lia]. Qed.

Lemma txtPagesFrom_snoc (k : nat) (pos : Z) (cs : list jsstring) (c : jsstring) :
  txtPagesFrom k pos (cs ++ [c])
  = txtPagesFrom k pos cs
    ++ [ {| pg_pageNumber := Z.of_nat (k + length cs + 1);
            pg_content := c;
            pg_startChar := (pos + offsetOf cs)%Z;
            pg_endChar := (pos + offsetOf cs + len c - 1)%Z |} ].
Proof.
  revert k pos. induction cs as [|x cs IH]; intros k pos; simpl.
  - now rewrite Nat.add_0_r, Z.add_0_r.
  - rewrite IH.
    replace (S k + length cs + 1) with (k + S (length cs) + 1) by lia.
    rewrite !Z.add_assoc. reflexivity.
Qed.

Lemma txtPagesFrom_contents (k : nat) (pos : Z) (cs : list jsstring) :
  map pg_content (txtPagesFrom k pos cs) = cs.
Proof.
  revert k pos. induction cs as [|x cs IH]; intros k pos; simpl;
    [reflexivity | now rewrite IH].
Qed.

Lemma txtPagesFrom_numbers (k : nat) (pos : Z) (cs : list jsstring) :
  map pg_pageNumber (txtPagesFrom k pos cs) = map Z.of_nat (seq (k + 1) (length cs)).
Proof.
  revert k pos. induction cs as [|x cs IH]; intros k pos; simpl; [reflexivity|].
  rewrite IH. simpl. reflexivity.
Qed.

Lemma slice_middle {A} (a x b : list A) :
  firstn (length x) (skipn (length a) (a ++ x ++ b)) = x.
Proof.
  rewrite skipn_app, skipn_all, Nat.sub_diag. simpl.
  rewrite firstn_app, firstn_all, Nat.sub_diag. simpl. now rewrite app_nil_r.
Qed.

(** Each page of [txtPagesFrom] lies in the joined contents at its start
    position. *)
Lemma txtPagesFrom_positions (cs : list jsstring) (k : nat) (pre : jsstring)
  (page : Page) :
  In page (txtPagesFrom k (len pre) cs) ->
  (0 <= pg_startChar page)%Z
  /\ pg_endChar page = (pg_startChar page + len (pg_content page) - 1)%Z
  /\ exists post,
       pre ++ join [10%N] cs
       = firstn (Z.to_nat (pg_startChar page)) (pre ++ join [10%N] cs)
         ++ pg_content page ++ post
       /\ length (firstn (Z.to_nat (pg_startChar page)) (pre ++ join [10%N] cs))
          = Z.to_nat (pg_startChar page).
Proof.
  revert k pre. induction cs as [|c r IH]; intros k pre; simpl txtPagesFrom;
    [intros []|].
  intros [<-|Hin]; cbn [pg_startChar pg_endChar pg_content].
  - split; [unfold len; lia|]. split; [reflexivity|].
    unfold len. rewrite Nat2Z.id.
    destruct r as [|y r].
    + exists []. simpl join. rewrite firstn_app, firstn_all, Nat.sub_diag. simpl.
      rewrite !app_nil_r. split; [reflexivity | reflexivity].
    + exists ([10%N] ++ join [10%N] (y :: r)).
      rewrite join_cons by discriminate.
      rewrite firstn_app, firstn_all, Nat.sub_diag. simpl firstn.
      rewrite app_nil_r. split; reflexivity.
  - destruct r as [|y r]; [destruct Hin|].
    rewrite join_cons by discriminate.
    replace (len pre + len c + 1)%Z with (len (pre ++ c ++ [10%N])) in Hin
      by (unfold len; rewrite !length_app; simpl; lia).
    specialize (IH (S k) (pre ++ c ++ [10%N]) Hin).
    rewrite <- !app_assoc in IH. exact IH.
Qed.

Lemma sliceArray_nonempty {A} (i n : nat) (l : list A) :
  i < length l -> 0 < n -> sliceArray i (i + n) l <> [].
Proof.
  intros Hi Hn. unfold sliceArray. replace (i + n - i) with n by lia.
  destruct (skipn i l) as [|x t] eqn:E.
  - apply (f_equal (@length A)) in E. rewrite length_skipn in E. simpl in E. lia.
  - destruct n; [lia | discriminate].
Qed.

Lemma sliceArray_skipn {A} (i n : nat) (l : list A) :
  skipn i l = sliceArray i (i + n) l ++ skipn (i + n) l.
Proof.
  unfold sliceArray. replace (i + n - i) with n by lia.
  rewrite Nat.add_comm, <- skipn_skipn. now rewrite firstn_skipn.
Qed.

Lemma txtLoop_spec (content : jsstring) (lines : list jsstring) (linesPerPage : nat) :
  0 < linesPerPage ->
  forall fuel i pages out,
    txtLoop fuel lines linesPerPage i (offsetOf (map pg_content pages)) pages
    = Some out ->
    i = length pages * linesPerPage ->
    pages = txtPagesFrom 0 0 (map pg_content pages) ->
    join [10%N] (map pg_content pages ++ skipn i lines) = content ->
    out = txtPagesFrom 0 0 (map pg_content out)
    /\ join [10%N] (map pg_content out) = content
    /\ (pages <> [] \/ i < length lines -> out <> []).
Proof.
  intros Hpos. induction fuel as [|fuel IH]; intros i pages out; simpl.
  - destruct (i <? length lines) eqn:E; [discriminate|].
    apply Nat.ltb_ge in E. intros [= <-] Hi Hp Hj.
    rewrite skipn_all2, app_nil_r in Hj by exact E.
    repeat split; try assumption. intros [H|H]; [exact H | lia].
  - destruct (i <? length lines) eqn:E.
    + apply Nat.ltb_lt in E. intros Hloop Hi Hp Hj.
      set (pageContent := join [10%N] (sliceArray i (i + linesPerPage) lines)) in *.
      set (page := {| pg_pageNumber := Z.of_nat (i / linesPerPage + 1);
                      pg_content := pageContent;
                      pg_startChar := offsetOf (map pg_content pages);
                      pg_endChar := (offsetOf (map pg_content pages)
                                     + len pageContent - 1)%Z |}) in *.
      assert (Hoff : (offsetOf (map pg_content pages) + len pageContent + 1)%Z
                     = offsetOf (map pg_content (pages ++ [page]))).
      { rewrite map_app. simpl map. now rewrite offsetOf_snoc. }
      rewrite Hoff in Hloop.
      destruct (IH _ _ _ Hloop) as (H1 & H2 & H3).
      * rewrite length_app. simpl. lia.
      * rewrite map_app. simpl map. rewrite txtPagesFrom_snoc.
        rewrite <- Hp. f_equal. unfold page. f_equal.
        rewrite length_map. f_equal. rewrite Hi. simpl.
        rewrite Nat.div_mul by lia. lia.
      * rewrite map_app. simpl map. rewrite <- Hj.
        rewrite (sliceArray_skipn i linesPerPage lines).
        symmetry. apply join_group. now apply sliceArray_nonempty.
      * repeat split; try assumption. intros _. apply H3. left.
        intros H. apply app_eq_nil in H as [_ H]. discriminate.
    + apply Nat.ltb_ge in E. intros [= <-] Hi Hp Hj.
      rewrite skipn_all2, app_nil_r in Hj by exact E.
      repeat split; try assumption. intros [H|H]; [exact H | lia].
Qed.

Lemma split_nonempty (sep : N) (s : jsstring) : 0 < length (split sep s).
Proof.
  pose proof (split_aux_nonempty sep s []) as H. unfold split.
  destruct (split_aux sep s []); [congruence | simpl; lia].
Qed.

(** X20.  A text file longer than 1000 code units is cut into at least one
    page; the pages are numbered 1, 2, ... in order, their contents joined
    by line breaks give back the content (the one decoded from the buffer,
    before trimming), and each page is the part of that content that starts
    at its [startChar] and ends at its [endChar]. *)
Theorem X20_text_pages_tile_the_content (content : jsstring) :
  1000 < length content ->
  exists pages,
    txtPages content = Some (Some pages)
    /\ pages <> []
    /\ join [10%N] (map pg_content pages) = content
    /\ map pg_pageNumber pages = map Z.of_nat (seq 1 (length pages))
    /\ forall page,
         In page pages ->
         (0 <= pg_startChar page)%Z
         /\ pg_endChar page = (pg_startChar page + len (pg_content page) - 1)%Z
         /\ slice (Z.to_nat (pg_startChar page))
                  (Z.to_nat (pg_startChar page) + length (pg_content page))
                  content
            = pg_content page.
Proof.
  intros Hlong. unfold txtPages. apply Nat.ltb_lt in Hlong. rewrite Hlong.
  set (lines := split 10%N content).
  set (lpp := linesPerPageOf content lines).
  assert (Hpos : 0 < lpp) by apply linesPerPageOf_positive.
  destruct (txtLoop_terminates (length lines) lines lpp 0 0%Z [] Hpos) as [out Hloop];
    [lia|].
  rewrite Hloop. exists out. split; [reflexivity|].
  destruct (txtLoop_spec content lines lpp Hpos (length lines) 0 [] out Hloop)
    as (H1 & H2 & H3); try reflexivity.
  { simpl. apply join_split. }
  split; [apply H3; right; apply split_nonempty|].
  split; [exact H2|]. split.
  - rewrite H1 at 1. rewrite txtPagesFrom_numbers. now rewrite length_map.
  - intros page Hin. rewrite H1 in Hin.
    destruct (txtPagesFrom_positions (map pg_content out) 0 [] page Hin)
      as (Hs & He & post & Heq & Hlen).
    simpl app in Heq, Hlen. rewrite H2 in Heq, Hlen.
    split; [exact Hs|]. split; [exact He|].
    unfold slice.
    replace (Z.to_nat (pg_startChar page) + length (pg_content page)
             - Z.to_nat (pg_startChar page)) with (length (pg_content page)) by lia.
    rewrite Heq at 1. rewrite <- Hlen at 1. apply slice_middle.
Qed.

Lemma X20_text_pages_witness :
  exists pages,
    txtPages longText = Some (Some pages)
    /\ pages <> []
    /\ join [10%N] (map pg_content pages) = longText
    /\ map pg_pageNumber pages = map Z.of_nat (seq 1 (length pages))
    /\ forall page,
         In page pages ->
         (0 <= pg_startChar page)%Z
         /\ pg_endChar page = (pg_startChar page + len (pg_content page) - 1)%Z
         /\ slice (Z.to_nat (pg_startChar page))
                  (Z.to_nat (pg_startChar page) + length (pg_content page))
                  longText
            = pg_content page.
Proof. apply (X20_text_pages_tile_the_content longText). vm_compute. lia. Defined.

(** *** Pages of a Word document *)

Lemma trimStart_blank (s : jsstring) :
  trimStart s = [] -> Forall (fun c => isWhiteSpace c = true) s.
Proof.
  induction s as [|c s IH]; simpl; [constructor|].
  destruct (isWhiteSpace c) eqn:E; [|discriminate].
  intros H. constructor; auto.
Qed.

Lemma trim_blank (s : jsstring) :
  trim s = [] -> Forall (fun c => isWhiteSpace c = true) s.
Proof.
  unfold trim. intros H. apply trimStart_blank.
  destruct (trimStart s) as [|c t] eqn:E; [reflexivity|].
  destruct (trimEnd_head t c (trimStart_head _ _ _ E)) as [t' Ht].
  rewrite Ht in H. discriminate.
Qed.

Lemma nonBlank_trim (s : jsstring) : nonBlank s -> trim s <> [].
Proof.
  intros H Ht. apply trim_blank in Ht.
  apply Exists_exists in H as (c & Hin & Hc).
  rewrite Forall_forall in Ht. specialize (Ht c Hin). congruence.
Qed.

Lemma blank_trim (s : jsstring) :
  Forall (fun c => isWhiteSpace c = true) s -> trim s = [].
Proof.
  intros H. unfold trim.
  assert (Hs : trimStart s = []).
  { induction H as [|c s Hc _ IH]; simpl; [reflexivity | now rewrite Hc]. }
  now rewrite Hs.
Qed.

Lemma trim_nonBlank (s : jsstring) : trim s <> [] -> nonBlank s.
Proof.
  intros H.
  destruct (Forall_Exists_dec (fun c => isWhiteSpace c = true)
              (fun c => bool_dec (isWhiteSpace c) true) s) as [Hall|Hex].
  - now apply blank_trim in Hall.
  - unfold nonBlank. eapply Exists_impl; [|exact Hex].
    simpl. intros c Hc. destruct (isWhiteSpace c); [now elim Hc | reflexivity].
Qed.

Lemma paragraphsOf_nonBlank (content : jsstring) :
  Forall nonBlank (paragraphsOf content).
Proof.
  apply Forall_forall. intros p Hp. apply filter_In in Hp as [_ H].
  apply trim_nonBlank. destruct (trim p); [discriminate | discriminate].
Qed.

Lemma tiled_snoc (pos : Z) (pages : list Page) (stop : Z) (page : Page) :
  tiled pos pages stop ->
  pg_startChar page = stop -> (stop <= pg_endChar page)%Z ->
  tiled pos (pages ++ [page]) (pg_endChar page + 1)%Z.
Proof.
  revert pos. induction pages as [|p r IH]; intros pos; simpl.
  - intros <- Hs He. auto.
  - intros (H1 & H2 & H3) Hs He. repeat split; auto.
Qed.

Lemma paragraphsLength_app (a b : list jsstring) :
  paragraphsLength (a ++ b) = (paragraphsLength a + paragraphsLength b)%Z.
Proof. induction a as [|x a IH]; simpl; [reflexivity | rewrite IH; lia]. Qed.

Lemma nonBlank_app_l (a b : jsstring) : nonBlank a -> nonBlank (a ++ b).
Proof. intros H. apply Exists_app. now left. Qed.

Lemma nonBlank_app_r (a b : jsstring) : nonBlank b -> nonBlank (a ++ b).
Proof. intros H. apply Exists_app. now right. Qed.

Lemma page_numbers_snoc (pages : list Page) (page : Page) :
  map pg_pageNumber pages = map Z.of_nat (seq 1 (length pages)) ->
  pg_pageNumber page = Z.of_nat (length pages + 1) ->
  map pg_pageNumber (pages ++ [page])
  = map Z.of_nat (seq 1 (length (pages ++ [page]))).
Proof.
  intros H Hp. rewrite length_app. simpl length.
  rewrite Nat.add_1_r, seq_S, !map_app, H. simpl. rewrite Hp.
  do 3 f_equal. lia.
Qed.

Lemma docxStep_inv (done : list jsstring) (st : DocxState) (p : jsstring) :
  nonBlank p -> docxInv done st -> docxInv (done ++ [p]) (docxStep st p).
Proof.
  intros Hp (Hnum & Hcur & Hall & Htile & Hpos & Hcpc).
  assert (Hdone : done ++ [p] <> []) by (now destruct done).
  unfold docxStep.
  destruct ((2000 <? length (dx_currentPageContent st) + length p)
            && negb (isEmpty (dx_currentPageContent st))) eqn:E;
    unfold docxInv;
    cbn [dx_pages dx_currentPage dx_currentPageContent dx_currentPos].
  - apply andb_true_iff in E as [_ E]. apply negb_true_iff in E.
    destruct Hcpc as [(_ & H0 & _)|(_ & Hnb)]; [rewrite H0 in E; discriminate|].
    assert (Hlen : (0 < len (dx_currentPageContent st))%Z).
    { unfold len. destruct (dx_currentPageContent st); [discriminate | simpl; lia]. }
    split; [apply page_numbers_snoc; [exact Hnum | simpl; now rewrite Hcur]|].
    split; [rewrite length_app; simpl; lia|].
    split.
    { apply Forall_app. split; [exact Hall|]. constructor; [|constructor]. simpl.
      split; [now apply nonBlank_trim | apply trim_idempotent]. }
    split.
    { replace (dx_currentPos st + len p + 2 - len (p ++ [10; 10]%N))%Z
        with (dx_currentPos st - 1 + 1)%Z
        by (unfold len; rewrite length_app; simpl; lia).
      apply (tiled_snoc 0 (dx_pages st)
               (dx_currentPos st - len (dx_currentPageContent st))%Z
               {| pg_pageNumber := Z.of_nat (dx_currentPage st);
                  pg_content := trim (dx_currentPageContent st);
                  pg_startChar := (dx_currentPos st - len (dx_currentPageContent st))%Z;
                  pg_endChar := (dx_currentPos st - 1)%Z |});
        [exact Htile | reflexivity | simpl; lia]. }
    split; [rewrite paragraphsLength_app; simpl; lia|].
    right. split; [exact Hdone | now apply nonBlank_app_l].
  - split; [exact Hnum|]. split; [exact Hcur|]. split; [exact Hall|].
    split.
    { replace (dx_currentPos st + len p + 2
               - len (dx_currentPageContent st ++ p ++ [10; 10]%N))%Z
        with (dx_currentPos st - len (dx_currentPageContent st))%Z
        by (unfold len; rewrite !length_app; simpl; lia).
      exact Htile. }
    split; [rewrite paragraphsLength_app; simpl; lia|].
    right. split; [exact Hdone|].
    apply nonBlank_app_r. now apply nonBlank_app_l.
Qed.

Lemma docxFold_inv (paragraphs done : list jsstring) (st : DocxState) :
  Forall nonBlank paragraphs -> docxInv done st ->
  docxInv (done ++ paragraphs) (fold_left docxStep paragraphs st).
Proof.
  intros H. revert done st. induction H as [|p l Hp _ IH]; intros done st Hinv; simpl.
  - now rewrite app_nil_r.
  - replace (done ++ p :: l) with ((done ++ [p]) ++ l) by (now rewrite <- app_assoc).
    apply IH. now apply docxStep_inv.
Qed.

(** X21.  A Word text longer than 2000 code units is cut into pages
    numbered 1, 2, ... in order; every page has a content that is not empty
    and has no white space at either end; the character ranges of the pages
    follow each other without gap from 0 to the length of the non-blank
    paragraphs, each counted with a separator of two code units; and there
    is no page exactly when there is no non-blank paragraph. *)
Theorem X21_word_pages_are_numbered_and_contiguous (content : jsstring) :
  2000 < length content ->
  exists pages,
    docxPages content = Some pages
    /\ map pg_pageNumber pages = map Z.of_nat (seq 1 (length pages))
    /\ Forall (fun pg => pg_content pg <> [] /\ trim (pg_content pg) = pg_content pg)
              pages
    /\ tiled 0 pages (paragraphsLength (paragraphsOf content))
    /\ (pages = [] <-> paragraphsOf content = []).
Proof.
  intros Hlong. unfold docxPages. apply Nat.ltb_lt in Hlong. rewrite Hlong.
  eexists. split; [reflexivity|].
  pose proof (docxFold_inv (paragraphsOf content) []
                {| dx_pages := []; dx_currentPage := 1;
                   dx_currentPageContent := []; dx_currentPos := 0 |}
                (paragraphsOf_nonBlank content)) as H.
  simpl app in H.
  destruct H as (Hnum & Hcur & Hall & Htile & Hpos & Hcpc).
  { unfold docxInv. simpl. repeat split; auto. }
  set (st := fold_left docxStep _ _) in *. unfold docxFlush.
  destruct Hcpc as [(Hd & Hc & Hp)|(Hd & Hnb)].
  - rewrite Hc. simpl. rewrite Hp, Hd. simpl. repeat split; auto.
  - pose proof (nonBlank_trim _ Hnb) as Hne.
    destruct (trim (dx_currentPageContent st)) as [|c t] eqn:E; [congruence|].
    simpl isEmpty. cbv iota.
    assert (Hlen : (0 < len (dx_currentPageContent st))%Z).
    { unfold len. destruct (dx_currentPageContent st);
        [inversion Hnb | simpl; lia]. }
    split; [apply page_numbers_snoc; [exact Hnum | simpl; now rewrite Hcur]|].
    split.
    { apply Forall_app. split; [exact Hall|]. constructor; [|constructor]. simpl.
      split; [discriminate | rewrite <- E; apply trim_idempotent]. }
    split.
    { pose proof (tiled_snoc 0 (dx_pages st)
                    (dx_currentPos st - len (dx_currentPageContent st))%Z
                    {| pg_pageNumber := Z.of_nat (dx_currentPage st);
                       pg_content := c :: t;
                       pg_startChar :=
                         (dx_currentPos st - len (dx_currentPageContent st))%Z;
                       pg_endChar := (dx_currentPos st - 1)%Z |}
                    Htile eq_refl) as Ht.
      cbn [pg_endChar] in Ht.
      replace (dx_currentPos st - 1 + 1)%Z with (dx_currentPos st) in Ht by lia.
      rewrite <- Hpos. apply Ht. lia. }
    split.
    + intros H. apply app_eq_nil in H as [_ H]. discriminate.
    + intros H. congruence.
Qed.

Lemma X21_word_pages_witness :
  exists pages,
    docxPages longWordText = Some pages
    /\ map pg_pageNumber pages = map Z.of_nat (seq 1 (length pages))
    /\ Forall (fun pg => pg_content pg <> [] /\ trim (pg_content pg) = pg_content pg)
              pages
    /\ tiled 0 pages (paragraphsLength (paragraphsOf longWordText))
    /\ (pages = [] <-> paragraphsOf longWordText = []).
Proof.
  apply (X21_word_pages_are_numbered_and_contiguous longWordText). vm_compute. lia.
Defined.

(** *** Pages of a PDF *)

Lemma indexOf_scan_range (c : N) (s : jsstring) (i pos : Z) :
  indexOf_scan c s i pos = (-1)%Z
  \/ (i <= indexOf_scan c s i pos < i + len s)%Z.
Proof.
  revert i. induction s as [|x s IH]; intros i; simpl; [now left|].
  destruct ((pos <=? i)%Z && (x =? c)%N).
  - right. unfold len. simpl length. lia.
  - destruct (IH (i + 1)%Z) as [H|H]; [now left|].
    right. unfold len in *. simpl length. lia.
Qed.

Lemma indexOf_range (c : N) (s : jsstring) (pos : Z) :
  (indexOf c s pos < len s)%Z.
Proof.
  unfold indexOf. destruct (indexOf_scan_range c s 0 pos) as [->|H];
    [unfold len|]; lia.
Qed.

Lemma pdfPageEnd_bounds (text : jsstring) (pageCount avg i currentPos : nat) :
  currentPos <= length text ->
  Nat.min (currentPos + avg) (length text)
  <= pdfPageEnd text pageCount avg i currentPos <= length text.
Proof.
  intros Hcur. unfold pdfPageEnd.
  set (endChar := Nat.min (currentPos + avg) (length text)).
  destruct ((i <? pageCount) && (endChar <? length text)); [|lia].
  set (breakPoint := Z.min _ _).
  assert (Hbp : (breakPoint <= len text)%Z).
  { unfold breakPoint. apply Z.min_le_iff. left.
    pose proof (indexOf_range 46%N text (Z.of_nat endChar)).
    destruct (-1 <? indexOf 46%N text (Z.of_nat endChar))%Z; lia. }
  destruct ((Z.of_nat endChar <? breakPoint)%Z && _) eqn:E; [|lia].
  apply andb_true_iff in E as [E _]. apply Z.ltb_lt in E.
  unfold len in Hbp. lia.
Qed.

Lemma StronglySorted_snoc {A} (R : A -> A -> Prop) (l : list A) (y : A) :
  StronglySorted R l -> Forall (fun x => R x y) l -> StronglySorted R (l ++ [y]).
Proof.
  intros Hs. induction Hs as [|x l Hs IH Hx]; intros Hall; simpl.
  - repeat constructor.
  - inversion Hall as [|? ? Hxy Hl]; subst. constructor; [now apply IH|].
    apply Forall_app. split; [exact Hx | now repeat constructor].
Qed.

Lemma slice_nonBlank (text : jsstring) (start end_ j : nat) (c : N) :
  nth_error text j = Some c -> isWhiteSpace c = false ->
  start <= j < end_ ->
  trim (slice start end_ text) <> [].
Proof.
  intros Hj Hc Hr. apply nonBlank_trim. apply Exists_exists. exists c.
  split; [|exact Hc]. unfold slice.
  apply (nth_error_In _ (j - start)).
  rewrite nth_error_firstn. 
  assert (Hlt : (j - start <? end_ - start) = true) by (apply Nat.ltb_lt; lia).
  rewrite Hlt. rewrite nth_error_skipn.
  now replace (start + (j - start)) with j by lia.
Qed.

Lemma pdfPageStep_inv (text : jsstring) (pageCount avg k : nat)
  (st : list Page * nat) :
  k < pageCount ->
  pdfInv text pageCount avg k st ->
  pdfInv text pageCount avg (S k) (pdfPageStep text pageCount avg st (S k)).
Proof.
  intros Hk. destruct st as [pages cur]. unfold pdfInv. simpl fst. simpl snd.
  intros (Hcur & Hmin & Hall & Hsorted & Hcov).
  unfold pdfPageStep.
  pose proof (pdfPageEnd_bounds text pageCount avg (S k) cur Hcur) as Hend.
  set (endChar := pdfPageEnd text pageCount avg (S k) cur) in *.
  cbn [fst snd].
  split; [lia|]. split; [simpl; lia|].
  assert (Hold : Forall (fun page => pdfPageOK text pageCount page
                                     /\ (pg_pageNumber page <= Z.of_nat (S k))%Z
                                     /\ (pg_endChar page < Z.of_nat endChar)%Z) pages).
  { eapply Forall_impl; [|exact Hall]. simpl. intros p (H1 & H2 & H3).
    split; [exact H1|]. lia. }
  destruct (trim (slice cur endChar text)) as [|c0 t0] eqn:Etrim; simpl isEmpty;
    cbv iota.
  - split; [exact Hold|]. split; [exact Hsorted|].
    intros j c Hj Hc Hlt. destruct (Nat.lt_ge_cases j cur) as [Hjc|Hjc].
    + exact (Hcov j c Hj Hc Hjc).
    + exfalso. apply (slice_nonBlank text cur endChar j c Hj Hc); [lia|exact Etrim].
  - assert (Hne : cur < endChar).
    { destruct (Nat.lt_ge_cases cur endChar) as [H|H]; [exact H|].
      unfold slice in Etrim. replace (endChar - cur) with 0 in Etrim by lia.
      discriminate. }
    set (page := {| pg_pageNumber := Z.of_nat (S k);
                    pg_content := c0 :: t0;
                    pg_startChar := Z.of_nat cur;
                    pg_endChar := (Z.of_nat endChar - 1)%Z |}).
    split; [|split].
    + apply Forall_app. split; [exact Hold|]. constructor; [|constructor].
      unfold pdfPageOK, page. cbn [pg_pageNumber pg_content pg_startChar pg_endChar].
      repeat split; try lia.
      * unfold len. lia.
      * rewrite Nat2Z.id. replace (Z.to_nat (Z.of_nat endChar - 1 + 1)) with endChar
          by lia. now rewrite Etrim.
      * discriminate.
    + apply StronglySorted_snoc; [exact Hsorted|].
      eapply Forall_impl; [|exact Hall]. simpl. intros p (_ & H2 & H3).
      unfold pageBefore, page. simpl. lia.
    + intros j c Hj Hc Hlt. destruct (Nat.lt_ge_cases j cur) as [Hjc|Hjc].
      * destruct (Hcov j c Hj Hc Hjc) as (p & Hp & Hr).
        exists p. split; [apply in_or_app; now left | exact Hr].
      * exists page. split; [apply in_or_app; right; now left|].
        unfold page. simpl. lia.
Qed.

Lemma pdfFold_inv (text : jsstring) (pageCount avg n k : nat) (st : list Page * nat) :
  k + n <= pageCount ->
  pdfInv text pageCount avg k st ->
  pdfInv text pageCount avg (k + n)
    (fold_left (pdfPageStep text pageCount avg) (seq (S k) n) st).
Proof.
  revert k st. induction n as [|n IH]; intros k st Hk Hinv; simpl.
  - now rewrite Nat.add_0_r.
  - replace (k + S n) with (S k + n) by lia.
    apply IH; [lia|]. apply pdfPageStep_inv; [lia | exact Hinv].
Qed.

Lemma ceilDiv_covers (a b : nat) : 0 < b -> a <= b * ceilDiv a b.
Proof.
  intros Hb. unfold ceilDiv.
  pose proof (Nat.div_mod_eq (a + b - 1) b) as H.
  pose proof (Nat.mod_upper_bound (a + b - 1) b) as Hm. lia.
Qed.

(** X22.  The pages made for a PDF of several pages with a non-empty text:
    every page has a number between 1 and the page count, a range inside
    the text, and as content the text of that range, trimmed and not empty;
    the pages come in increasing order of number and their ranges do not
    overlap; and every code unit of the text that is not white space lies
    in the range of a page. *)
Theorem X22_pdf_pages_are_disjoint_and_cover_the_text
  (text : jsstring) (pageCount : nat) :
  text <> [] -> 1 < pageCount ->
  exists pages,
    pdfPages text pageCount = Some pages
    /\ Forall (pdfPageOK text pageCount) pages
    /\ StronglySorted pageBefore pages
    /\ coveredUpTo text (length text) pages.
Proof.
  intros Htext Hpc. unfold pdfPages.
  rewrite (isEmpty_false text Htext). apply Nat.ltb_lt in Hpc as Hpc'.
  rewrite Hpc'. simpl andb. cbv iota. eexists. split; [reflexivity|].
  set (avg := ceilDiv (length text) pageCount).
  pose proof (pdfFold_inv text pageCount avg pageCount 0 ([], 0)) as H.
  simpl plus in H.
  destruct H as (Hcur & Hmin & Hall & Hsorted & Hcov); [lia| |].
  { unfold pdfInv. simpl. repeat split; try lia; try constructor.
    intros j c _ _ Hj. lia. }
  set (st := fold_left _ _ _) in *.
  pose proof (ceilDiv_covers (length text) pageCount) as Hc. fold avg in Hc.
  assert (Hfinal : snd st = length text) by lia.
  split; [|split; [exact Hsorted | now rewrite <- Hfinal]].
  eapply Forall_impl; [|exact Hall]. simpl. tauto.
Qed.

Lemma X22_pdf_pages_witness :
  exists pages,
    pdfPages pdfText 3 = Some pages
    /\ Forall (pdfPageOK pdfText 3) pages
    /\ StronglySorted pageBefore pages
    /\ coveredUpTo pdfText (length pdfText) pages.
Proof.
  apply (X22_pdf_pages_are_disjoint_and_cover_the_text pdfText 3).
  - vm_compute. discriminate.
  - lia.
Defined.

Import Reranker Recommendation Chat.

(** ** The event stream, continued *)

Lemma fragmentOf_nonempty (delta_content : jsstring -> option jsstring)
  (line : jsstring) :
  Forall (fun c => c <> []) (fragmentOf delta_content line).
Proof.
  unfold fragmentOf. destruct (dataOf line) as [data|]; [|constructor].
  destruct (isEmpty (trim data)); [constructor|].
  destruct (delta_content data) as [[|c content]|]; repeat constructor.
  discriminate.
Qed.

Lemma forwarded_nonempty (delta_content : jsstring -> option jsstring)
  (chunks : list jsstring) :
  Forall (fun c => c <> []) (forwarded delta_content chunks).
Proof.
  unfold forwarded. apply Forall_flat_map. apply Forall_forall. intros chunk _.
  destruct (isEmpty (trim chunk)); [constructor|].
  apply Forall_flat_map. apply Forall_forall. intros line _.
  apply fragmentOf_nonempty.
Qed.

(** X23.  Whatever the completion service does once the response is open,
    the client receives at least one [content] event before the [final]
    event, and no [content] event is empty.  When the upstream ends
    normally, the contents are the fragments of the upstream in order,
    followed by the greeting exactly when the fragments together are blank. *)
Theorem X23_client_always_receives_content
  (delta_content : jsstring -> option jsstring)
  (analyzeContext : ConversationContext -> Result Analysis)
  (generateCandidateQuestions :
     Analysis -> option (list SourceDoc) -> Result (list RecommendedQuestion))
  (uuidv4 : nat -> jsstring)
  (message : jsstring) (conversationHistory : list Message)
  (relevantContext : list RerankResult)
  (multimediaResults : list MultimediaResult)
  (upstream : Upstream) :
  exists contents data,
    start delta_content analyzeContext generateCandidateQuestions uuidv4
      message conversationHistory relevantContext multimediaResults upstream
    = map contentCall contents ++ [Enqueue (FinalEvent data); CloseStream]
    /\ contents <> []
    /\ Forall (fun c => c <> []) contents
    /\ match upstream with
       | Body chunks ReadDone =>
         contents
         = forwarded delta_content chunks
           ++ (if isEmpty (trim (concat (forwarded delta_content chunks)))
               then [defaultContent] else [])
       | _ => True
       end.
Proof.
  unfold start, stry, start_try, start_catch, readAll.
  destruct upstream as [|chunks ending].
  - exists [apology], (errorFinalData relevantContext).
    repeat split; try discriminate. repeat constructor. discriminate.
  - unfold sbind at 1. unfold sbind at 1. rewrite chunks_emit. simpl.
    pose proof (forwarded_nonempty delta_content chunks) as Hne.
    destruct ending.
    + destruct (default_recommendations_bounded analyzeContext
                  generateCandidateQuestions uuidv4
                  (conversationContext message conversationHistory)
                  (Some (map (fun ctx => {| sd_filename := rr_filename ctx;
                                            sd_content := rr_content ctx |})
                             relevantContext)))
        as (recs & Hrecs & _).
      unfold sbind, sret, lift, enqueue, close, recommend. simpl.
      rewrite Hrecs.
      destruct (isEmpty (trim (concat (forwarded delta_content chunks)))) eqn:E; simpl.
      * exists (forwarded delta_content chunks ++ [defaultContent]),
               (finalData relevantContext multimediaResults recs).
        split; [rewrite map_app, <- !app_assoc; reflexivity|].
        split; [intros H; apply app_eq_nil in H as [_ H]; discriminate|].
        split; [|reflexivity].
        apply Forall_app. split; [exact Hne|]. repeat constructor. discriminate.
      * exists (forwarded delta_content chunks),
               (finalData relevantContext multimediaResults recs).
        split; [rewrite <- !app_assoc; reflexivity|].
        split; [|split; [exact Hne | now rewrite app_nil_r]].
        intros H. rewrite H in E. discriminate.
    + unfold sbind, sthrow, enqueue, close. simpl.
      exists (forwarded delta_content chunks ++ [apology]),
             (errorFinalData relevantContext).
      split; [rewrite map_app, <- !app_assoc; reflexivity|].
      split; [intros H; apply app_eq_nil in H as [_ H]; discriminate|].
      split; [|exact I].
      apply Forall_app. split; [exact Hne|]. repeat constructor. discriminate.
Qed.

(** ** The sources of the final event *)

Lemma map_set_length {V} (m : JSMap V) (k : jsstring) (v : V) :
  length m <= length (map_set m k v) <= S (length m).
Proof.
  induction m as [|[k' v'] m IH]; simpl; [lia|].
  destruct (streq k' k); simpl; lia.
Qed.

Lemma map_set_nonempty {V} (m : JSMap V) (k : jsstring) (v : V) : map_set m k v <> [].
Proof. destruct m as [|[k' v'] m]; simpl; [|destruct (streq k' k)]; discriminate. Qed.

Lemma keepHigher_length (m : JSMap Source) (e : Source) :
  length m <= length (keepHigher m e) <= S (length m)
  /\ keepHigher m e <> [].
Proof.
  unfold keepHigher. destruct (map_get m (src_filename e)) as [present|] eqn:Eg.
  - assert (Hm : m <> []) by (destruct m; [discriminate | discriminate]).
    destruct (Qltb (src_score present) (src_score e)).
    + split; [apply map_set_length | apply map_set_nonempty].
    + split; [lia | exact Hm].
  - split; [apply map_set_length | apply map_set_nonempty].
Qed.

Lemma fold_keepHigher_length (entries : list Source) (m : JSMap Source) :
  length m <= length (fold_left keepHigher entries m) <= length m + length entries
  /\ (entries <> [] -> fold_left keepHigher entries m <> []).
Proof.
  revert m. induction entries as [|e l IH]; intros m; simpl.
  - split; [lia | congruence].
  - destruct (keepHigher_length m e) as [Hlen Hne].
    destruct (IH (keepHigher m e)) as [Hl Hn]. split; [lia|].
    intros _. destruct l as [|e' l]; [exact Hne | apply Hn; discriminate].
Qed.

(** X24.  In the [final] event of a stream that succeeds,
    [hasRelevantContext] is set exactly when the fused source list is not
    empty, that list has no more entries than there are documents and
    multimedia results, and [multimediaCount] is the number of multimedia
    results.  In the [final] event of the error path the flag looks at the
    documents only and the count is 0, whatever the multimedia search
    returned. *)
Theorem X24_final_event_counts_the_sources
  (relevantContext : list RerankResult) (multimediaResults : list MultimediaResult)
  (recommendations : list RecommendedQuestion) :
  let data := finalData relevantContext multimediaResults recommendations in
  let fused := allSources relevantContext multimediaResults in
  sources data = FusedSources fused
  /\ (hasRelevantContext data = true <-> fused <> [])
  /\ length fused <= length relevantContext + length multimediaResults
  /\ multimediaCount data = length multimediaResults
  /\ (hasRelevantContext (errorFinalData relevantContext) = true
      <-> relevantContext <> [])
  /\ multimediaCount (errorFinalData relevantContext) = 0.
Proof.
  cbv zeta. unfold finalData, errorFinalData, allSources. simpl.
  set (m := uniqueSourcesOf relevantContext multimediaResults).
  assert (Hd : length (documentEntries relevantContext) = length relevantContext).
  { unfold documentEntries, indexed.
    rewrite length_map, length_combine, length_seq. lia. }
  assert (Hm : length (multimediaEntries multimediaResults) = length multimediaResults).
  { unfold multimediaEntries, indexed, multimediaContextOf.
    rewrite length_map, length_combine, length_seq, length_combine, length_map. lia. }
  destruct (fold_keepHigher_length (documentEntries relevantContext) [])
    as [Hl1 Hn1].
  destruct (fold_keepHigher_length (multimediaEntries multimediaResults)
              (fold_left keepHigher (documentEntries relevantContext) []))
    as [Hl2 Hn2].
  fold (uniqueSourcesOf relevantContext multimediaResults) in Hl2, Hn2. fold m in Hl2, Hn2.
  simpl in Hl1.
  assert (Hlen : length (sort (fun a b => (src_score b - src_score a)%Q)
                              (map_values m)) = length m).
  { rewrite sort_length. unfold map_values. apply length_map. }
  split; [reflexivity|]. split; [|split; [|split; [|split]]].
  - unfold multimediaContextOf. rewrite length_map.
    rewrite orb_true_iff, !Nat.ltb_lt. split.
    + intros H Hs. apply (f_equal (@length Source)) in Hs. rewrite Hlen in Hs.
      simpl in Hs. destruct H as [H|H].
      * assert (Hne : documentEntries relevantContext <> [])
          by (intros He; rewrite He in Hd; simpl in Hd; lia).
        specialize (Hn1 Hne).
        destruct (fold_left keepHigher (documentEntries relevantContext) []);
          [congruence | simpl in Hl2; lia].
      * assert (Hne : multimediaEntries multimediaResults <> [])
          by (intros He; rewrite He in Hm; simpl in Hm; lia).
        specialize (Hn2 Hne). destruct m; [congruence | simpl in Hs; lia].
    + intros H. destruct relevantContext as [|r rc]; [|left; simpl; lia].
      destruct multimediaResults as [|x mm]; [|right; simpl; lia].
      exfalso. apply H. reflexivity.
  - rewrite Hlen. lia.
  - unfold multimediaContextOf. apply length_map.
  - rewrite Nat.ltb_lt. destruct relevantContext; simpl; split; try lia; congruence.
  - reflexivity.
Qed.

(** ** The enhanced query *)

(** X25.  The enhanced query is never longer than the message itself or
    503 code units, whichever is larger.  It is the message unchanged when
    none of the last six messages of the history is from the user or the
    assistant; otherwise it is the message unchanged, or some history
    followed by a space and the message, within 500 code units, or the
    first 500 code units of such a text followed by three dots. *)
Theorem X25_enhanced_query_is_bounded
  (currentMessage : jsstring) (conversationHistory : list Message) :
  let query := buildEnhancedQuery currentMessage conversationHistory in
  length query <= Nat.max (length currentMessage) 503
  /\ (filter isDialogueRole (slice_last 6 conversationHistory) = [] ->
      query = currentMessage)
  /\ (query = currentMessage
      \/ (exists recentMessages,
            query = recentMessages ++ js " " ++ currentMessage
            /\ length query <= 500)
      \/ (exists contextQuery,
            500 < length contextQuery
            /\ endsWith currentMessage contextQuery = true
            /\ query = slice 0 500 contextQuery ++ js "...")).
Proof.
  cbv zeta. unfold buildEnhancedQuery.
  set (recent := join (js " ") (map shorten (filter isDialogueRole
                                               (slice_last 6 conversationHistory)))).
  split; [|split].
  - destruct (trim recent); [lia|].
    destruct (500 <? length (recent ++ js " " ++ currentMessage)) eqn:E.
    + rewrite length_app. unfold slice. rewrite length_firstn.
      change (length (js "...")) with 3. lia.
    + apply Nat.ltb_ge in E. lia.
  - intros H. unfold recent. rewrite H. reflexivity.
  - destruct (trim recent); [now left|]. right.
    destruct (500 <? length (recent ++ js " " ++ currentMessage)) eqn:E.
    + right. exists (recent ++ js " " ++ currentMessage).
      apply Nat.ltb_lt in E. split; [exact E|]. split; [|reflexivity].
      unfold endsWith. rewrite !rev_app_distr.
      generalize (rev currentMessage) as p. generalize (rev (js " ") ++ rev recent).
      intros rest p. induction p as [|c p IH]; simpl; [reflexivity|].
      now rewrite N.eqb_refl.
    + left. exists recent. apply Nat.ltb_ge in E. auto.
Qed.

(** ** The reranker, continued *)

Lemma mapM_Forall2 {A B} (f : A -> Result B) (l : list A) (ys : list B) :
  mapM f l = Ok ys -> Forall2 (fun x y => f x = Ok y) l ys.
Proof.
  revert ys. induction l as [|x l IH]; intros ys; simpl.
  - intros [= <-]. constructor.
  - destruct (f x) as [y|] eqn:E; simpl; [|discriminate].
    destruct (mapM f l) as [ys'|]; simpl; [|discriminate].
    intros [= <-]. constructor; auto.
Qed.

Section Provenance.

Variable other : jsstring -> jsstring -> RegExpOutcome.

Lemma collect_copy (matches : list SearchMatch) (items : list RerankItem)
  (r : RerankResult) :
  In r (collect matches items) -> exists m, In m matches /\ copyOf m r.
Proof.
  induction items as [|item items IH]; simpl; [tauto|].
  destruct (at_index matches (index item)) as [m|] eqn:E; [|exact IH].
  intros [<-|H]; [|exact (IH H)].
  exists m. split; [|repeat split].
  unfold at_index in E. destruct (index item <? 0)%Z; [discriminate|].
  eapply nth_error_In; eauto.
Qed.

Lemma scoreMatch_copy (queryWords : list jsstring) (m : SearchMatch) (r : RerankResult) :
  scoreMatch other queryWords m = Ok r -> copyOf m r.
Proof.
  unfold scoreMatch, bind.
  destruct (occurrences other (toLowerCase (sm_content m)) queryWords 0);
    [|discriminate].
  intros [= <-]. repeat split.
Qed.

Lemma rerankBySimilarity_copies (query : jsstring) (matches : list SearchMatch)
  (topK : nat) :
  exists results,
    rerankBySimilarity other query matches topK = Ok results
    /\ (forall r, In r results -> exists m, In m matches /\ copyOf m r)
    /\ length results = Nat.min topK (length matches).
Proof.
  unfold rerankBySimilarity, rerankBySimilarity_try, try_catch, bind.
  destruct (mapM (scoreMatch other (queryWordsOf query)) matches) as [scored|] eqn:E.
  - eexists. split; [reflexivity|]. apply mapM_Forall2 in E. split.
    + intros r Hr. apply In_firstn in Hr. apply sort_In in Hr.
      destruct (Forall2_In_r _ _ _ _ E Hr) as (m & Hm & Hs).
      exists m. split; [exact Hm | exact (scoreMatch_copy _ _ _ Hs)].
    + rewrite length_firstn. unfold byScoreDesc. rewrite sort_length.
      apply Forall2_length in E. lia.
  - eexists. split; [reflexivity|]. split.
    + intros r Hr. apply in_map_iff in Hr as (m & <- & Hm).
      apply In_firstn in Hm. exists m. split; [exact Hm | repeat split].
    + rewrite length_map, length_firstn. reflexivity.
Qed.

(** X26.  [rerankWithBGE] returns for every answer of the endpoint, and
    on every path each result copies the content, the file name, the
    document id, the page, the page type and the original score of one of
    the candidates.  Without candidates it returns nothing; when the
    endpoint is unavailable (no API key, a call that rejects, or a status
    that is not OK) it returns exactly [min(topK, n)] results for [n] > 0
    candidates. *)
Theorem X26_every_result_copies_a_candidate
  (endpoint : RerankEndpoint) (query : jsstring) (matches : list SearchMatch)
  (topK : nat) :
  exists results,
    rerankWithBGE other endpoint query matches topK = Ok results
    /\ (forall r, In r results -> exists m, In m matches /\ copyOf m r)
    /\ (matches = [] -> results = [])
    /\ (unavailable endpoint -> matches <> [] ->
        length results = Nat.min topK (length matches)).
Proof.
  destruct (rerankBySimilarity_copies query matches topK) as (fb & Hfb & Hcopy & Hlen).
  unfold rerankWithBGE, rerankWithBGE_try, try_catch.
  destruct matches as [|m0 ms].
  - exists []. repeat split; try tauto. intros r [].
  - destruct endpoint as [| |status|results]; rewrite ?Hfb.
    + exists fb. repeat split; auto. discriminate.
    + exists fb. repeat split; auto. discriminate.
    + exists fb. repeat split; auto. discriminate.
    + destruct (length (match results with
                        | Some items => collect (m0 :: ms) items
                        | None => []
                        end) =? 0) eqn:E; rewrite ?Hfb.
      * exists fb. split; [reflexivity|]. split; [exact Hcopy|].
        split; [discriminate | intros []].
      * eexists. split; [reflexivity|]. split; [|split; [discriminate | intros []]].
        intros r Hr. apply sort_In in Hr.
        destruct results as [items|]; [|destruct Hr].
        exact (collect_copy _ _ _ Hr).
Qed.

End Provenance.

(** ** The recommendation engine, continued *)

Lemma subseq_nil_l {A} (l : list A) : subseq [] l.
Proof. induction l; [constructor | now apply subseq_skip]. Qed.

Lemma subseq_app {A} (a b c d : list A) :
  subseq a b -> subseq c d -> subseq (a ++ c) (b ++ d).
Proof.
  intros Hab Hcd. induction Hab as [|x l l' _ IH|x l l' _ IH]; simpl.
  - exact Hcd.
  - apply subseq_skip. exact IH.
  - apply subseq_keep. exact IH.
Qed.

Lemma subseq_In {A} (l l' : list A) (x : A) : subseq l l' -> In x l -> In x l'.
Proof.
  induction 1; simpl; auto.
  intros [->|H']; auto.
Qed.

Lemma subseq_sorted {A} (R : A -> A -> Prop) (l l' : list A) :
  subseq l l' -> StronglySorted R l' -> StronglySorted R l.
Proof.
  induction 1 as [|x l l' Hs IH|x l l' Hs IH]; intros Hsorted.
  - constructor.
  - inversion Hsorted; subst. auto.
  - inversion Hsorted as [|? ? Hl' Hx]; subst. constructor; [auto|].
    rewrite Forall_forall in *. intros y Hy. apply Hx. eapply subseq_In; eauto.
Qed.

Lemma subseq_firstn {A} (n : nat) (l : list A) : subseq (firstn n l) l.
Proof.
  revert n. induction l as [|x l IH]; intros [|n]; simpl.
  - constructor.
  - constructor.
  - apply subseq_nil_l.
  - apply subseq_keep. apply IH.
Qed.

Lemma subseq_trans {A} (a b c : list A) : subseq a b -> subseq b c -> subseq a c.
Proof.
  intros Hab Hbc. revert a Hab. induction Hbc as [|x l l' H IH|x l l' H IH];
    intros a Hab.
  - exact Hab.
  - apply subseq_skip. auto.
  - inversion Hab; subst; [apply subseq_skip | apply subseq_keep]; auto.
Qed.

Section DiversityFacts.

Variable config : RecommendationConfig.

Lemma diversityStep_subseq (st : list RecommendedQuestion * list jsstring)
  (q : RecommendedQuestion) (seen : list RecommendedQuestion) :
  subseq (fst st) seen ->
  Forall (fun x => (relevanceThreshold config <= relevanceScore x)%Q) (fst st) ->
  subseq (fst (diversityStep config st q)) (seen ++ [q])
  /\ Forall (fun x => (relevanceThreshold config <= relevanceScore x)%Q)
            (fst (diversityStep config st q)).
Proof.
  destruct st as [filtered used]. simpl. intros Hs Hall.
  assert (Hskip : subseq filtered (seen ++ [q])).
  { rewrite <- (app_nil_r filtered). apply subseq_app; [exact Hs|].
    apply subseq_skip. constructor. }
  destruct (Qle_bool (relevanceThreshold config) (relevanceScore q)) eqn:E;
    [|auto].
  destruct (negb (set_has used (category q))
            || (length used <? length (categories config))); simpl; [|auto].
  split.
  - apply subseq_app; [exact Hs|]. apply subseq_keep. constructor.
  - apply Forall_app. split; [exact Hall|]. repeat constructor.
    now apply Qle_bool_iff.
Qed.

Lemma applyDiversityFilter_subseq (questions : list RecommendedQuestion) :
  subseq (applyDiversityFilter config questions) questions
  /\ Forall (fun x => (relevanceThreshold config <= relevanceScore x)%Q)
            (applyDiversityFilter config questions).
Proof.
  unfold applyDiversityFilter.
  assert (H : forall l seen st,
            subseq (fst st) seen ->
            Forall (fun x => (relevanceThreshold config <= relevanceScore x)%Q) (fst st) ->
            subseq (fst (fold_left (diversityStep config) l st)) (seen ++ l)
            /\ Forall (fun x => (relevanceThreshold config <= relevanceScore x)%Q)
                      (fst (fold_left (diversityStep config) l st))).
  { induction l as [|q l IH]; intros seen st Hs Hall; simpl.
    - now rewrite app_nil_r.
    - destruct (diversityStep_subseq st q seen Hs Hall) as [Hs' Hall'].
      specialize (IH (seen ++ [q]) _ Hs' Hall').
      now rewrite <- app_assoc in IH. }
  apply (H questions [] ([], [])); constructor.
Qed.

Lemma calculateRelevanceScore_le_1 (q : RecommendedQuestion) (analysis : Analysis) :
  (calculateRelevanceScore q analysis <= 1)%Q.
Proof.
  unfold calculateRelevanceScore.
  eapply Qle_trans; [apply Q.le_min_r|]. lra.
Qed.

Variable analyzeContext : ConversationContext -> Result Analysis.
Variable generateCandidateQuestions :
  Analysis -> option (list SourceDoc) -> Result (list RecommendedQuestion).
Variable uuidv4 : nat -> jsstring.

(** X27.  When the analysis and the candidate generation do not throw,
    the recommendations are candidates with their score recomputed: they
    are taken from the rescored candidates sorted by score, in that order,
    so they are in descending order of score, and each score is at least
    the relevance threshold of the configuration and at most 1. *)
Theorem X27_recommendations_are_ranked_candidates
  (context : ConversationContext) (sources : option (list SourceDoc))
  (analysis : Analysis) (candidates : list RecommendedQuestion) :
  analyzeContext context = Ok analysis ->
  generateCandidateQuestions analysis sources = Ok candidates ->
  exists out,
    generateRecommendations config analyzeContext generateCandidateQuestions
      uuidv4 context sources = Ok out
    /\ subseq out (scoreQuestions candidates analysis)
    /\ Permutation
         (map (fun q => withScore q (calculateRelevanceScore q analysis)) candidates)
         (scoreQuestions candidates analysis)
    /\ descending relevanceScore out
    /\ Forall (fun q => (relevanceThreshold config <= relevanceScore q <= 1)%Q) out
    /\ forall q, In q out ->
         exists c, In c candidates
                   /\ q = withScore c (calculateRelevanceScore c analysis).
Proof.
  intros Ha Hc.
  unfold generateRecommendations, generateRecommendations_try, try_catch, bind.
  rewrite Ha, Hc. eexists. split; [reflexivity|].
  destruct (applyDiversityFilter_subseq (scoreQuestions candidates analysis))
    as [Hsub Hall].
  set (scored := scoreQuestions candidates analysis) in *.
  set (out := firstn (maxRecommendations config) (applyDiversityFilter config scored)).
  assert (Hout : subseq out scored).
  { eapply subseq_trans; [apply subseq_firstn | exact Hsub]. }
  assert (Hprov : forall q, In q scored ->
            exists c, In c candidates
                      /\ q = withScore c (calculateRelevanceScore c analysis)).
  { intros q Hq. unfold scored, scoreQuestions in Hq. apply sort_In in Hq.
    apply in_map_iff in Hq as (c & <- & Hin). eauto. }
  split; [exact Hout|]. split; [apply sort_perm|]. split; [|split].
  - unfold descending. eapply subseq_sorted; [exact Hout|].
    apply (sort_descending relevanceScore).
  - apply Forall_forall. intros q Hq. split.
    + rewrite Forall_forall in Hall. apply Hall. now apply In_firstn in Hq.
    + destruct (Hprov q (subseq_In _ _ _ Hout Hq)) as (c & _ & ->). simpl.
      apply calculateRelevanceScore_le_1.
  - intros q Hq. apply Hprov. exact (subseq_In _ _ _ Hout Hq).
Qed.

Lemma set_has_In (s : list jsstring) (x : jsstring) : set_has s x = true <-> In x s.
Proof.
  unfold set_has. rewrite existsb_exists. split.
  - intros (y & Hy & He). apply streq_eq in He. now subst.
  - intros H. exists x. split; [exact H | apply streq_refl].
Qed.

Lemma set_add_spec (s : list jsstring) (x : jsstring) (cats : list jsstring) :
  NoDup s -> incl s cats -> In x cats ->
  NoDup (set_add s x) /\ incl (set_add s x) cats.
Proof.
  intros Hnd Hincl Hx. unfold set_add.
  destruct (set_has s x) eqn:E; [auto|]. split.
  - apply NoDup_app; [exact Hnd | repeat constructor; auto |].
    intros y Hy [<-|[]]. apply set_has_In in Hy. congruence.
  - apply incl_app; [exact Hincl|]. intros y [<-|[]]. exact Hx.
Qed.

(** X28.  The diversity filter rejects a question for its category only
    once as many categories are in use as the configuration lists: when the
    questions use fewer categories than that, the filter keeps exactly the
    questions that pass the relevance threshold, in order. *)
Theorem X28_few_categories_leave_the_threshold_alone
  (questions : list RecommendedQuestion) (cats : list jsstring) :
  (forall q, In q questions -> In (category q) cats) ->
  length cats < length (categories config) ->
  applyDiversityFilter config questions
  = filter (fun q => Qle_bool (relevanceThreshold config) (relevanceScore q)) questions.
Proof.
  intros Hcats Hfew. unfold applyDiversityFilter.
  assert (H : forall l filtered used,
            (forall q, In q l -> In (category q) cats) ->
            NoDup used -> incl used cats ->
            fst (fold_left (diversityStep config) l (filtered, used))
            = filtered
              ++ filter (fun q => Qle_bool (relevanceThreshold config)
                                           (relevanceScore q)) l).
  { induction l as [|q l IH]; intros filtered used Hl Hnd Hincl; simpl.
    - now rewrite app_nil_r.
    - assert (Hsize : (length used <? length (categories config)) = true).
      { apply Nat.ltb_lt. pose proof (NoDup_incl_length Hnd Hincl). lia. }
      rewrite Hsize, orb_true_r.
      destruct (Qle_bool (relevanceThreshold config) (relevanceScore q)).
      + destruct (set_add_spec used (category q) cats Hnd Hincl) as [Hnd' Hincl'];
          [apply Hl; now left|].
        rewrite IH; [now rewrite <- app_assoc | intros; apply Hl; now right
                    | exact Hnd' | exact Hincl'].
      + apply IH; [intros; apply Hl; now right | exact Hnd | exact Hincl]. }
  rewrite (H questions [] []); auto; [constructor | intros x []].
Qed.

End DiversityFacts.

Lemma X27_recommendations_witness :
  exists out,
    generateRecommendations defaultConfig (fun _ => Ok exampleAnalysis)
      (fun _ _ => Ok exampleCandidates) (fun _ => js "id") exampleContext None
    = Ok out
    /\ subseq out (scoreQuestions exampleCandidates exampleAnalysis)
    /\ Permutation
         (map (fun q => withScore q (calculateRelevanceScore q exampleAnalysis))
              exampleCandidates)
         (scoreQuestions exampleCandidates exampleAnalysis)
    /\ descending relevanceScore out
    /\ Forall (fun q => (relevanceThreshold defaultConfig <= relevanceScore q <= 1)%Q)
              out
    /\ forall q, In q out ->
         exists c, In c exampleCandidates
                   /\ q = withScore c (calculateRelevanceScore c exampleAnalysis).
Proof.
  apply (X27_recommendations_are_ranked_candidates defaultConfig
           (fun _ => Ok exampleAnalysis) (fun _ _ => Ok exampleCandidates)
           (fun _ => js "id") exampleContext None exampleAnalysis exampleCandidates).
  - reflexivity.
  - reflexivity.
Defined.

Lemma X28_few_categories_witness :
  applyDiversityFilter defaultConfig exampleCandidates
  = filter (fun q => Qle_bool (relevanceThreshold defaultConfig) (relevanceScore q))
           exampleCandidates.
Proof.
  apply (X28_few_categories_leave_the_threshold_alone defaultConfig
           exampleCandidates [js "基础概念"; js "实践操作"]).
  - intros q [<-|[<-|[]]]; vm_compute; auto.
  - vm_compute. lia.
Defined.

(** ** The keywords of a message *)

Import Keywords.

Lemma splitWords_aux_units (s cur : jsstring) (in_run : bool) :
  Forall isWordUnit cur ->
  Forall (Forall isWordUnit) (splitWords_aux s cur in_run).
Proof.
  revert cur in_run. induction s as [|c s IH]; intros cur in_run Hcur; simpl.
  - constructor; [|constructor]. now apply Forall_rev.
  - destruct (isWhiteSpace c) eqn:Ew.
    + destruct in_run; [now apply IH|].
      constructor; [now apply Forall_rev | apply IH; constructor].
    + destruct (isPunctuation c) eqn:Ep.
      * constructor; [now apply Forall_rev | apply IH; constructor].
      * apply IH. constructor; [split; assumption | exact Hcur].
Qed.

Section CountFacts.

Lemma In_keys_get {V} (m : JSMap V) (k : jsstring) :
  In k (map fst m) -> exists v, map_get m k = Some v.
Proof.
  intros H. destruct (map_get m k) as [v|] eqn:E; [eauto|].
  apply map_get_None in E. contradiction.
Qed.

Lemma In_map_get {V} (m : JSMap V) (k : jsstring) (v : V) :
  NoDup (map fst m) -> In (k, v) m -> map_get m k = Some v.
Proof.
  induction m as [|[k' v'] m IH]; simpl; [tauto|].
  intros Hnd [[= -> ->]|H].
  - now rewrite streq_refl.
  - inversion Hnd as [|? ? Hk Hm]; subst.
    destruct (streq k' k) eqn:E; [|auto].
    apply streq_eq in E. subst k'. exfalso. apply Hk.
    apply (in_map fst) in H. exact H.
Qed.

Lemma occurrencesIn_snoc (words : list jsstring) (w word : jsstring) :
  occurrencesIn (words ++ [w]) word
  = occurrencesIn words word + (if streq word w then 1 else 0).
Proof.
  unfold occurrencesIn. rewrite filter_app, length_app. simpl.
  destruct (streq word w); reflexivity.
Qed.

Lemma countWord_counted (words : list jsstring) (m : JSMap nat) (w : jsstring) :
  counted words m -> counted (words ++ [w]) (countWord m w).
Proof.
  intros [Hnd Hget]. unfold countWord. split.
  - destruct (map_get m w) as [n|] eqn:E.
    + rewrite map_set_keys_present; [exact Hnd|].
      apply map_get_In in E. apply (in_map fst) in E. exact E.
    + rewrite map_set_keys_absent by now apply map_get_None.
      apply NoDup_app; [exact Hnd | repeat constructor; auto |].
      intros x Hx [<-|[]]. apply map_get_None in E. contradiction.
  - intros word. rewrite occurrencesIn_snoc.
    destruct (streq word w) eqn:E.
    + apply streq_eq in E. subst word. rewrite map_set_get_same.
      rewrite Hget. destruct (occurrencesIn words w); simpl; f_equal; lia.
    + rewrite map_set_get_other.
      * rewrite Hget, Nat.add_0_r. reflexivity.
      * intros ->. rewrite streq_refl in E. discriminate.
Qed.

Lemma fold_countWord_counted (words seen : list jsstring) (m : JSMap nat) :
  counted seen m -> counted (seen ++ words) (fold_left countWord words m).
Proof.
  revert seen m. induction words as [|w words IH]; intros seen m H; simpl.
  - now rewrite app_nil_r.
  - replace (seen ++ w :: words) with ((seen ++ [w]) ++ words)
      by (now rewrite <- app_assoc).
    apply IH. now apply countWord_counted.
Qed.

End CountFacts.

Lemma NoDup_firstn {A} (n : nat) (l : list A) : NoDup l -> NoDup (firstn n l).
Proof.
  intros H. rewrite <- (firstn_skipn n l) in H.
  now apply NoDup_app_remove_r in H.
Qed.

Lemma descending_map_fst (cnt : jsstring -> nat) (l : list (jsstring * nat)) :
  Forall (fun e => snd e = cnt (fst e)) l ->
  descending (fun e : jsstring * nat => inject_Z (Z.of_nat (snd e))) l ->
  descending (fun w => inject_Z (Z.of_nat (cnt w))) (map fst l).
Proof.
  unfold descending. intros Hall Hs.
  induction Hs as [|e l Hl IH He]; simpl; [constructor|].
  inversion Hall as [|? ? Hc Hall']; subst.
  constructor; [auto|].
  rewrite Forall_forall in *. intros w Hw.
  apply in_map_iff in Hw as (e' & <- & He').
  specialize (He e' He'). simpl in He.
  rewrite <- Hc, <- (Hall' e' He'). exact He.
Qed.

(** X29.  [extractKeywords] returns at most five words, pairwise
    distinct; each is a word of the message between separators, has at
    least two code units, is no stop word and contains neither white space
    nor one of the punctuation marks; the words come in descending order of
    their number of occurrences among the candidate words, and when fewer
    than five are returned every candidate word is among them. *)
Theorem X29_keywords_are_the_most_frequent_words (text : jsstring) :
  let words := filter isKeywordCandidate (splitWords text) in
  let keywords := extractKeywords text in
  length keywords <= 5
  /\ NoDup keywords
  /\ Forall (fun w => In w (splitWords text)
                      /\ 2 <= length w
                      /\ ~ In w stopWords
                      /\ Forall isWordUnit w) keywords
  /\ descending (fun w => inject_Z (Z.of_nat (occurrencesIn words w))) keywords
  /\ (length keywords < 5 -> forall w, In w words -> In w keywords).
Proof.
  cbv zeta. unfold extractKeywords.
  set (words := filter isKeywordCandidate (splitWords text)).
  destruct (fold_countWord_counted words [] []) as [Hnd Hget].
  { split; [constructor | intros w; reflexivity]. }
  simpl app in Hget.
  set (m := fold_left countWord words []) in *.
  set (sorted := sort byCountDesc m).
  assert (Hperm : Permutation m sorted) by apply sort_perm.
  assert (Hentry : forall e, In e sorted ->
            snd e = occurrencesIn words (fst e) /\ In (fst e) words).
  { intros [w n] He. simpl.
    apply (Permutation_in _ (Permutation_sym Hperm)) in He.
    apply (In_map_get m w n Hnd) in He. rewrite Hget in He.
    destruct (occurrencesIn words w) as [|k] eqn:Ek; [discriminate|].
    injection He as <-. split; [reflexivity|].
    unfold occurrencesIn in Ek.
    destruct (filter (streq w) words) as [|x t] eqn:Ef; [discriminate|].
    assert (Hx : In x (filter (streq w) words)) by (rewrite Ef; now left).
    apply filter_In in Hx as [Hx Heq]. apply streq_eq in Heq. now subst. }
  split; [rewrite length_map, length_firstn; lia|].
  split.
  { rewrite <- firstn_map. apply NoDup_firstn.
    eapply Permutation_NoDup; [apply Permutation_map; exact Hperm | exact Hnd]. }
  split.
  { apply Forall_forall. intros w Hw.
    apply in_map_iff in Hw as (e & <- & He). apply In_firstn in He.
    destruct (Hentry e He) as [_ Hin]. unfold words in Hin.
    apply filter_In in Hin as [Hsplit Hcand].
    unfold isKeywordCandidate in Hcand.
    apply andb_true_iff in Hcand as [Hlen Hstop].
    apply Nat.ltb_lt in Hlen. apply negb_true_iff in Hstop.
    split; [exact Hsplit|]. split; [lia|]. split.
    - intros Hin. apply set_has_In in Hin. congruence.
    - pose proof (splitWords_aux_units text [] false (Forall_nil _)) as Hu.
      rewrite Forall_forall in Hu. now apply Hu. }
  split.
  { apply descending_map_fst.
    - apply Forall_forall. intros e He. apply In_firstn in He.
      now destruct (Hentry e He).
    - apply descending_firstn. apply (sort_descending
        (fun e : jsstring * nat => inject_Z (Z.of_nat (snd e)))). }
  intros Hshort w Hw.
  rewrite length_map, length_firstn in Hshort.
  assert (Hall : firstn 5 sorted = sorted).
  { apply firstn_all2. lia. }
  rewrite Hall.
  assert (Hk : In w (map fst m)).
  { destruct (map_get m w) as [n|] eqn:E.
    - apply map_get_In in E. apply (in_map fst) in E. exact E.
    - rewrite Hget in E. unfold occurrencesIn in E.
      destruct (filter (streq w) words) as [|x t] eqn:Ef; [|discriminate].
      assert (Hin : In w (filter (streq w) words)).
      { apply filter_In. split; [exact Hw | apply streq_refl]. }
      rewrite Ef in Hin. destruct Hin. }
  eapply Permutation_in; [apply Permutation_map; exact Hperm | exact Hk].
Qed.

(** ** The batches sent to the embedding service *)

Import Parsing Embeddings.

Lemma sliceArray_length {A} (i n : nat) (l : list A) :
  length (sliceArray i (i + n) l) <= n.
Proof.
  unfold sliceArray. rewrite length_firstn. lia.
Qed.

Lemma ceilDiv_step (n : nat) :
  0 < n -> ceilDiv n batchSize = S (ceilDiv (n - batchSize) batchSize).
Proof.
  intros Hn. unfold ceilDiv, batchSize.
  destruct (Nat.lt_ge_cases n 20) as [Hlt|Hge].
  - replace (n - 20) with 0 by lia. simpl (0 + 20 - 1).
    rewrite (Nat.div_small 19 20) by lia.
    symmetry. apply (Nat.div_unique _ _ _ (n - 1)); lia.
  - replace (n + 20 - 1) with ((n - 20 + 20 - 1) + 1 * 20) by lia.
    rewrite Nat.div_add by lia. lia.
Qed.

Section BatchFacts.

Variable getEmbeddings : nat -> list jsstring -> Result (list (list Q)).

Lemma batchLoop_spec (texts : list jsstring) (fuel i call : nat)
  (results : list (list Q)) :
  length texts - i <= fuel ->
  exists batches,
    concat batches = skipn i texts
    /\ Forall (fun b => 0 < length b <= batchSize) batches
    /\ length batches = ceilDiv (length texts - i) batchSize
    /\ batchLoop getEmbeddings fuel texts i call results
       = Some (embeddings <- callAll getEmbeddings call batches ;;
               Ok (results ++ concat embeddings)).
Proof.
  unfold batchSize.
  revert i call results. induction fuel as [|fuel IH]; intros i call results Hfuel.
  - exists []. simpl. destruct (i <? length texts) eqn:E.
    + apply Nat.ltb_lt in E. lia.
    + apply Nat.ltb_ge in E. rewrite skipn_all2 by exact E.
      replace (length texts - i) with 0 by lia.
      rewrite app_nil_r. repeat split; constructor.
  - simpl. unfold batchSize. destruct (i <? length texts) eqn:E.
    + apply Nat.ltb_lt in E.
      destruct (IH (i + 20) (S call)) with
        (results := results ++ match getEmbeddings call
                                       (sliceArray i (i + 20) texts) with
                               | Ok e => e
                               | Throw => []
                               end)
        as (batches & Hcat & Hall & Hlen & Hloop); [lia|].
      exists (sliceArray i (i + 20) texts :: batches).
      split; [|split; [|split]].
      * simpl. rewrite Hcat. symmetry. apply sliceArray_skipn.
      * constructor; [|exact Hall]. split; [|apply sliceArray_length].
        pose proof (sliceArray_nonempty i 20 texts E) as Hne.
        destruct (sliceArray i (i + 20) texts);
          [exfalso; apply Hne; [lia | reflexivity] | simpl; lia].
      * simpl. rewrite Hlen.
        replace (length texts - (i + 20)) with (length texts - i - 20) by lia.
        symmetry. apply ceilDiv_step. lia.
      * simpl. destruct (getEmbeddings call (sliceArray i (i + 20) texts))
          as [e|]; simpl; [|reflexivity].
        rewrite Hloop. unfold bind.
        destruct (callAll getEmbeddings (S call) batches) as [es|]; [|reflexivity].
        simpl. now rewrite <- app_assoc.
    + apply Nat.ltb_ge in E. exists []. rewrite skipn_all2 by exact E.
      replace (length texts - i) with 0 by lia.
      simpl. rewrite app_nil_r. repeat split; constructor.
Qed.

Lemma callAll_lengths (call : nat) (batches : list (list jsstring))
  (embeddings : list (list (list Q))) :
  (forall k batch es, getEmbeddings k batch = Ok es -> length es = length batch) ->
  callAll getEmbeddings call batches = Ok embeddings ->
  length (concat embeddings) = length (concat batches).
Proof.
  intros Hget. revert call embeddings.
  induction batches as [|b bs IH]; intros call embeddings; simpl.
  - now intros [= <-].
  - destruct (getEmbeddings call b) as [e|] eqn:E; simpl; [|discriminate].
    destruct (callAll getEmbeddings (S call) bs) as [es|] eqn:Es; simpl;
      [|discriminate].
    intros [= <-]. simpl. rewrite !length_app.
    rewrite (Hget _ _ _ E), (IH _ _ Es). reflexivity.
Qed.

(** X30.  [batchEmbeddings] cuts the texts into consecutive batches of at
    most 20, none empty, [ceil(n / 20)] of them for [n] texts, that together
    are the texts in order; it calls the embedding service once per batch,
    in order, and returns the embeddings of all batches concatenated, or
    throws as soon as a call throws.  When the service returns one
    embedding per text, the result has one embedding per text. *)
Theorem X30_batches_cover_the_texts (texts : list jsstring) :
  exists batches,
    concat batches = texts
    /\ Forall (fun b => 0 < length b <= batchSize) batches
    /\ length batches = ceilDiv (length texts) batchSize
    /\ batchEmbeddings getEmbeddings texts
       = Some (embeddings <- callAll getEmbeddings 0 batches ;;
               Ok (concat embeddings))
    /\ ((forall k batch es,
           getEmbeddings k batch = Ok es -> length es = length batch) ->
        forall out,
          batchEmbeddings getEmbeddings texts = Some (Ok out) ->
          length out = length texts).
Proof.
  destruct (batchLoop_spec texts (length texts) 0 0 []) as
    (batches & Hcat & Hall & Hlen & Hloop); [lia|].
  simpl skipn in Hcat. rewrite Nat.sub_0_r in Hlen. simpl app in Hloop.
  exists batches.
  split; [exact Hcat|]. split; [exact Hall|]. split; [exact Hlen|].
  split; [exact Hloop|].
  intros Hget out. unfold batchEmbeddings. rewrite Hloop. unfold bind.
  destruct (callAll getEmbeddings 0 batches) as [es|] eqn:Es; [|discriminate].
  intros [= <-]. rewrite (callAll_lengths 0 batches es Hget Es). now rewrite Hcat.
Qed.

End BatchFacts.
